(** * dbgo: the template pipeline, the macro registry and their contracts

    A shallow embedding of the Go packages [internal/template] (parser and
    renderer), [internal/macro] (registry) and of the collaborators they
    call, followed by the properties the specification states about them.

    Go strings are byte strings: they are modelled by [string], and the
    text algorithms (trimming, regular expressions, lexing) run over
    [list ascii], one [ascii] per byte. *)

From Stdlib Require Import String Ascii List ZArith Lia Bool.
From stdpp Require Import base strings list gmap sorting pretty.
Import ListNotations.

#[local] Set Warnings "-register-all".

Local Open Scope string_scope.
Local Open Scope list_scope.

(** ** Bytes and text *)

Definition bytes := list ascii.

Definition B (s : string) : bytes := list_ascii_of_string s.
Definition S_ (l : bytes) : string := string_of_list_ascii l.

Definition code (c : ascii) : nat := nat_of_ascii c.

Definition inRange (lo hi : nat) (c : ascii) : bool :=
  Nat.leb lo (code c) && Nat.leb (code c) hi.

Definition isByte (n : nat) (c : ascii) : bool := Nat.eqb (code c) n.

(** [bytes_eqb] decides equality of byte strings. *)
Fixpoint bytes_eqb (a b : bytes) : bool :=
  match a, b with
  | [], [] => true
  | x :: a', y :: b' => Ascii.eqb x y && bytes_eqb a' b'
  | _, _ => false
  end.

(** [hasPrefix p l]: Go's [strings.HasPrefix(l, p)]. *)
Fixpoint hasPrefix (p l : bytes) : bool :=
  match p, l with
  | [], _ => true
  | x :: p', y :: l' => Ascii.eqb x y && hasPrefix p' l'
  | _ :: _, [] => false
  end.

(** The concatenation of a list of strings, in order. *)
Definition concatStrings (l : list string) : string :=
  fold_right String.append EmptyString l.

(** Text that opens no delimiter: neither [{{] nor [{*] occurs in it. *)
Fixpoint pureText (l : bytes) : bool :=
  match l with
  | c :: l1 =>
      match l1 with
      | d :: _ => negb (isByte 123 c && (isByte 123 d || isByte 42 d)) && pureText l1
      | [] => true
      end
  | [] => true
  end.

(** *** [strings.TrimSpace]

    Go trims every leading and trailing Unicode white-space rune
    ([unicode.IsSpace]).  On the UTF-8 bytes of the string these are the
    six ASCII bytes HT, LF, VT, FF, CR, SP and the encodings of U+0085,
    U+00A0, U+1680, U+2000..U+200A, U+2028, U+2029, U+202F, U+205F and
    U+3000; a byte that does not decode to one of them is kept. *)

Definition isAsciiSpace (c : ascii) : bool :=
  inRange 9 13 c || isByte 32 c.

(** Width in bytes of the white-space rune [l] starts with, [0] if none. *)
Definition leadingSpaceWidth (l : bytes) : nat :=
  match l with
  | [] => 0
  | c :: l1 =>
      if isAsciiSpace c then 1
      else match l1 with
           | [] => 0
           | d :: l2 =>
               if isByte 194 c && (isByte 133 d || isByte 160 d) then 2
               else match l2 with
                    | [] => 0
                    | e :: _ =>
                        if isByte 225 c && isByte 154 d && isByte 128 e then 3
                        else if isByte 226 c && isByte 128 d &&
                                (inRange 128 138 e || isByte 168 e ||
                                 isByte 169 e || isByte 175 e) then 3
                        else if isByte 226 c && isByte 129 d && isByte 159 e then 3
                        else if isByte 227 c && isByte 128 d && isByte 128 e then 3
                        else 0
                    end
           end
  end.

(** Width of the white-space rune [l] ends with, read on the reversed
    string (last byte first), [0] if none. *)
Definition trailingSpaceWidth (r : bytes) : nat :=
  match r with
  | [] => 0
  | c :: r1 =>
      if isAsciiSpace c then 1
      else match r1 with
           | [] => 0
           | d :: r2 =>
               if isByte 194 d && (isByte 133 c || isByte 160 c) then 2
               else match r2 with
                    | [] => 0
                    | e :: _ =>
                        if isByte 225 e && isByte 154 d && isByte 128 c then 3
                        else if isByte 226 e && isByte 128 d &&
                                (inRange 128 138 c || isByte 168 c ||
                                 isByte 169 c || isByte 175 c) then 3
                        else if isByte 226 e && isByte 129 d && isByte 159 c then 3
                        else if isByte 227 e && isByte 128 d && isByte 128 c then 3
                        else 0
                    end
           end
  end.

(** Strip white-space runes from the front, at most [fuel] of them. *)
Fixpoint stripWith (width : bytes -> nat) (fuel : nat) (l : bytes) : bytes :=
  match fuel with
  | O => l
  | S n =>
      match width l with
      | O => l
      | S k => stripWith width n (drop (S k) l)
      end
  end.

Definition trimLeftSpace (l : bytes) : bytes :=
  stripWith leadingSpaceWidth (length l) l.

Definition trimRightSpace (l : bytes) : bytes :=
  rev (stripWith trailingSpaceWidth (length l) (rev l)).

Definition trimSpaceBytes (l : bytes) : bytes :=
  trimRightSpace (trimLeftSpace l).

Definition TrimSpace (s : string) : string := S_ (trimSpaceBytes (B s)).

(** ** Regular expressions ([regexp], the fragment the parser uses)

    Go's [regexp] finds the leftmost match and, among the matches that
    start there, the one a backtracking search finds first (greedy
    operators try the longest repetition first, lazy ones the shortest).
    The matcher below lists the successes of that search in its order.
    The classes used are ASCII classes, and [.] is every byte but LF: a
    capture that stops inside a multi-byte rune never succeeds, because
    what follows it in the three patterns is ASCII. *)

Module Regex.

Inductive cls : Type :=
  | Space            (* \s : [\t\n\f\r ] *)
  | Word             (* \w : [0-9A-Za-z_] *)
  | Dot              (* .  : any byte but \n *)
  | Chr (c : ascii). (* a literal byte *)

Definition inCls (k : cls) (c : ascii) : bool :=
  match k with
  | Space => isByte 9 c || isByte 10 c || isByte 12 c || isByte 13 c || isByte 32 c
  | Word => inRange 48 57 c || inRange 65 90 c || inRange 97 122 c || isByte 95 c
  | Dot => negb (isByte 10 c)
  | Chr d => Ascii.eqb c d
  end.

Inductive regex : Type :=
  | RBegin                    (* ^ *)
  | REnd                      (* $ *)
  | RLit (s : string)         (* literal text *)
  | RStar (k : cls)           (* k*  *)
  | RPlus (k : cls)           (* k+  *)
  | RPlusLazy (k : cls)       (* k+? *)
  | ROpt (k : cls)            (* k?  *)
  | RGroup (r : regex)        (* ( r ) *)
  | REmpty                    (* the empty expression *)
  | RCat (r1 r2 : regex).     (* r1 r2 *)

(** A pattern written as the sequence of its pieces. *)
Definition cat (rs : list regex) : regex := fold_right RCat REmpty rs.

(** A state of the search: how many bytes are consumed, what is left,
    and the groups closed so far, in order. *)
Record mstate : Type := MState {
  consumed : nat;
  rest : bytes;
  caps : list bytes
}.

Definition advanceBy (st : mstate) (k : nat) : mstate :=
  MState (consumed st + k) (drop k (rest st)) (caps st).

(** Length of the longest prefix of [l] inside the class. *)
Fixpoint spanLen (k : cls) (l : bytes) : nat :=
  match l with
  | c :: l' => if inCls k c then S (spanLen k l') else 0
  | [] => 0
  end.

Definition closeGroup (st st' : mstate) : mstate :=
  MState (consumed st') (rest st')
         (caps st' ++ [take (consumed st' - consumed st) (rest st)]).

Fixpoint run (r : regex) (st : mstate) : list mstate :=
  match r with
  | RBegin => if Nat.eqb (consumed st) 0 then [st] else []
  | REnd => match rest st with [] => [st] | _ :: _ => [] end
  | RLit s => if hasPrefix (B s) (rest st) then [advanceBy st (length (B s))] else []
  | RStar k => map (advanceBy st) (rev (seq 0 (S (spanLen k (rest st)))))
  | RPlus k => map (advanceBy st) (rev (seq 1 (spanLen k (rest st))))
  | RPlusLazy k => map (advanceBy st) (seq 1 (spanLen k (rest st)))
  | ROpt k =>
      match rest st with
      | c :: _ => if inCls k c then [advanceBy st 1; st] else [st]
      | [] => [st]
      end
  | RGroup r' => map (closeGroup st) (run r' st)
  | REmpty => [st]
  | RCat r1 r2 => flat_map (run r2) (run r1 st)
  end.

(** The first success of the search started [off] bytes into the text. *)
Definition matchAt (r : regex) (off : nat) (l : bytes) : option (list bytes) :=
  match run r (MState off l []) with
  | st :: _ => Some (take (consumed st - off) l :: caps st)
  | [] => None
  end.

(** Leftmost match: the start offsets are tried from left to right. *)
Fixpoint findFrom (r : regex) (off : nat) (l : bytes) : option (list bytes) :=
  match matchAt r off l with
  | Some m => Some m
  | None =>
      match l with
      | [] => None
      | _ :: l' => findFrom r (S off) l'
      end
  end.

(** [Regexp.FindStringSubmatch]: the match and its groups, or [None]
    (Go's [nil]). *)
Definition FindStringSubmatch (r : regex) (s : string) : option (list string) :=
  option_map (map S_) (findFrom r 0 (B s)).

(** [Regexp.MatchString]. *)
Definition MatchString (r : regex) (s : string) : bool :=
  match findFrom r 0 (B s) with Some _ => true | None => false end.

(** *** Vocabulary for the properties of the patterns *)

(** The 256 bytes. *)
Definition allBytes : list ascii := map ascii_of_nat (seq 0 256).

(** Every byte of the class satisfies [P]. *)
Definition clsWithin (P : ascii -> bool) (k : cls) : bool :=
  forallb (fun c => implb (inCls k c) (P c)) allBytes.

(** The pattern consumes bytes that satisfy [P] only. *)
Fixpoint alphabet (P : ascii -> bool) (r : regex) : bool :=
  match r with
  | RBegin | REnd | REmpty => true
  | RLit s => forallb P (B s)
  | RStar k | RPlus k | RPlusLazy k | ROpt k => clsWithin P k
  | RGroup r' => alphabet P r'
  | RCat r1 r2 => alphabet P r1 && alphabet P r2
  end.

(** [st'] is [st] after [j] more bytes. *)
Definition consumes (st : mstate) (j : nat) (st' : mstate) : Prop :=
  consumed st' = consumed st + j /\ j <= length (rest st) /\
  rest st' = drop j (rest st).

(** Any byte but the colon. *)
Definition notColon (c : ascii) : bool := negb (Ascii.eqb c ":").

(** The bytes [\s*:?\s*] can consume. *)
Definition spaceOrColon (c : ascii) : bool := inCls Space c || Ascii.eqb c ":".

(** [$] does not occur in the pattern. *)
Fixpoint noEnd (r : regex) : bool :=
  match r with
  | REnd => false
  | RGroup r' => noEnd r'
  | RCat r1 r2 => noEnd r1 && noEnd r2
  | _ => true
  end.

(** The pattern neither consumes a colon nor looks for the end. *)
Definition colonBlind (r : regex) : bool := alphabet notColon r && noEnd r.

(** The state of the same search on the text with a colon appended. *)
Definition withColon (st : mstate) : mstate :=
  MState (consumed st) (rest st ++ [":"%char]) (caps st).

(** [\s*:?\s*$], what the three patterns end with after their last
    group. *)
Definition closer : list regex :=
  [RStar Space; ROpt (Chr ":"); RStar Space; REnd].

(** [(.+?)\s*:?\s*$], the last group and the closer. *)
Definition tailItems : list regex := RGroup (RPlusLazy Dot) :: closer.

(** One attempt of the tail: the group takes [j] bytes, the closer the
    others. *)
Definition attempt (st : mstate) (j : nat) : list mstate :=
  run (cat closer) (closeGroup st (advanceBy st j)).

(** The outcomes of the tail on a text and on the text with a colon
    appended: both fail, or the first successes capture the same. *)
Definition sameOutcome (a b : list mstate) : Prop :=
  match a, b with
  | [], [] => True
  | x :: _, y :: _ => caps x = caps y
  | _, _ => False
  end.

(** The captures of an optional match. *)
Definition groups (m : option (list bytes)) : option (list bytes) :=
  option_map (@tl bytes) m.

(** The first success of [r] from [st] is [a]. *)
Definition firstIs (r : regex) (st a : mstate) : Prop :=
  exists t, run r st = a :: t.

End Regex.

(** ** The template language: tokens, AST, errors

    The declarations of [internal/template] the parser and the renderer
    use (token and node types, error constructors). *)

Module Template.

Record Position : Type := mkPos {
  File : string;
  Line : nat;
  Column : nat
}.

Inductive TokenType : Type := TokenText | TokenExpr | TokenStmt | TokenEOF.

Definition TokenType_String (t : TokenType) : string :=
  match t with
  | TokenText => "TEXT"
  | TokenExpr => "EXPR"
  | TokenStmt => "STMT"
  | TokenEOF => "EOF"
  end.

Record Token : Type := mkToken {
  Type_ : TokenType;
  Value : string;
  Pos : Position
}.

Inductive StmtKind : Type :=
  | StmtUnknown | StmtFor | StmtEndFor | StmtIf | StmtElif | StmtElse | StmtEndIf.

Definition StmtKind_eqb (a b : StmtKind) : bool :=
  match a, b with
  | StmtUnknown, StmtUnknown | StmtFor, StmtFor | StmtEndFor, StmtEndFor
  | StmtIf, StmtIf | StmtElif, StmtElif | StmtElse, StmtElse
  | StmtEndIf, StmtEndIf => true
  | _, _ => false
  end.

(** A parsed statement token ([StmtNode]). *)
Record StmtNode : Type := mkStmt {
  stmtPos : Position;
  Kind : StmtKind;
  VarName : string;
  Expr : string
}.

Record BranchOf (N : Type) : Type := mkBranch {
  Condition : string;
  Body : list N;
  branchPos : Position
}.
Arguments mkBranch {N}.
Arguments Condition {N}.
Arguments Body {N}.
Arguments branchPos {N}.

(** The AST.  [Else] is Go's nil-able slice: [[]] is nil (the parser never
    builds an empty slice that is not nil). *)
Inductive Node : Type :=
  | TextNode (pos : Position) (Text : string)
  | ExprNode (pos : Position) (Expr : string)
  | ForBlock (pos : Position) (VarName IterExpr : string) (Body : list Node)
  | IfBlock (pos : Position) (Condition : string) (Body : list Node)
            (ElseIfs : list (BranchOf Node)) (Else : list Node).

Definition Branch : Type := BranchOf Node.

(** A node that is no block: text or an expression. *)
Definition isLeaf (n : Node) : bool :=
  match n with
  | TextNode _ _ | ExprNode _ _ => true
  | ForBlock _ _ _ _ | IfBlock _ _ _ _ _ => false
  end.

Record Template_ : Type := mkTemplate {
  Nodes : list Node;
  TFile : string
}.

Inductive LexErrorKind : Type := UnclosedExpr | UnclosedStmt.

(** What evaluation reports: [EvalError{File, Line, Expr, Message}]. *)
Record EvalError : Type := mkEvalError {
  EFile : string;
  ELine : nat;
  EExpr : string;
  EMessage : string
}.

Inductive Error : Type :=
  | LexError (pos : Position) (kind : LexErrorKind)
  | ParseError (pos : Position) (msg : string)
  | UnmatchedBlockError (pos : Position) (BlockKind : StmtKind)
  | RenderError (pos : Position) (msg : string) (cause : option EvalError).

Definition NewUnmatchedBlockError := UnmatchedBlockError.
Definition NewParseErrorf := ParseError.
Definition WrapRenderError (pos : Position) (msg : string) (err : EvalError) : Error :=
  RenderError pos msg (Some err).
Definition NewRenderErrorf (pos : Position) (msg : string) : Error :=
  RenderError pos msg None.

(** ** Lexer *)

Inductive lexMode : Type :=
  | InText
  | InExpr (depth : nat)
  | InStmt (depth : nat).

Definition isChar (n : nat) (c : ascii) : bool := isByte n c.

(** 1-based line and column, advanced over one byte. *)
Definition stepPos (p : Position) (c : ascii) : Position :=
  if isByte 10 c then mkPos (File p) (S (Line p)) 1
  else mkPos (File p) (Line p) (S (Column p)).

Definition stepPos2 (p : Position) (c d : ascii) : Position :=
  stepPos (stepPos p c) d.

(** A TEXT token for the text gathered so far (kept in reverse), if any. *)
Definition flushText (acc : bytes) (start : Position) : list Token :=
  match acc with
  | [] => []
  | _ :: _ => [mkToken TokenText (S_ (rev acc)) start]
  end.

Definition delimToken (t : TokenType) (acc : bytes) (start : Position) : Token :=
  mkToken t (TrimSpace (S_ (rev acc))) start.

(** Modelled from the spec: [Lexer.Tokenize] (section 4.6; lexer.go is not
    among the sources, only its tests).  Text runs up to the next [{{] or
    [{*]; inside a delimiter the braces are counted, and the delimiter
    closes at [}}] (resp. [*}]) met at depth 0; the token value is the
    body with the white space at both ends trimmed; an empty text run
    yields no token; a delimiter still open at the end of the input is a
    [LexError].  [toks] holds the tokens emitted so far, last first. *)
Fixpoint lex (m : lexMode) (acc : bytes) (start cur : Position)
  (toks : list Token) (l : bytes) : Error + list Token :=
  match l with
  | [] =>
      match m with
      | InText => inr (rev toks ++ flushText acc start ++ [mkToken TokenEOF "" cur])
      | InExpr _ => inl (LexError start UnclosedExpr)
      | InStmt _ => inl (LexError start UnclosedStmt)
      end
  | c :: l1 =>
      match m with
      | InText =>
          match l1 with
          | d :: l2 =>
              if isByte 123 c && isByte 123 d then
                lex (InExpr 0) [] cur (stepPos2 cur c d)
                    (rev (flushText acc start) ++ toks) l2
              else if isByte 123 c && isByte 42 d then
                lex (InStmt 0) [] cur (stepPos2 cur c d)
                    (rev (flushText acc start) ++ toks) l2
              else lex InText (c :: acc) start (stepPos cur c) toks l1
          | [] => lex InText (c :: acc) start (stepPos cur c) toks l1
          end
      | InExpr depth =>
          match l1 with
          | d :: l2 =>
              if Nat.eqb depth 0 && isByte 125 c && isByte 125 d then
                lex InText [] (stepPos2 cur c d) (stepPos2 cur c d)
                    (delimToken TokenExpr acc start :: toks) l2
              else if isByte 123 c then
                lex (InExpr (S depth)) (c :: acc) start (stepPos cur c) toks l1
              else if isByte 125 c then
                lex (InExpr (Nat.pred depth)) (c :: acc) start (stepPos cur c) toks l1
              else lex (InExpr depth) (c :: acc) start (stepPos cur c) toks l1
          | [] => lex (InExpr depth) (c :: acc) start (stepPos cur c) toks l1
          end
      | InStmt depth =>
          match l1 with
          | d :: l2 =>
              if Nat.eqb depth 0 && isByte 42 c && isByte 125 d then
                lex InText [] (stepPos2 cur c d) (stepPos2 cur c d)
                    (delimToken TokenStmt acc start :: toks) l2
              else if isByte 123 c then
                lex (InStmt (S depth)) (c :: acc) start (stepPos cur c) toks l1
              else if isByte 125 c then
                lex (InStmt (Nat.pred depth)) (c :: acc) start (stepPos cur c) toks l1
              else lex (InStmt depth) (c :: acc) start (stepPos cur c) toks l1
          | [] => lex (InStmt depth) (c :: acc) start (stepPos cur c) toks l1
          end
      end
  end.

(** [NewLexer(input, file).Tokenize()]. *)
Definition Tokenize (input file : string) : Error + list Token :=
  lex InText [] (mkPos file 1 1) (mkPos file 1 1) [] (B input).

(** ** Parser (parser.go) *)

(** The parser's state is its cursor into the token slice: [tokens] is
    what is left from [pos] on ([p.tokens[p.pos:]]); the tokens before
    [pos] are never read again. *)
Record Parser : Type := mkParser {
  tokens : list Token;
  file : string
}.

Definition NewParser (toks : list Token) (f : string) : Parser :=
  mkParser toks f.

Definition zeroPos : Position := mkPos "" 0 0.

(** [current]: the token at the cursor, [Token{Type: TokenEOF}] past the end. *)
Definition current (p : Parser) : Token :=
  match tokens p with
  | [] => mkToken TokenEOF "" zeroPos
  | tok :: _ => tok
  end.

(** [advance]: [p.pos++]. *)
Definition advance (p : Parser) : Parser :=
  mkParser (tl (tokens p)) (file p).

(** [p.pos >= len(p.tokens)]. *)
Definition atEnd (p : Parser) : bool :=
  match tokens p with [] => true | _ :: _ => false end.

Fixpoint containsKind (kinds : list StmtKind) (k : StmtKind) : bool :=
  match kinds with
  | [] => false
  | kind :: kinds' => if StmtKind_eqb kind k then true else containsKind kinds' k
  end.

Import Regex.

(** [^for\s+(\w+)\s+in\s+(.+?)\s*:?\s*$] *)
Definition forPattern : regex :=
  cat [RBegin; RLit "for"; RPlus Space; RGroup (RPlus Word); RPlus Space;
       RLit "in"; RPlus Space; RGroup (RPlusLazy Dot);
       RStar Space; ROpt (Chr ":"); RStar Space; REnd].

(** [^if\s+(.+?)\s*:?\s*$] *)
Definition ifPattern : regex :=
  cat [RBegin; RLit "if"; RPlus Space; RGroup (RPlusLazy Dot);
       RStar Space; ROpt (Chr ":"); RStar Space; REnd].

(** [^elif\s+(.+?)\s*:?\s*$] *)
Definition elifPattern : regex :=
  cat [RBegin; RLit "elif"; RPlus Space; RGroup (RPlusLazy Dot);
       RStar Space; ROpt (Chr ":"); RStar Space; REnd].

(** The pieces of [forPattern] between [^] and the last [\s+] before
    the iterable. *)
Definition forPrefix : list regex :=
  [RLit "for"; RPlus Space; RGroup (RPlus Word); RPlus Space; RLit "in"].

(** One or more word bytes: what [(\w+)] takes as the loop variable. *)
Definition isWord (s : string) : bool :=
  match B s with
  | [] => false
  | c :: l => forallb (inCls Word) (c :: l)
  end.

(** Text without a line feed: what [.] runs over. *)
Definition oneLine (s : string) : bool := forallb (inCls Dot) (B s).

(** [match[i]] of a submatch slice. *)
Definition sub (m : list string) (i : nat) : string := nth i m "".

(** [peekStmtKind] determines the statement kind without advancing. *)
Definition peekStmtKind (value : string) : StmtKind :=
  let value := TrimSpace value in
  if String.eqb value "endfor" then StmtEndFor
  else if String.eqb value "endif" then StmtEndIf
  else if String.eqb value "else" || String.eqb value "else:" then StmtElse
  else if MatchString forPattern value then StmtFor
  else if MatchString ifPattern value then StmtIf
  else if MatchString elifPattern value then StmtElif
  else StmtUnknown.

(** [parseStmt] parses a statement token into a [StmtNode]; the cursor
    moves on success only. *)
Definition parseStmt (p : Parser) (tok : Token) : Error + (StmtNode * Parser) :=
  let value := TrimSpace (Value tok) in
  if String.eqb value "endfor" then
    inr (mkStmt (Pos tok) StmtEndFor "" "", advance p)
  else if String.eqb value "endif" then
    inr (mkStmt (Pos tok) StmtEndIf "" "", advance p)
  else if String.eqb value "else" || String.eqb value "else:" then
    inr (mkStmt (Pos tok) StmtElse "" "", advance p)
  else
    match FindStringSubmatch forPattern value with
    | Some m => inr (mkStmt (Pos tok) StmtFor (sub m 1) (sub m 2), advance p)
    | None =>
        match FindStringSubmatch ifPattern value with
        | Some m => inr (mkStmt (Pos tok) StmtIf "" (sub m 1), advance p)
        | None =>
            match FindStringSubmatch elifPattern value with
            | Some m => inr (mkStmt (Pos tok) StmtElif "" (sub m 1), advance p)
            | None =>
                inl (NewParseErrorf (Pos tok) ("invalid statement syntax: " +:+ value))
            end
        end
    end.

(** The block under construction in [parseIfBlock]. *)
Definition ifBlock (stmt : StmtNode) (body : list Node)
  (elifs : list Branch) (els : list Node) : Node :=
  IfBlock (stmtPos stmt) (Expr stmt) body elifs els.

(** The result of a parsing function: [None] when the recursion budget
    [fuel] is used up (never the case from [Parse], see [Parse_total]),
    else the error or the value with the cursor after it. *)
Definition presult (A : Type) : Type := option (Error + (A * Parser)).

(** [parseNodes], [parseForBlock], [parseIfBlock] and the loop over the
    [elif]/[else]/[endif] chain of the latter.  A loop iteration is a
    recursive call; [nodes] is the slice built so far. *)
Fixpoint parseNodes (fuel : nat) (stopOn : list StmtKind) (nodes : list Node)
  (p : Parser) {struct fuel} : presult (list Node) :=
  match fuel with
  | O => None
  | S n =>
      if atEnd p then Some (inr (nodes, p))
      else
        let tok := current p in
        match Type_ tok with
        | TokenEOF => Some (inr (nodes, p))
        | TokenText =>
            parseNodes n stopOn (nodes ++ [TextNode (Pos tok) (Value tok)]) (advance p)
        | TokenExpr =>
            parseNodes n stopOn (nodes ++ [ExprNode (Pos tok) (Value tok)]) (advance p)
        | TokenStmt =>
            let kind := peekStmtKind (Value tok) in
            if containsKind stopOn kind then Some (inr (nodes, p))
            else
              match parseStmt p tok with
              | inl err => Some (inl err)
              | inr (stmt, p1) =>
                  match Kind stmt with
                  | StmtFor =>
                      match parseForBlock n stmt p1 with
                      | None => None
                      | Some (inl err) => Some (inl err)
                      | Some (inr (block, p2)) =>
                          parseNodes n stopOn (nodes ++ [block]) p2
                      end
                  | StmtIf =>
                      match parseIfBlock n stmt p1 with
                      | None => None
                      | Some (inl err) => Some (inl err)
                      | Some (inr (block, p2)) =>
                          parseNodes n stopOn (nodes ++ [block]) p2
                      end
                  | StmtEndFor | StmtEndIf | StmtElse | StmtElif =>
                      Some (inl (NewUnmatchedBlockError (Pos tok) (Kind stmt)))
                  | StmtUnknown =>
                      Some (inl (NewParseErrorf (Pos tok)
                                   ("unexpected statement: " +:+ Value tok)))
                  end
              end
        end
  end

with parseForBlock (fuel : nat) (stmt : StmtNode) (p : Parser)
  {struct fuel} : presult Node :=
  match fuel with
  | O => None
  | S n =>
      match parseNodes n [StmtEndFor] [] p with
      | None => None
      | Some (inl err) => Some (inl err)
      | Some (inr (body, p1)) =>
          if atEnd p1 then
            Some (inl (NewUnmatchedBlockError (stmtPos stmt) StmtFor))
          else
            let endTok := current p1 in
            match Type_ endTok with
            | TokenEOF => Some (inl (NewUnmatchedBlockError (stmtPos stmt) StmtFor))
            | TokenText | TokenExpr =>
                Some (inl (NewUnmatchedBlockError (stmtPos stmt) StmtFor))
            | TokenStmt =>
                match parseStmt p1 endTok with
                | inl err => Some (inl err)
                | inr (endStmt, p2) =>
                    match Kind endStmt with
                    | StmtEndFor =>
                        Some (inr (ForBlock (stmtPos stmt) (VarName stmt)
                                            (Expr stmt) body, p2))
                    | _ => Some (inl (NewUnmatchedBlockError (stmtPos stmt) StmtFor))
                    end
                end
            end
      end
  end

with parseIfBlock (fuel : nat) (stmt : StmtNode) (p : Parser)
  {struct fuel} : presult Node :=
  match fuel with
  | O => None
  | S n =>
      match parseNodes n [StmtElif; StmtElse; StmtEndIf] [] p with
      | None => None
      | Some (inl err) => Some (inl err)
      | Some (inr (body, p1)) => ifChain n stmt body [] p1
      end
  end

with ifChain (fuel : nat) (stmt : StmtNode) (body : list Node)
  (elifs : list Branch) (p : Parser) {struct fuel} : presult Node :=
  match fuel with
  | O => None
  | S n =>
      if atEnd p then Some (inl (NewUnmatchedBlockError (stmtPos stmt) StmtIf))
      else
        let tok := current p in
        match Type_ tok with
        | TokenEOF => Some (inl (NewUnmatchedBlockError (stmtPos stmt) StmtIf))
        | TokenText | TokenExpr =>
            Some (inl (NewUnmatchedBlockError (stmtPos stmt) StmtIf))
        | TokenStmt =>
            match parseStmt p tok with
            | inl err => Some (inl err)
            | inr (nextStmt, p1) =>
                match Kind nextStmt with
                | StmtEndIf => Some (inr (ifBlock stmt body elifs [], p1))
                | StmtElif =>
                    match parseNodes n [StmtElif; StmtElse; StmtEndIf] [] p1 with
                    | None => None
                    | Some (inl err) => Some (inl err)
                    | Some (inr (elifBody, p2)) =>
                        ifChain n stmt body
                          (elifs ++ [mkBranch (Expr nextStmt) elifBody (stmtPos nextStmt)])
                          p2
                    end
                | StmtElse =>
                    match parseNodes n [StmtEndIf] [] p1 with
                    | None => None
                    | Some (inl err) => Some (inl err)
                    | Some (inr (elseBody, p2)) =>
                        if atEnd p2 then
                          Some (inl (NewUnmatchedBlockError (stmtPos stmt) StmtIf))
                        else
                          let endTok := current p2 in
                          match Type_ endTok with
                          | TokenEOF =>
                              Some (inl (NewUnmatchedBlockError (stmtPos stmt) StmtIf))
                          | _ =>
                              match parseStmt p2 endTok with
                              | inl err => Some (inl err)
                              | inr (endStmt, p3) =>
                                  match Kind endStmt with
                                  | StmtEndIf =>
                                      Some (inr (ifBlock stmt body elifs elseBody, p3))
                                  | _ =>
                                      Some (inl (NewUnmatchedBlockError
                                                   (stmtPos stmt) StmtIf))
                                  end
                              end
                          end
                    end
                | _ => Some (inl (NewUnmatchedBlockError (stmtPos stmt) StmtIf))
                end
            end
        end
  end.

(** Recursion budget that covers every token list of this length: each
    call consumes a token or is followed by one that does. *)
Definition parseFuel (toks : list Token) : nat := 2 * length toks + 1.

(** [Parse] parses the tokens into a Template AST. *)
Definition Parse (p : Parser) : option (Error + Template_) :=
  match parseNodes (parseFuel (tokens p)) [] [] p with
  | None => None
  | Some (inl err) => Some (inl err)
  | Some (inr (nodes, _)) => Some (inr (mkTemplate nodes (file p)))
  end.

(** *** Well-formed token sequences and parsing contexts

    The block composition rules of the template language, stated on
    token lists: they describe the inputs the properties of the parser
    quantify over. *)

(** The statement a STMT token parses to, if any. *)
Definition stmtOf (tok : Token) : option StmtNode :=
  match Type_ tok with
  | TokenStmt =>
      match parseStmt (mkParser [] EmptyString) tok with
      | inr (stmt, _) => Some stmt
      | inl _ => None
      end
  | _ => None
  end.

(** [tok] is a statement token that opens a block as [stmt] of kind [k]. *)
Definition opens (k : StmtKind) (tok : Token) (stmt : StmtNode) : Prop :=
  stmtOf tok = Some stmt /\ Kind stmt = k.

(** [tok] is a statement token of kind [k]. *)
Definition isStmt (k : StmtKind) (tok : Token) : Prop :=
  Type_ tok = TokenStmt /\ peekStmtKind (Value tok) = k.

(** [Balanced ts ns]: [ts] is a sequence of text, expressions and
    complete blocks, and [ns] are the nodes it stands for.  [Chain ts
    elifs els]: [ts] is what closes an [if] after its first body: [elif]
    branches, an optional [else] body, and [endif]. *)
Inductive Balanced : list Token -> list Node -> Prop :=
  | Bal_nil : Balanced [] []
  | Bal_text tok ts ns :
      Type_ tok = TokenText -> Balanced ts ns ->
      Balanced (tok :: ts) (TextNode (Pos tok) (Value tok) :: ns)
  | Bal_expr tok ts ns :
      Type_ tok = TokenExpr -> Balanced ts ns ->
      Balanced (tok :: ts) (ExprNode (Pos tok) (Value tok) :: ns)
  | Bal_for tok stmt body bns etok ts ns :
      opens StmtFor tok stmt -> Balanced body bns -> isStmt StmtEndFor etok ->
      Balanced ts ns ->
      Balanced (tok :: body ++ etok :: ts)
               (ForBlock (stmtPos stmt) (VarName stmt) (Expr stmt) bns :: ns)
  | Bal_if tok stmt body bns chain elifs els ts ns :
      opens StmtIf tok stmt -> Balanced body bns -> Chain chain elifs els ->
      Balanced ts ns ->
      Balanced (tok :: body ++ chain ++ ts)
               (IfBlock (stmtPos stmt) (Expr stmt) bns elifs els :: ns)
with Chain : list Token -> list Branch -> list Node -> Prop :=
  | Ch_endif tok :
      isStmt StmtEndIf tok -> Chain [tok] [] []
  | Ch_elif tok stmt body bns rest elifs els :
      opens StmtElif tok stmt -> Balanced body bns -> Chain rest elifs els ->
      Chain (tok :: body ++ rest)
            (mkBranch (Expr stmt) bns (stmtPos stmt) :: elifs) els
  | Ch_else tok body bns etok :
      isStmt StmtElse tok -> Balanced body bns -> isStmt StmtEndIf etok ->
      Chain (tok :: body ++ [etok]) [] bns.

(** The block the parser is inside of: none, the body of a [for], the
    first body of an [if], the body of an [elif], the body of an
    [else]; [stmt] is the statement that opened the block. *)
Inductive Frame : Type :=
  | FTop
  | FFor (stmt : StmtNode)
  | FIf (stmt : StmtNode)
  | FElif (stmt : StmtNode)
  | FElse (stmt : StmtNode).

(** The statements that end the body the parser is in. *)
Definition stopOf (fr : Frame) : list StmtKind :=
  match fr with
  | FTop => []
  | FFor _ => [StmtEndFor]
  | FIf _ | FElif _ => [StmtElif; StmtElse; StmtEndIf]
  | FElse _ => [StmtEndIf]
  end.

(** Complete [elif] branches, one after the other. *)
Inductive Elifs : list Token -> Prop :=
  | Elifs_nil : Elifs []
  | Elifs_cons tok stmt body ns rest :
      opens StmtElif tok stmt -> Balanced body ns -> Elifs rest ->
      Elifs (tok :: body ++ rest).

(** [InIf stmt part fr]: [part] is what has been read of the [if] block
    opened by [stmt], after its opening statement, and [fr] is where that
    leaves the parser: in the first body; after the first body and
    complete [elif] branches, in the body of one more [elif]; or, after
    these, in the body of the [else]. *)
Inductive InIf (stmt : StmtNode) : list Token -> Frame -> Prop :=
  | InIf_body body ns :
      Balanced body ns -> InIf stmt body (FIf stmt)
  | InIf_elif body ns elifs tok st items ins :
      Balanced body ns -> Elifs elifs -> opens StmtElif tok st ->
      Balanced items ins ->
      InIf stmt (body ++ elifs ++ tok :: items) (FElif stmt)
  | InIf_else body ns elifs tok items ins :
      Balanced body ns -> Elifs elifs -> isStmt StmtElse tok ->
      Balanced items ins ->
      InIf stmt (body ++ elifs ++ tok :: items) (FElse stmt).

(** [OpenCtx pre fr]: after the tokens [pre] the parser is inside the
    blocks opened and not yet closed in [pre], the innermost being [fr]:
    a balanced sequence leaves it at top level; a context followed by a
    [for] statement and a balanced sequence, in the body of that [for];
    a context followed by an [if] statement and a part of its block, in
    that [if]. *)
Inductive OpenCtx : list Token -> Frame -> Prop :=
  | Ctx_top items ns :
      Balanced items ns -> OpenCtx items FTop
  | Ctx_for pre fr tok stmt items ns :
      OpenCtx pre fr -> opens StmtFor tok stmt -> Balanced items ns ->
      OpenCtx (pre ++ tok :: items) (FFor stmt)
  | Ctx_if pre fr tok stmt part fr' :
      OpenCtx pre fr -> opens StmtIf tok stmt -> InIf stmt part fr' ->
      OpenCtx (pre ++ tok :: part) fr'.

(** The end of the input: no token left, or the EOF token. *)
Definition atEOF (tail : list Token) : Prop :=
  match tail with
  | [] => True
  | tok :: _ => Type_ tok = TokenEOF
  end.

(** A statement that closes or continues a block. *)
Definition isCloser (k : StmtKind) : bool :=
  match k with
  | StmtElif | StmtElse | StmtEndFor | StmtEndIf => true
  | StmtUnknown | StmtFor | StmtIf => false
  end.

(** *** Runs of the parsing functions

    What a call returns once its budget is large enough; the properties
    of the parser are proved on these. *)

Scheme Balanced_mut := Minimality for Balanced Sort Prop
  with Chain_mut := Minimality for Chain Sort Prop.
Combined Scheme Balanced_Chain_ind from Balanced_mut, Chain_mut.

(** What is left after a successful call is no longer than before. *)
Definition shrinks {A : Type} (p : Parser) (r : Error + (A * Parser)) : Prop :=
  match r with
  | inl _ => True
  | inr (_, p') => length (tokens p') <= length (tokens p)
  end.

Section RunsDefs.

Variable f : string.

(** A parser positioned on the tokens [ts]. *)
Definition at_ (ts : list Token) : Parser := mkParser ts f.

Definition RunsNodes (stopOn : list StmtKind) (nodes : list Node)
  (ts : list Token) (r : Error + (list Node * Parser)) : Prop :=
  exists n, parseNodes n stopOn nodes (at_ ts) = Some r.

Definition RunsFor (stmt : StmtNode) (ts : list Token)
  (r : Error + (Node * Parser)) : Prop :=
  exists n, parseForBlock n stmt (at_ ts) = Some r.

Definition RunsIf (stmt : StmtNode) (ts : list Token)
  (r : Error + (Node * Parser)) : Prop :=
  exists n, parseIfBlock n stmt (at_ ts) = Some r.

Definition RunsChain (stmt : StmtNode) (body : list Node) (elifs : list Branch)
  (ts : list Token) (r : Error + (Node * Parser)) : Prop :=
  exists n, ifChain n stmt body elifs (at_ ts) = Some r.

(** [parseNodes stopOn] fails with [err] on [X], whatever it has built. *)
Definition NodesFail (stopOn : list StmtKind) (X : list Token) (err : Error) : Prop :=
  forall nodes, RunsNodes stopOn nodes X (inl err).

End RunsDefs.

Definition chainStop : list StmtKind := [StmtElif; StmtElse; StmtEndIf].

(** [ts] starts with a statement that stops [parseNodes stopOn]. *)
Definition startsWithStop (stopOn : list StmtKind) (ts : list Token) : Prop :=
  exists tok rest k,
    ts = tok :: rest /\ isStmt k tok /\ containsKind stopOn k = true.

(** [err] is an error of the parser about a statement token of [ts]: an
    invalid statement, with the trimmed text of the token, or an
    unmatched block, with the kind of the token; in both cases at the
    position of the token. *)
Definition located (ts : list Token) (err : Error) : Prop :=
  exists tok,
    In tok ts /\ Type_ tok = TokenStmt /\
    (err = ParseError (Pos tok)
             ("invalid statement syntax: " +:+ TrimSpace (Value tok)) \/
     (err = UnmatchedBlockError (Pos tok) (peekStmtKind (Value tok)) /\
      peekStmtKind (Value tok) <> StmtUnknown)).

(** [ParseString]: lex, then parse. *)
Definition ParseString (input f : string) : option (Error + Template_) :=
  match Tokenize input f with
  | inl err => Some (inl err)
  | inr toks => Parse (NewParser toks f)
  end.

End Template.

(** ** The expression runtime ([internal/starlark], package [starctx]) *)

Module Starctx.

Import Template.

(** The embedded Starlark interpreter (go.starlark.net), as the engine
    uses it: values, the evaluation of an expression in an environment,
    iteration, truth, type names and the text a value is interpolated as
    (a string verbatim, anything else through its [String()]). *)
Class Runtime : Type := {
  Value : Type;
  starlarkEval : string -> gmap string Value -> string + Value;
  Iterate : Value -> option (list Value);
  Truth : Value -> bool;
  TypeName : Value -> string;
  Stringify : Value -> string
}.

(** Names of the expression language: an identifier that is not a
    keyword or a reserved word of Starlark. *)
Definition isIdentStart (c : ascii) : bool :=
  inRange 65 90 c || inRange 97 122 c || isByte 95 c.

Definition isIdentPart (c : ascii) : bool :=
  isIdentStart c || inRange 48 57 c.

Definition starlarkKeywords : list string :=
  ["and"; "break"; "continue"; "def"; "elif"; "else"; "for"; "if"; "in";
   "lambda"; "load"; "not"; "or"; "pass"; "return"; "while";
   "as"; "assert"; "async"; "await"; "class"; "del"; "except"; "finally";
   "from"; "global"; "import"; "is"; "nonlocal"; "raise"; "try"; "with";
   "yield"].

Definition isIdentifier (s : string) : bool :=
  match B s with
  | [] => false
  | c :: l => isIdentStart c && forallb isIdentPart l
  end && negb (existsb (String.eqb s) starlarkKeywords).

(** What the engine relies on from the interpreter: a name evaluates to
    what the environment binds it to, and the empty expression is
    rejected (a syntax error). *)
Class RuntimeLaws (R : Runtime) : Prop := {
  eval_name : forall (name : string) (env : gmap string Value) (v : Value),
    isIdentifier name = true -> env !! name = Some v ->
    starlarkEval name env = inr v;
  eval_empty : forall env : gmap string Value,
    exists msg, starlarkEval "" env = inl msg
}.

Section Ctx.
Context {R : Runtime}.

(** The execution context: the globals shared by all rendering of one
    model. *)
Record ExecutionContext : Type := mkContext {
  globals : gmap string Value
}.

Definition Globals (ctx : ExecutionContext) : gmap string Value := globals ctx.

(** Modelled from the spec: [ExecutionContext.EvalExprWithLocals]
    (section 4.4 and 4.8; context.go is not among the sources).  The
    expression is evaluated with the locals merged atop the globals
    (locals shadow globals); an evaluation error carries
    [{file, line, expression, message}]. *)
Definition EvalExprWithLocals (ctx : ExecutionContext) (expr f : string)
  (line : nat) (locals : gmap string Value) : EvalError + Value :=
  match starlarkEval expr (locals ∪ globals ctx) with
  | inl msg => inl (mkEvalError f line expr msg)
  | inr v => inr v
  end.

(** Modelled from the spec: [ExecutionContext.EvalExprStringWithLocals],
    the stringified expression mode of section 4.4: evaluate, then
    stringify. *)
Definition EvalExprStringWithLocals (ctx : ExecutionContext) (expr f : string)
  (line : nat) (locals : gmap string Value) : EvalError + string :=
  match EvalExprWithLocals ctx expr f line locals with
  | inl err => inl err
  | inr v => inr (Stringify v)
  end.

(** The globals the engine injects and no macro may take. *)
Definition builtinGlobals : list string := ["config"; "env"; "target"; "this"].

Definition isBuiltinGlobal (name : string) : bool :=
  existsb (String.eqb name) builtinGlobals.

Record ContextError : Type := mkContextError {
  CEName : string;
  CEMessage : string
}.

(** The first name of [names] that is an engine global, if any. *)
Definition firstBuiltin (names : list string) : option string :=
  find isBuiltinGlobal names.

(** Modelled from the spec: [ExecutionContext.AddMacros] (section 3,
    execution context; context.go is not among the sources, its test
    TestExecutionContext_AddMacros_ConflictWithBuiltin is).  A macro dict
    that names an engine global is refused and the context is left as it
    was; otherwise every namespace becomes a global, an existing global
    shadowing a macro of the same name (section 4.8). *)
Definition AddMacros (ctx : ExecutionContext) (macros : gmap string Value) :
  ExecutionContext * option ContextError :=
  match firstBuiltin (map fst (map_to_list macros)) with
  | Some name =>
      (ctx, Some (mkContextError name "macro name conflicts with builtin global"))
  | None => (mkContext (globals ctx ∪ macros), None)
  end.

End Ctx.

Arguments ExecutionContext R : clear implicits.

(** *** The pool of evaluator threads *)

(** A [starlark.Thread], as far as the pool is concerned. *)
Record Thread : Type := mkThread {
  ThreadName : string
}.

Record ThreadPool : Type := mkThreadPool {
  pool : list Thread;
  maxSize : Z
}.

Definition defaultPoolSize : Z := 16.

(** Modelled from the spec: [NewThreadPool] (section 4.4: the pool is
    bounded, default 16; parallel.go is not among the sources, its tests
    are).  A size that is not positive selects the default. *)
Definition NewThreadPool (size : Z) : ThreadPool :=
  mkThreadPool [] (if (size <=? 0)%Z then defaultPoolSize else size).

(** Modelled from the spec: [ThreadPool.Size], the number of threads held. *)
Definition Size (tp : ThreadPool) : Z := Z.of_nat (length (pool tp)).

(** Modelled from the spec: [ThreadPool.Get] (section 5: non-blocking,
    creates a fresh thread if the pool is empty); the thread handed out
    carries the requested name. *)
Definition Get (tp : ThreadPool) (name : string) : Thread * ThreadPool :=
  match pool tp with
  | [] => (mkThread name, tp)
  | _ :: threads => (mkThread name, mkThreadPool threads (maxSize tp))
  end.

(** Modelled from the spec: [ThreadPool.Put] (sections 4.4 and 9: a
    bounded free list that discards on return when full). *)
Definition Put (tp : ThreadPool) (thread : Thread) : ThreadPool :=
  if (Size tp <? maxSize tp)%Z
  then mkThreadPool (thread :: pool tp) (maxSize tp)
  else tp.

(** The operations on a pool, as the callers issue them; the pool is
    internally synchronized, so they take effect one at a time. *)
Inductive PoolOp : Type :=
  | OpGet (name : string)
  | OpPut (thread : Thread).

Definition applyOp (tp : ThreadPool) (op : PoolOp) : ThreadPool :=
  match op with
  | OpGet name => snd (Get tp name)
  | OpPut thread => Put tp thread
  end.

Definition applyOps (tp : ThreadPool) (ops : list PoolOp) : ThreadPool :=
  fold_left applyOp ops tp.

End Starctx.

(** ** Renderer (renderer.go) *)

Module Render.

Import Template Starctx.

Section Renderer.
Context {R : Runtime}.

(** [Renderer]: the context and the local variables (loop variables);
    a nil [locals] is the empty map. *)
Record Renderer : Type := mkRenderer {
  ctx : ExecutionContext R;
  locals : gmap string Value
}.

Definition NewRenderer (c : ExecutionContext R) : Renderer :=
  mkRenderer c ∅.

(** [withLocal] creates a new locals dict with an additional variable. *)
Definition withLocal (r : Renderer) (name : string) (value : Value) :
  gmap string Value :=
  <[name := value]> (locals r).

(** The loop of [renderNodes] over a function that renders one node; the
    buffer ([*strings.Builder]) is threaded through. *)
Definition renderList (f : Node -> string -> Error + string) :
  list Node -> string -> Error + string :=
  fix go (nodes : list Node) (buf : string) : Error + string :=
    match nodes with
    | [] => inr buf
    | node :: nodes' =>
        match f node buf with
        | inl err => inl err
        | inr buf' => go nodes' buf'
        end
    end.

(** [renderNode], with [renderForBlock] and [renderIfBlock] in its
    [ForBlock] and [IfBlock] cases. *)
Fixpoint renderNode (r : Renderer) (f : string) (node : Node) (buf : string)
  {struct node} : Error + string :=
  match node with
  | TextNode _ text => inr (buf +:+ text)
  | ExprNode pos expr =>
      match EvalExprStringWithLocals (ctx r) expr f (Line pos) (locals r) with
      | inl err => inl (WrapRenderError pos "expression evaluation failed" err)
      | inr result => inr (buf +:+ result)
      end
  | ForBlock pos varName iterExpr body =>
      match EvalExprWithLocals (ctx r) iterExpr f (Line pos) (locals r) with
      | inl err => inl (WrapRenderError pos "for loop iterator evaluation failed" err)
      | inr iterVal =>
          match Iterate iterVal with
          | None =>
              inl (NewRenderErrorf pos
                     ("for loop: cannot iterate over " +:+ TypeName iterVal))
          | Some elems =>
              (fix iter (elems : list Value) (buf : string) : Error + string :=
                 match elems with
                 | [] => inr buf
                 | elem :: elems' =>
                     let loopRenderer :=
                       mkRenderer (ctx r) (withLocal r varName elem) in
                     match renderList (renderNode loopRenderer f) body buf with
                     | inl err => inl err
                     | inr buf' => iter elems' buf'
                     end
                 end) elems buf
          end
      end
  | IfBlock pos cond body elseIfs els =>
      match EvalExprWithLocals (ctx r) cond f (Line pos) (locals r) with
      | inl err => inl (WrapRenderError pos "if condition evaluation failed" err)
      | inr condVal =>
          if Truth condVal then renderList (renderNode r f) body buf
          else
            (fix elifs (bs : list (BranchOf Node)) : Error + string :=
               match bs with
               | [] =>
                   match els with
                   | [] => inr buf
                   | _ :: _ => renderList (renderNode r f) els buf
                   end
               | mkBranch c b bpos :: bs' =>
                   match EvalExprWithLocals (ctx r) c f (Line bpos) (locals r) with
                   | inl err =>
                       inl (WrapRenderError bpos "elif condition evaluation failed" err)
                   | inr condVal =>
                       if Truth condVal then renderList (renderNode r f) b buf
                       else elifs bs'
                   end
               end) elseIfs
      end
  end.

(** [renderNodes] renders a slice of nodes into the buffer. *)
Definition renderNodes (r : Renderer) (nodes : list Node) (buf f : string) :
  Error + string :=
  renderList (renderNode r f) nodes buf.

(** The iteration of [renderForBlock] over the elements. *)
Fixpoint renderIter (r : Renderer) (f varName : string) (body : list Node)
  (elems : list Value) (buf : string) : Error + string :=
  match elems with
  | [] => inr buf
  | elem :: elems' =>
      match renderNodes (mkRenderer (ctx r) (withLocal r varName elem)) body buf f with
      | inl err => inl err
      | inr buf' => renderIter r f varName body elems' buf'
      end
  end.

(** What a rendering function does to a buffer, read on the empty one. *)
Definition onto (buf : string) (res : Error + string) : Error + string :=
  match res with
  | inl err => inl err
  | inr s => inr (buf +:+ s)
  end.

(** The truth of the condition of a branch, as [renderIfBlock] finds it:
    the condition is evaluated with the locals of the renderer, at the
    line of the branch. *)
Definition branchTruth (r : Renderer) (f : string) (br : Branch) : EvalError + bool :=
  match EvalExprWithLocals (ctx r) (Condition br) f (Line (branchPos br)) (locals r) with
  | inl err => inl err
  | inr condVal => inr (Truth condVal)
  end.

(** [Reaches f r nodes pos]: rendering [nodes] with the renderer [r]
    comes to an empty expression, the one at [pos]: it is the first
    node; or the first node renders and the expression is reached in the
    nodes after it; or the first node is a [for] block whose iterator
    evaluates to a sequence, the body renders for the elements up to one,
    and the expression is reached in the body for that element; or the
    first node is an [if] block, and the expression is reached in the
    body of the branch taken: the first one whose condition is true, the
    conditions before it being false, or the [else] body when all
    conditions are false. *)
Inductive Reaches (f : string) : Renderer -> list Node -> Position -> Prop :=
  | Reaches_here r pos rest :
      Reaches f r (ExprNode pos EmptyString :: rest) pos
  | Reaches_after r node rest pos out :
      renderNode r f node EmptyString = inr out ->
      Reaches f r rest pos ->
      Reaches f r (node :: rest) pos
  | Reaches_for r bpos v it body rest iterVal es1 e es2 outs pos :
      EvalExprWithLocals (ctx r) it f (Line bpos) (locals r) = inr iterVal ->
      Iterate iterVal = Some (es1 ++ e :: es2) ->
      Forall2 (fun elem out =>
                 renderNodes (mkRenderer (ctx r) (<[v := elem]> (locals r)))
                             body EmptyString f = inr out) es1 outs ->
      Reaches f (mkRenderer (ctx r) (<[v := e]> (locals r))) body pos ->
      Reaches f r (ForBlock bpos v it body :: rest) pos
  | Reaches_branch r bpos c body elifs els rest bs1 br bs2 pos :
      mkBranch c body bpos :: elifs = bs1 ++ br :: bs2 ->
      Forall (fun b => branchTruth r f b = inr false) bs1 ->
      branchTruth r f br = inr true ->
      Reaches f r (Body br) pos ->
      Reaches f r (IfBlock bpos c body elifs els :: rest) pos
  | Reaches_else r bpos c body elifs els rest pos :
      Forall (fun b => branchTruth r f b = inr false) (mkBranch c body bpos :: elifs) ->
      Reaches f r els pos ->
      Reaches f r (IfBlock bpos c body elifs els :: rest) pos.

(** [Render] executes the template and returns the rendered SQL. *)
Definition Render (r : Renderer) (tmpl : Template_) : Error + string :=
  renderNodes r (Nodes tmpl) "" (TFile tmpl).

(** [RenderString] parses a template string and renders it. *)
Definition RenderString (input f : string) (c : ExecutionContext R) :
  option (Error + string) :=
  match ParseString input f with
  | None => None
  | Some (inl err) => Some (inl err)
  | Some (inr tmpl) => Some (Render (NewRenderer c) tmpl)
  end.

End Renderer.

End Render.

(** ** Macros ([internal/macro]): registry.go and the loader *)

Module Macro.

Import Starctx.

Section Macro.
Context {R : Runtime}.

(** [LoadedModule]: a macro file after execution. *)
Record LoadedModule : Type := mkModule {
  Namespace : string;
  Path : string;
  Exports : gmap string Value
}.

(** [ReservedNamespaces] are builtin globals that cannot be overridden
    by macros. *)
Definition ReservedNamespaces : list string := ["config"; "env"; "target"; "this"].

(** [Registry] stores loaded macro modules. *)
Record Registry : Type := mkRegistry {
  modules : gmap string LoadedModule
}.

Definition NewRegistry : Registry := mkRegistry ∅.

Record RegistryError : Type := mkRegistryError {
  RENamespace : string;
  REMessage : string
}.

(** The loop over [ReservedNamespaces] in [Register]: the reserved name
    the namespace collides with, if any. *)
Fixpoint reservedCollision (reserved : list string) (ns : string) : option string :=
  match reserved with
  | [] => None
  | r :: reserved' =>
      if String.eqb ns r then Some r else reservedCollision reserved' ns
  end.

(** [Register] adds a loaded module to the registry; it returns an error
    if the namespace is reserved or already registered, and then leaves
    the registry as it was. *)
Definition Register (r : Registry) (module : LoadedModule) :
  Registry * option RegistryError :=
  match reservedCollision ReservedNamespaces (Namespace module) with
  | Some reserved =>
      (r, Some (mkRegistryError (Namespace module)
                  ("cannot use reserved namespace '" +:+ reserved +:+ "'")))
  | None =>
      match modules r !! Namespace module with
      | Some existing =>
          (r, Some (mkRegistryError (Namespace module)
                      ("namespace already registered by " +:+ Path existing)))
      | None =>
          (mkRegistry (<[Namespace module := module]> (modules r)), None)
      end
  end.

(** [RegisterAll] registers multiple modules, stopping at the first error. *)
Fixpoint RegisterAll (r : Registry) (ms : list LoadedModule) :
  Registry * option RegistryError :=
  match ms with
  | [] => (r, None)
  | module :: ms' =>
      match Register r module with
      | (r', Some err) => (r', Some err)
      | (r', None) => RegisterAll r' ms'
      end
  end.

(** No reserved namespace is a key of the registry. *)
Definition noReserved (r : Registry) : Prop :=
  forall ns, In ns ReservedNamespaces -> modules r !! ns = None.

(** [Get] returns the module for a given namespace, or nil. *)
Definition Get (r : Registry) (namespace : string) : option LoadedModule :=
  modules r !! namespace.

(** [Has] returns true if a namespace is registered. *)
Definition Has (r : Registry) (namespace : string) : bool :=
  match modules r !! namespace with Some _ => true | None => false end.

(** [Namespaces] returns a sorted list of all registered namespace
    names: the keys, collected in the order the map yields them, then
    [sort.Strings] (byte-wise lexicographic order). *)
Definition Namespaces (r : Registry) : list string :=
  merge_sort String.le (map fst (map_to_list (modules r))).

(** [Len] returns the number of registered modules. *)
Definition Len (r : Registry) : nat := size (modules r).

(** [starlarkModule] wraps a module's exports as a value with attribute
    access. *)
Record starlarkModule : Type := mkStarlarkModule {
  name : string;
  exports : gmap string Value
}.

(** [Attr] returns an attribute (exported value) by name, or a
    no-such-attribute error. *)
Definition Attr (m : starlarkModule) (attr : string) : string + Value :=
  match exports m !! attr with
  | Some v => inr v
  | None => inl ("module '" +:+ name m +:+ "' has no attribute '" +:+ attr +:+ "'")
  end.

(** [AttrNames] returns a sorted list of attribute names. *)
Definition AttrNames (m : starlarkModule) : list string :=
  merge_sort String.le (map fst (map_to_list (exports m))).

(** [starlarkModule] implements [starlark.Value]: [moduleValue] is the
    module seen as a value of the runtime. *)
Context (moduleValue : starlarkModule -> Value).

(** [ToStarlarkDict] builds a dict containing all macro namespaces. *)
Definition ToStarlarkDict (r : Registry) : gmap string Value :=
  map_imap (fun namespace module =>
              Some (moduleValue (mkStarlarkModule namespace (Exports module))))
           (modules r).

(** *** The loader *)

(** The part of the file system the loader reads: what a path names. *)
Record DirEntry : Type := mkEntry {
  EntryName : string;
  EntryIsDir : bool;
  EntryContent : string
}.

Inductive FSNode : Type :=
  | FSFile (content : string)
  | FSDir (entries : list DirEntry).

Definition FS : Type := string -> option FSNode.

Record Loader : Type := mkLoader {
  macrosDir : string
}.

Definition NewLoader (dir : string) : Loader := mkLoader dir.

Record LoadError : Type := mkLoadError {
  LEFile : string;
  LEMessage : string
}.

(** [name] without its [suffix], when it ends with it. *)
Definition trimSuffix (suffix name : string) : option string :=
  let n := B name in
  let k := length n - length (B suffix) in
  if bytes_eqb (drop k n) (B suffix) && Nat.leb (length (B suffix)) (length n)
  then Some (S_ (take k n)) else None.

Definition isStarFile (e : DirEntry) : bool :=
  negb (EntryIsDir e) &&
  match trimSuffix ".star" (EntryName e) with Some _ => true | None => false end.

(** Modelled from the spec: [validateNamespace] (section 3: the
    namespace must match [[A-Za-z_][A-Za-z0-9_]*]). *)
Definition validateNamespace (ns : string) : bool :=
  match B ns with
  | [] => false
  | c :: l => isIdentStart c && forallb isIdentPart l
  end.

Definition isPrivate (binding : string) : bool :=
  match B binding with
  | c :: _ => isByte 95 c
  | [] => false
  end.

(** The interpreter run on one macro file in a fresh frame: the error
    message or the frame's final bindings. *)
Context (execFile : string -> string -> string + gmap string Value).

(** Modelled from the spec: the per-file step of [Loader.Load] (section
    4.5, step 3): namespace = filename stem, validated; the file is
    executed; the bindings whose names do not start with [_] are the
    exports. *)
Definition loadFile (dir : string) (e : DirEntry) : LoadError + LoadedModule :=
  let path := dir +:+ "/" +:+ EntryName e in
  match trimSuffix ".star" (EntryName e) with
  | None => inl (mkLoadError path "not a macro file")
  | Some ns =>
      if validateNamespace ns then
        match execFile path (EntryContent e) with
        | inl msg => inl (mkLoadError path msg)
        | inr bindings =>
            inr (mkModule ns path
                   (filter (fun kv => isPrivate (fst kv) = false) bindings))
        end
      else inl (mkLoadError path "invalid namespace")
  end.

Fixpoint loadFiles (dir : string) (es : list DirEntry) :
  LoadError + list LoadedModule :=
  match es with
  | [] => inr []
  | e :: es' =>
      match loadFile dir e with
      | inl err => inl err
      | inr m =>
          match loadFiles dir es' with
          | inl err => inl err
          | inr ms => inr (m :: ms)
          end
      end
  end.

Definition entryLe (a b : DirEntry) : Prop := String.le (EntryName a) (EntryName b).

(** Modelled from the spec: [Loader.Load] (section 4.5, steps 1 to 3;
    loader.go is not among the sources, its tests are).  A directory that
    does not exist gives no module and no error; a path that is not a
    directory is an error; otherwise the [*.star] files of the top level
    are loaded in lexicographic order. *)
Definition Load (fs : FS) (l : Loader) : LoadError + list LoadedModule :=
  match fs (macrosDir l) with
  | None => inr []
  | Some (FSFile _) => inl (mkLoadError (macrosDir l) "not a directory")
  | Some (FSDir entries) =>
      loadFiles (macrosDir l) (merge_sort entryLe (List.filter isStarFile entries))
  end.

(** [LoadAndRegister] loads macros from a directory and registers them
    in a new registry. *)
Definition LoadAndRegister (fs : FS) (dir : string) :
  (LoadError + RegistryError) + Registry :=
  let loader := NewLoader dir in
  match Load fs loader with
  | inl err => inl (inl err)
  | inr ms =>
      let registry := NewRegistry in
      match RegisterAll registry ms with
      | (_, Some err) => inl (inr err)
      | (registry', None) => inr registry'
      end
  end.

End Macro.

End Macro.

(** ** Column lineage ([internal/lineage]) *)

Module Lineage.






















End Lineage.

(** ** A runtime of names

    An instance of the interpreter interface that covers the fragment
    the statements below are instantiated at: an expression that is a
    name evaluates to its binding, a decimal literal to its integer;
    anything else is rejected. *)

Module Sample.

Import Template Starctx.

Inductive SValue : Type :=
  | SNone
  | SBool (b : bool)
  | SInt (n : Z)
  | SString (s : string)
  | SList (items : list SValue).

Definition quote : string := String (ascii_of_nat 34) EmptyString.

Fixpoint joinWith (sep : string) (l : list string) : string :=
  match l with
  | [] => EmptyString
  | [x] => x
  | x :: l' => x +:+ sep +:+ joinWith sep l'
  end.

(** The canonical form of a value (Starlark's [repr]). *)
Fixpoint repr (v : SValue) : string :=
  match v with
  | SNone => "None"
  | SBool true => "True"
  | SBool false => "False"
  | SInt n => pretty n
  | SString s => quote +:+ s +:+ quote
  | SList items => "[" +:+ joinWith ", " (map repr items) +:+ "]"
  end.

(** Stringification (section 4.4): a string verbatim, anything else in
    its canonical form. *)
Definition stringify (v : SValue) : string :=
  match v with
  | SString s => s
  | _ => repr v
  end.

(** A decimal integer literal. *)
Definition isDigit (c : ascii) : bool := inRange 48 57 c.

Definition isIntLiteral (expr : string) : bool :=
  match B expr with
  | [] => false
  | c :: l => forallb isDigit (c :: l)
  end.

Definition intOfDigits (l : bytes) : Z :=
  fold_left (fun acc c => (10 * acc + Z.of_nat (code c - 48))%Z) l 0%Z.

Definition evalName (expr : string) (env : gmap string SValue) : string + SValue :=
  if isIdentifier expr then
    match env !! expr with
    | Some v => inr v
    | None => inl ("undefined: " +:+ expr)
    end
  else if isIntLiteral expr then inr (SInt (intOfDigits (B expr)))
  else inl "syntax error".

Definition iterate (v : SValue) : option (list SValue) :=
  match v with
  | SList items => Some items
  | _ => None
  end.

Definition truth (v : SValue) : bool :=
  match v with
  | SNone => false
  | SBool b => b
  | SInt n => negb (n =? 0)%Z
  | SString s => negb (String.eqb s EmptyString)
  | SList items => match items with [] => false | _ :: _ => true end
  end.

Definition typeName (v : SValue) : string :=
  match v with
  | SNone => "NoneType"
  | SBool _ => "bool"
  | SInt _ => "int"
  | SString _ => "string"
  | SList _ => "list"
  end.

#[export] Instance runtime : Runtime := {|
  Value := SValue;
  starlarkEval := evalName;
  Iterate := iterate;
  Truth := truth;
  TypeName := typeName;
  Stringify := stringify
|}.

(** A project without a [macros] directory, and one whose [macros]
    directory holds a README and a sub-directory only. *)
Definition sampleFS : Macro.FS :=
  fun path =>
    if String.eqb path "project/macros" then
      Some (Macro.FSDir [Macro.mkEntry "README.md" false "notes";
                         Macro.mkEntry "old.star" true EmptyString])
    else None.

(** The tokens of TestParser_UnmatchedFor: a [for] statement, text and
    an expression, then the end of the input. *)
Definition unmatchedForTokens : list Token :=
  [mkToken TokenStmt "for x in items:" (mkPos "test.sql" 1 1);
   mkToken TokenText "body" (mkPos "test.sql" 1 22);
   mkToken TokenExpr "x" (mkPos "test.sql" 2 1);
   mkToken TokenEOF EmptyString (mkPos "test.sql" 2 8)].

End Sample.

(** * Properties *)

Import Template.

(** ** The statement classifier and the statement parser *)

Section StmtAgreement.

Import Regex.

Lemma MatchString_FindStringSubmatch (r : regex) (s : string) :
  MatchString r s = match FindStringSubmatch r s with Some _ => true | None => false end.
Proof.
  unfold MatchString, FindStringSubmatch.
  destruct (findFrom r 0 (B s)); reflexivity.
Qed.

(** What [parseStmt] returns, by the kind [peekStmtKind] computes. *)
Lemma parseStmt_by_kind (p : Parser) (tok : Token) :
  match peekStmtKind (Value tok) with
  | StmtUnknown =>
      parseStmt p tok =
      inl (ParseError (Pos tok)
             ("invalid statement syntax: " +:+ TrimSpace (Value tok)))
  | k =>
      exists var expr,
        parseStmt p tok = inr (mkStmt (Pos tok) k var expr, advance p)
  end.
Proof.
  unfold peekStmtKind, parseStmt.
  rewrite !MatchString_FindStringSubmatch.
  destruct (String.eqb (TrimSpace (Value tok)) "endfor"); [eauto|].
  destruct (String.eqb (TrimSpace (Value tok)) "endif"); [eauto|].
  destruct (String.eqb (TrimSpace (Value tok)) "else" ||
            String.eqb (TrimSpace (Value tok)) "else:"); [eauto|].
  destruct (FindStringSubmatch forPattern (TrimSpace (Value tok))); [eauto|].
  destruct (FindStringSubmatch ifPattern (TrimSpace (Value tok))); [eauto|].
  destruct (FindStringSubmatch elifPattern (TrimSpace (Value tok))); [eauto|].
  reflexivity.
Qed.

End StmtAgreement.

(** C10.  For every statement token, [parseStmt] agrees with the kind
    [peekStmtKind] computes from the token text: when that kind is not
    [StmtUnknown], [parseStmt] succeeds with a [StmtNode] of exactly that
    kind (and moves the cursor by one token); and [parseStmt] returns a
    parse error exactly when the kind is [StmtUnknown]. *)
Theorem peekStmtKind_agrees_with_parseStmt :
  forall (p : Parser) (tok : Token),
    match parseStmt p tok with
    | inr (stmt, p') =>
        Kind stmt = peekStmtKind (Value tok) /\
        peekStmtKind (Value tok) <> StmtUnknown /\
        p' = advance p
    | inl err =>
        peekStmtKind (Value tok) = StmtUnknown /\
        exists msg, err = ParseError (Pos tok) msg
    end.
Proof.
  intros p tok.
  pose proof (parseStmt_by_kind p tok) as H.
  destruct (peekStmtKind (Value tok)) eqn:Hk;
    try (destruct H as (var & expr & ->); cbn; repeat split; congruence).
  rewrite H. split; [reflexivity | eauto].
Qed.

(** ** The pool of evaluator threads *)

Section Pool.

Import Starctx.

Local Open Scope Z_scope.

(** The bound a pool was built with is positive. *)
Lemma NewThreadPool_bound (size : Z) :
  0 < maxSize (NewThreadPool size) /\
  maxSize (NewThreadPool size) = (if size <=? 0 then 16 else size).
Proof.
  unfold NewThreadPool, defaultPoolSize; cbn. destruct (Z.leb_spec size 0); lia.
Qed.

Lemma applyOp_maxSize (tp : ThreadPool) (op : PoolOp) :
  maxSize (applyOp tp op) = maxSize tp.
Proof.
  destruct op as [name | thread]; cbn.
  - unfold Get. destruct (pool tp); reflexivity.
  - unfold Put. destruct (Size tp <? maxSize tp); reflexivity.
Qed.

(** One operation keeps the number of threads held within the bound. *)
Lemma applyOp_bounded (tp : ThreadPool) (op : PoolOp) :
  0 <= maxSize tp -> Size tp <= maxSize tp ->
  Size (applyOp tp op) <= maxSize tp.
Proof.
  intros Hpos Hle. destruct op as [name | thread]; cbn.
  - unfold Get. destruct (pool tp) as [| t threads] eqn:Hp; cbn; [exact Hle|].
    unfold Size in *. rewrite Hp in Hle. cbn [length pool] in *. lia.
  - unfold Put. destruct (Z.ltb_spec (Size tp) (maxSize tp)) as [Hlt | Hge].
    + unfold Size in *. cbn [length pool]. lia.
    + exact Hle.
Qed.

Lemma applyOps_bounded (ops : list PoolOp) (tp : ThreadPool) :
  0 <= maxSize tp -> Size tp <= maxSize tp ->
  Size (applyOps tp ops) <= maxSize tp /\
  maxSize (applyOps tp ops) = maxSize tp.
Proof.
  revert tp. induction ops as [| op ops IH]; intros tp Hpos Hle; cbn.
  - split; [exact Hle | reflexivity].
  - pose proof (applyOp_maxSize tp op) as Hm.
    pose proof (applyOp_bounded tp op Hpos Hle) as Hb.
    destruct (IH (applyOp tp op)) as [H1 H2]; [lia | lia |].
    unfold applyOps in *. split; [lia | congruence].
Qed.

(** [Put] on a pool that holds as many threads as its bound allows
    leaves the pool as it is: the thread is dropped. *)
Lemma Put_full_discards (tp : ThreadPool) (thread : Thread) :
  maxSize tp <= Size tp -> Put tp thread = tp.
Proof.
  intros Hfull. unfold Put.
  destruct (Z.ltb_spec (Size tp) (maxSize tp)); [lia | reflexivity].
Qed.

(** C8.  After any sequence of [Get] and [Put] on a pool built by
    [NewThreadPool size], the number of threads held ([Size]) does not
    exceed the pool's bound; [Put] on a full pool leaves the pool
    unchanged (the returned thread is discarded); and the bound of a pool
    built with size 0 is the default, 16. *)
Theorem thread_pool_bounded :
  forall (size : Z) (ops : list PoolOp) (thread : Thread),
    let tp := applyOps (NewThreadPool size) ops in
    Size tp <= maxSize (NewThreadPool size) /\
    maxSize tp = maxSize (NewThreadPool size) /\
    (if maxSize tp <=? Size tp then Put tp thread = tp
     else Size (Put tp thread) = Size tp + 1) /\
    maxSize (NewThreadPool 0) = 16.
Proof.
  intros size ops thread tp.
  destruct (NewThreadPool_bound size) as [Hpos _].
  destruct (applyOps_bounded ops (NewThreadPool size)) as [Hle Hmax];
    [lia | change (Size (NewThreadPool size)) with 0; lia |].
  fold tp in Hle, Hmax.
  split; [exact Hle|]. split; [exact Hmax|]. split; [| reflexivity].
  destruct (Z.leb_spec (maxSize tp) (Size tp)) as [Hfull | Hroom].
  - apply Put_full_discards; exact Hfull.
  - unfold Put. destruct (Z.ltb_spec (Size tp) (maxSize tp)); [| lia].
    unfold Size; cbn [pool length]. lia.
Qed.

End Pool.

(** ** Column lineage *)

Section LineageFacts.

Import Lineage.








End LineageFacts.

(** ** The macro registry and the engine's globals *)

Section RegistryFacts.

Import Starctx Macro.

Context {R : Runtime}.
Context (moduleValue : starlarkModule -> Value).

Lemma reservedCollision_In (reserved : list string) (ns : string) :
  In ns reserved -> reservedCollision reserved ns = Some ns.
Proof.
  induction reserved as [| r reserved IH]; intros Hin; [destruct Hin|].
  cbn. destruct (String.eqb_spec ns r) as [-> | Hne]; [reflexivity|].
  destruct Hin as [-> | Hin]; [congruence | auto].
Qed.

Lemma reservedCollision_None (reserved : list string) (ns : string) :
  reservedCollision reserved ns = None -> ~ In ns reserved.
Proof.
  induction reserved as [| r reserved IH]; cbn; [tauto|].
  destruct (String.eqb_spec ns r) as [-> | Hne]; [discriminate|].
  intros H [Heq | Hin]; [congruence | exact (IH H Hin)].
Qed.

(** [Register] refuses a reserved namespace and leaves the registry as
    it was. *)
Lemma Register_reserved (r : Registry) (m : LoadedModule) :
  In (Namespace m) ReservedNamespaces ->
  Register r m =
  (r, Some (mkRegistryError (Namespace m)
              ("cannot use reserved namespace '" +:+ Namespace m +:+ "'"))).
Proof.
  intros Hin. unfold Register.
  rewrite (reservedCollision_In _ _ Hin). reflexivity.
Qed.

Lemma Register_noReserved (r : Registry) (m : LoadedModule) :
  noReserved r -> noReserved (fst (Register r m)).
Proof.
  intros Hr. unfold Register.
  destruct (reservedCollision ReservedNamespaces (Namespace m)) eqn:Hc; [exact Hr|].
  destruct (modules r !! Namespace m); [exact Hr|].
  unfold noReserved; cbn [fst modules]. intros ns Hns.
  rewrite lookup_insert_ne; [exact (Hr ns Hns)|].
  intros <-. exact (reservedCollision_None _ _ Hc Hns).
Qed.

Lemma RegisterAll_noReserved (ms : list LoadedModule) (r : Registry) :
  noReserved r -> noReserved (fst (RegisterAll r ms)).
Proof.
  revert r. induction ms as [| m ms IH]; intros r Hr; cbn; [exact Hr|].
  pose proof (Register_noReserved r m Hr) as H1.
  destruct (Register r m) as [r' [err|]]; [exact H1 | apply IH; exact H1].
Qed.

Lemma NewRegistry_noReserved : noReserved NewRegistry.
Proof. intros ns _. apply lookup_empty. Qed.

Lemma ToStarlarkDict_lookup (r : Registry) (ns : string) :
  ToStarlarkDict moduleValue r !! ns =
  (fun m => moduleValue (mkStarlarkModule ns (Exports m))) <$> (modules r !! ns).
Proof.
  unfold ToStarlarkDict. rewrite map_lookup_imap.
  destruct (modules r !! ns); reflexivity.
Qed.

Lemma isBuiltinGlobal_In (ns : string) :
  isBuiltinGlobal ns = true <-> In ns ReservedNamespaces.
Proof.
  unfold isBuiltinGlobal. rewrite existsb_exists. split.
  - intros (x & Hx & Heq). apply String.eqb_eq in Heq. subst. exact Hx.
  - intros Hin. exists ns. split; [exact Hin | apply String.eqb_refl].
Qed.

Lemma firstBuiltin_None (macros : gmap string Value) :
  (forall ns, In ns ReservedNamespaces -> macros !! ns = None) ->
  firstBuiltin (map fst (map_to_list macros)) = None.
Proof.
  intros Hfree. unfold firstBuiltin.
  destruct (find isBuiltinGlobal (map fst (map_to_list macros))) as [ns|] eqn:Hf;
    [| reflexivity].
  apply find_some in Hf as [Hin Hb].
  apply isBuiltinGlobal_In in Hb.
  apply in_map_iff in Hin as ([k v] & Hk & Hkv). cbn in Hk. subst k.
  apply list_elem_of_In, elem_of_map_to_list in Hkv.
  rewrite (Hfree ns Hb) in Hkv. discriminate.
Qed.

Lemma firstBuiltin_Some (macros : gmap string Value) (ns : string) (v : Value) :
  In ns ReservedNamespaces -> macros !! ns = Some v ->
  exists name, firstBuiltin (map fst (map_to_list macros)) = Some name.
Proof.
  intros Hin Hv. unfold firstBuiltin.
  destruct (find isBuiltinGlobal (map fst (map_to_list macros))) as [name|] eqn:Hf;
    [eauto|].
  exfalso.
  assert (Hmem : In ns (map fst (map_to_list macros))).
  { apply in_map_iff. exists (ns, v). split; [reflexivity|].
    apply list_elem_of_In, elem_of_map_to_list. exact Hv. }
  pose proof (find_none _ _ Hf ns Hmem) as Hb.
  apply isBuiltinGlobal_In in Hin. congruence.
Qed.

(** C6.  Registering a module, whatever it exports, under one of the
    reserved namespaces [config], [env], [target], [this] fails with a
    registry error and leaves the registry as it was.  Hence no registry
    built by registrations holds such a namespace, exposing its
    namespaces as globals succeeds and leaves the engine's global of
    that name as it was; and a macro dict that does name it is refused
    by the context, which stays unchanged. *)
Theorem reserved_namespace_rejected :
  forall (ns path : string) (exports : gmap string Value) (r : Registry)
         (ms : list LoadedModule) (ctx : ExecutionContext R),
    In ns ["config"; "env"; "target"; "this"] ->
    (exists msg,
       Register r (mkModule ns path exports) = (r, Some (mkRegistryError ns msg))) /\
    modules (fst (RegisterAll NewRegistry ms)) !! ns = None /\
    (exists ctx',
       AddMacros ctx (ToStarlarkDict moduleValue (fst (RegisterAll NewRegistry ms)))
         = (ctx', None) /\
       globals ctx' !! ns = globals ctx !! ns) /\
    (forall (macros : gmap string Value) (v : Value),
       macros !! ns = Some v ->
       exists err, AddMacros ctx macros = (ctx, Some err)).
Proof.
  intros ns path exports r ms ctx Hin.
  pose proof (RegisterAll_noReserved ms NewRegistry NewRegistry_noReserved) as Hno.
  split; [| split; [| split]].
  - eexists. apply (Register_reserved r (mkModule ns path exports)). exact Hin.
  - apply Hno. exact Hin.
  - unfold AddMacros. rewrite firstBuiltin_None.
    + eexists. split; [reflexivity|]. cbn.
      rewrite lookup_union_l; [reflexivity|].
      rewrite ToStarlarkDict_lookup, (Hno ns Hin). reflexivity.
    + intros ns' Hns'. rewrite ToStarlarkDict_lookup, (Hno ns' Hns'). reflexivity.
  - intros macros v Hv. unfold AddMacros.
    destruct (firstBuiltin_Some macros ns v Hin Hv) as (name & ->). eauto.
Qed.

End RegistryFacts.

Lemma reserved_namespace_rejected_witness :
  In "config" ["config"; "env"; "target"; "this"] /\
  exists msg,
    Macro.Register (R := Sample.runtime) Macro.NewRegistry
      (Macro.mkModule "config" "/macros/config.star" ∅)
    = (Macro.NewRegistry, Some (Macro.mkRegistryError "config" msg)).
Proof.
  split; [left; reflexivity|].
  exact (proj1 (reserved_namespace_rejected (R := Sample.runtime)
                  (fun _ => Sample.SNone) "config" "/macros/config.star" ∅
                  Macro.NewRegistry [] (Starctx.mkContext ∅)
                  (or_introl eq_refl))).
Defined.

(** ** Loading macros *)

Section LoaderFacts.

Import Starctx Macro.

Context {R : Runtime}.
Context (execFile : string -> string -> string + gmap string Value).

Lemma filter_none {A : Type} (f : A -> bool) (l : list A) :
  Forall (fun x => f x = false) l -> List.filter f l = [].
Proof.
  induction 1 as [| x l Hx _ IH]; cbn; [reflexivity|].
  rewrite Hx. exact IH.
Qed.

Lemma Len_NewRegistry : Len NewRegistry = 0.
Proof. unfold Len, NewRegistry; cbn. apply map_size_empty. Qed.

(** C7.  Loading macros from a directory path that does not exist, or
    from an existing directory none of whose entries is a [.star] file,
    returns a registry (no error), and that registry is empty: its size
    is 0. *)
Theorem load_missing_or_empty_directory :
  forall (fs : FS) (dir : string),
    fs dir = None \/
    (exists entries,
       fs dir = Some (FSDir entries) /\
       Forall (fun e => isStarFile e = false) entries) ->
    exists registry,
      LoadAndRegister execFile fs dir = inr registry /\
      registry = NewRegistry /\
      Len registry = 0.
Proof.
  intros fs dir Hdir. exists NewRegistry.
  split; [| split; [reflexivity | apply Len_NewRegistry]].
  unfold LoadAndRegister, Load, NewLoader; cbn [macrosDir].
  destruct Hdir as [-> | (entries & -> & Hnone)]; [reflexivity|].
  rewrite (filter_none _ _ Hnone). reflexivity.
Qed.

End LoaderFacts.

Lemma load_missing_or_empty_directory_witness :
  (exists registry,
     Macro.LoadAndRegister (R := Sample.runtime) (fun _ _ => inl "unused")
       Sample.sampleFS "nowhere/macros" = inr registry /\
     registry = Macro.NewRegistry /\ Macro.Len registry = 0) /\
  (exists registry,
     Macro.LoadAndRegister (R := Sample.runtime) (fun _ _ => inl "unused")
       Sample.sampleFS "project/macros" = inr registry /\
     registry = Macro.NewRegistry /\ Macro.Len registry = 0).
Proof.
  split.
  - apply (load_missing_or_empty_directory (R := Sample.runtime)).
    left. reflexivity.
  - apply (load_missing_or_empty_directory (R := Sample.runtime)).
    right. eexists. split; [reflexivity|].
    repeat constructor.
Defined.

(** ** Rendering *)

Lemma append_assoc_s (a b c : string) : (a +:+ b) +:+ c = a +:+ (b +:+ c).
Proof.
  induction a as [| x a IH]; [reflexivity|].
  change (String x ((a +:+ b) +:+ c) = String x (a +:+ (b +:+ c))).
  rewrite IH. reflexivity.
Qed.

Lemma append_nil_r_s (a : string) : a +:+ EmptyString = a.
Proof.
  induction a as [| x a IH]; [reflexivity|].
  change (String x (a +:+ EmptyString) = String x a).
  rewrite IH. reflexivity.
Qed.

(** The sample runtime satisfies the laws of the interpreter. *)
#[export] Instance sample_laws : Starctx.RuntimeLaws Sample.runtime.
Proof.
  split.
  - intros name env v Hid Hv.
    change (Sample.evalName name env = inr v). unfold Sample.evalName.
    rewrite Hid.
    cbv [Starctx.Value Sample.runtime] in env, v, Hv. rewrite Hv. reflexivity.
  - intros env. exists "syntax error". reflexivity.
Qed.

Section RenderFacts.

Import Starctx Render.

Context {R : Runtime} {L : RuntimeLaws R}.

(** Evaluating a name that the locals bind gives the local binding. *)
Lemma eval_local (ctx : ExecutionContext R) (name f : string) (line : nat)
  (locals : gmap string Value) (v : Value) :
  isIdentifier name = true -> locals !! name = Some v ->
  EvalExprWithLocals ctx name f line locals = inr v.
Proof.
  intros Hid Hv. unfold EvalExprWithLocals.
  rewrite (eval_name name _ v Hid); [reflexivity|].
  apply lookup_union_Some_l. exact Hv.
Qed.

(** Evaluating a name that only the globals bind gives the global. *)
Lemma eval_global (ctx : ExecutionContext R) (name f : string) (line : nat)
  (locals : gmap string Value) (v : Value) :
  isIdentifier name = true -> locals !! name = None ->
  globals ctx !! name = Some v ->
  EvalExprWithLocals ctx name f line locals = inr v.
Proof.
  intros Hid Hl Hg. unfold EvalExprWithLocals.
  rewrite (eval_name name _ v Hid); [reflexivity|].
  rewrite lookup_union_r; assumption.
Qed.

(** The empty expression is an evaluation error in every context. *)
Lemma eval_empty_expr (ctx : ExecutionContext R) (f : string) (line : nat)
  (locals : gmap string Value) :
  exists msg,
    EvalExprStringWithLocals ctx EmptyString f line locals
    = inl (mkEvalError f line EmptyString msg).
Proof.
  destruct (eval_empty (locals ∪ globals ctx)) as [msg Hmsg].
  exists msg. unfold EvalExprStringWithLocals, EvalExprWithLocals.
  rewrite Hmsg. reflexivity.
Qed.

(** [renderNode] on a [ForBlock] is [renderForBlock]: evaluate the
    iterator, then iterate. *)
Lemma renderNode_for (r : Renderer) (f : string) (pos : Position)
  (varName iterExpr : string) (body : list Node) (buf : string) :
  renderNode r f (ForBlock pos varName iterExpr body) buf =
  match EvalExprWithLocals (ctx r) iterExpr f (Line pos) (locals r) with
  | inl err => inl (WrapRenderError pos "for loop iterator evaluation failed" err)
  | inr iterVal =>
      match Iterate iterVal with
      | None =>
          inl (NewRenderErrorf pos
                 ("for loop: cannot iterate over " +:+ TypeName iterVal))
      | Some elems => renderIter r f varName body elems buf
      end
  end.
Proof.
  cbn [renderNode].
  destruct (EvalExprWithLocals (ctx r) iterExpr f (Line pos) (locals r)) as [err | iterVal];
    [reflexivity|].
  destruct (Iterate iterVal) as [elems|]; [| reflexivity].
  revert buf. induction elems as [| elem elems IH]; intros buf; [reflexivity|].
  cbn [renderIter]. unfold renderNodes.
  destruct (renderList _ body buf) as [err | buf']; [reflexivity | apply IH].
Qed.

(** The loop body [{{ x }}] appends the stringification of each element. *)
Lemma renderIter_expr (r : Renderer) (f : string) (pos : Position)
  (xs : list Value) (buf : string) :
  renderIter r f "x" [ExprNode pos "x"] xs buf
  = inr (buf +:+ concatStrings (map Stringify xs)).
Proof.
  revert buf. induction xs as [| x xs IH]; intros buf; cbn [renderIter].
  - cbn. rewrite append_nil_r_s. reflexivity.
  - unfold renderNodes. cbn [renderList renderNode ctx locals].
    unfold EvalExprStringWithLocals.
    rewrite (eval_local (ctx r) "x" f (Line pos) (withLocal r "x" x) x);
      [| reflexivity | apply lookup_insert_eq].
    rewrite IH. cbn [map concatStrings fold_right].
    rewrite append_assoc_s. reflexivity.
Qed.

Lemma parse_for_template (f : string) :
  ParseString "{* for x in XS: *}{{ x }}{* endfor *}" f =
  Some (inr (mkTemplate
               [ForBlock (mkPos f 1 1) "x" "XS" [ExprNode (mkPos f 1 19) "x"]] f)).
Proof. vm_compute. reflexivity. Qed.

(** C1.  For every value bound as [XS] in the context that iterates over
    the elements [xs], rendering the template
    [{* for x in XS: *}{{ x }}{* endfor *}] succeeds and returns the
    concatenation, in iteration order, of the stringifications of the
    elements of [xs]. *)
Theorem for_loop_concatenates :
  forall (c : ExecutionContext R) (f : string) (v : Value) (xs : list Value),
    globals c !! "XS" = Some v ->
    Iterate v = Some xs ->
    RenderString "{* for x in XS: *}{{ x }}{* endfor *}" f c
    = Some (inr (concatStrings (map Stringify xs))) /\
    (xs = [] ->
     RenderString "{* for x in XS: *}{{ x }}{* endfor *}" f c
     = Some (inr EmptyString)).
Proof.
  intros c f v xs Hxs Hiter.
  assert (Hr : RenderString "{* for x in XS: *}{{ x }}{* endfor *}" f c
               = Some (inr (concatStrings (map Stringify xs)))).
  { unfold RenderString.
    rewrite parse_for_template. f_equal.
    unfold Render, renderNodes. cbn [Nodes TFile renderList].
    rewrite renderNode_for. cbn [NewRenderer ctx locals Line].
    rewrite (eval_global c "XS" f 1 ∅ v);
      [| reflexivity | apply lookup_empty | exact Hxs].
    rewrite Hiter, renderIter_expr. reflexivity. }
  split; [exact Hr|].
  intros ->. exact Hr.
Qed.

(** Rendering text and expressions up to an empty expression fails: with
    the error of an earlier expression, or with that of the empty one. *)
Lemma renderNodes_reaches_empty (r : Renderer) (f : string)
  (pre post : list Node) (pos : Position) (buf : string) :
  forallb isLeaf pre = true ->
  exists pos' msg err,
    renderNodes r (pre ++ ExprNode pos EmptyString :: post) buf f
    = inl (RenderError pos' msg (Some err)).
Proof.
  revert buf. induction pre as [| n pre IH]; intros buf Hleaf.
  - destruct (eval_empty_expr (ctx r) f (Line pos) (locals r)) as [m Hm].
    unfold renderNodes. cbn [app renderList renderNode]. rewrite Hm.
    unfold WrapRenderError. eauto.
  - cbn [forallb] in Hleaf. apply andb_true_iff in Hleaf as [Hn Hpre].
    unfold renderNodes in *. cbn [app renderList].
    destruct n as [p t | p e | |]; try discriminate; cbn [renderNode].
    + apply IH. exact Hpre.
    + destruct (EvalExprStringWithLocals (ctx r) e f (Line p) (locals r)) as [err | out].
      * unfold WrapRenderError. eauto.
      * apply IH. exact Hpre.
Qed.

(** The lexer on text that opens no delimiter. *)
Lemma lex_pureText (l acc : bytes) (start cur : Position) (toks : list Token) :
  pureText l = true ->
  exists cur',
    lex InText acc start cur toks l =
    inr (rev toks ++ flushText (rev l ++ acc) start
           ++ [mkToken TokenEOF EmptyString cur']).
Proof.
  revert acc cur. induction l as [| c l1 IH]; intros acc cur Hpure.
  - exists cur. reflexivity.
  - assert (Hl1 : pureText l1 = true).
    { destruct l1 as [| d l2]; [reflexivity|].
      cbn [pureText] in Hpure. apply andb_true_iff in Hpure as [_ H]. exact H. }
    destruct (IH (c :: acc) (stepPos cur c) Hl1) as [cur' Hlex].
    exists cur'.
    replace (rev (c :: l1) ++ acc) with (rev l1 ++ c :: acc)
      by (cbn [rev]; rewrite <- app_assoc; reflexivity).
    rewrite <- Hlex.
    destruct l1 as [| d l2]; [reflexivity|].
    cbn [pureText] in Hpure. apply andb_true_iff in Hpure as [Hcd _].
    apply negb_true_iff in Hcd.
    cbn [lex].
    destruct (isByte 123 c); [| reflexivity].
    cbn [andb orb] in *. apply orb_false_iff in Hcd as [-> ->]. reflexivity.
Qed.

Lemma S_B (s : string) : S_ (B s) = s.
Proof. apply string_of_list_ascii_of_string. Qed.

Lemma B_S (l : bytes) : B (S_ l) = l.
Proof. apply list_ascii_of_string_of_list_ascii. Qed.

(** C9, amended.  For every template that contains neither an
    expression nor a statement delimiter (pure text), rendering yields
    the input unchanged, in every execution context. *)
Theorem pure_text_renders_unchanged :
  forall (c : ExecutionContext R) (f s : string),
    pureText (B s) = true ->
    RenderString s f c = Some (inr s).
Proof.
  intros c f s Hpure. unfold RenderString, ParseString, Tokenize.
  destruct (lex_pureText (B s) [] (mkPos f 1 1) (mkPos f 1 1) [] Hpure) as [cur' ->].
  rewrite app_nil_r. cbn [rev app].
  destruct (B s) as [| b l] eqn:Hs.
  - assert (s = EmptyString) as -> by (rewrite <- (S_B s), Hs; reflexivity).
    reflexivity.
  - assert (Hne : exists x acc, rev (b :: l) = x :: acc).
    { destruct (rev (b :: l)) as [| x acc] eqn:Hr; [| eauto].
      apply (f_equal (@length ascii)) in Hr. rewrite length_rev in Hr. discriminate. }
    destruct Hne as (x & acc & Hr).
    unfold flushText. rewrite Hr, <- Hr, rev_involutive, <- Hs, S_B.
    reflexivity.
Qed.

End RenderFacts.

Section RenderInstances.

Import Starctx Render Sample.

Lemma for_loop_concatenates_witness :
  RenderString (R := runtime) "{* for x in XS: *}{{ x }}{* endfor *}" "test.sql"
    (mkContext (<["XS" := SList [SInt 1; SInt 2; SInt 3]]> ∅))
  = Some (inr "123").
Proof.
  exact (proj1 (for_loop_concatenates (R := runtime)
                  (mkContext (<["XS" := SList [SInt 1; SInt 2; SInt 3]]> ∅))
                  "test.sql" (SList [SInt 1; SInt 2; SInt 3])
                  [SInt 1; SInt 2; SInt 3] eq_refl eq_refl)).
Defined.

(** C5, as stated, fails: a template that contains an empty expression
    inside a loop over the empty sequence parses, with the empty
    expression in the loop body, and renders to the empty string; no
    error is raised. *)
Lemma unreached_empty_expression_renders :
  ParseString "{* for x in XS: *}{{ }}{* endfor *}" "test.sql" =
    Some (inr (mkTemplate
                 [ForBlock (mkPos "test.sql" 1 1) "x" "XS"
                    [ExprNode (mkPos "test.sql" 1 19) EmptyString]] "test.sql")) /\
  RenderString (R := runtime) "{* for x in XS: *}{{ }}{* endfor *}" "test.sql"
    (mkContext (<["XS" := SList []]> ∅))
  = Some (inr EmptyString).
Proof. split; vm_compute; reflexivity. Qed.

Lemma pure_text_renders_unchanged_witness :
  pureText (B "SELECT * FROM users") = true /\
  RenderString (R := runtime) "SELECT * FROM users" "test.sql" (mkContext ∅)
  = Some (inr "SELECT * FROM users").
Proof.
  split; [reflexivity|].
  apply (pure_text_renders_unchanged (R := runtime) (mkContext ∅) "test.sql"
           "SELECT * FROM users").
  reflexivity.
Defined.

(** C9, as stated, fails: the template [{{ 1 }}] has no block construct,
    and with the empty context it renders to [1], not to itself. *)
Lemma expression_template_not_unchanged :
  ParseString "{{ 1 }}" "test.sql" =
    Some (inr (mkTemplate [ExprNode (mkPos "test.sql" 1 1) "1"] "test.sql")) /\
  RenderString (R := runtime) "{{ 1 }}" "test.sql" (mkContext ∅) = Some (inr "1") /\
  RenderString (R := runtime) "{{ 1 }}" "test.sql" (mkContext ∅)
  <> Some (inr "{{ 1 }}").
Proof. split; [| split]; vm_compute; [reflexivity | reflexivity | discriminate]. Qed.

End RenderInstances.

(** ** The parser *)

Section ParserFacts.

(** [parseStmt] reads the token only; the cursor moves by one. *)
Lemma parseStmt_cursor (p q : Parser) (tok : Token) :
  parseStmt p tok =
  match parseStmt q tok with
  | inr (stmt, _) => inr (stmt, advance p)
  | inl err => inl err
  end.
Proof.
  unfold parseStmt.
  repeat match goal with
         | |- context [if ?b then _ else _] => destruct b; [reflexivity|]
         | |- context [match ?o with Some _ => _ | None => _ end] =>
             destruct o; [reflexivity|]
         end.
  reflexivity.
Qed.

Lemma parseStmt_stmtOf (p : Parser) (tok : Token) (stmt : StmtNode) :
  stmtOf tok = Some stmt -> parseStmt p tok = inr (stmt, advance p).
Proof.
  unfold stmtOf. destruct (Type_ tok); try discriminate.
  rewrite (parseStmt_cursor p (mkParser [] EmptyString)).
  destruct (parseStmt (mkParser [] EmptyString) tok) as [err | [s q]];
    [discriminate|].
  intros [= ->]. reflexivity.
Qed.

Lemma stmtOf_facts (tok : Token) (stmt : StmtNode) :
  stmtOf tok = Some stmt ->
  Type_ tok = TokenStmt /\ Kind stmt = peekStmtKind (Value tok) /\
  stmtPos stmt = Pos tok.
Proof.
  unfold stmtOf. destruct (Type_ tok) eqn:Ht; try discriminate.
  pose proof (parseStmt_by_kind (mkParser [] EmptyString) tok) as H.
  destruct (parseStmt (mkParser [] EmptyString) tok) as [err | [s q]];
    [discriminate|].
  intros [= ->].
  destruct (peekStmtKind (Value tok));
    try (destruct H as (var & expr & [= -> _]); cbn; auto).
  discriminate.
Qed.

Lemma isStmt_stmtOf (k : StmtKind) (tok : Token) :
  isStmt k tok -> k <> StmtUnknown ->
  exists stmt, stmtOf tok = Some stmt /\ Kind stmt = k /\ stmtPos stmt = Pos tok.
Proof.
  intros [Ht Hk] Hne. unfold stmtOf. rewrite Ht.
  pose proof (parseStmt_by_kind (mkParser [] EmptyString) tok) as H.
  rewrite Hk in H.
  destruct k; try congruence; destruct H as (var & expr & ->); eauto.
Qed.

(** More budget does not change a result. *)
Lemma fuel_mono (n : nat) :
  (forall m stopOn nodes p r, n <= m ->
     parseNodes n stopOn nodes p = Some r -> parseNodes m stopOn nodes p = Some r) /\
  (forall m stmt p r, n <= m ->
     parseForBlock n stmt p = Some r -> parseForBlock m stmt p = Some r) /\
  (forall m stmt p r, n <= m ->
     parseIfBlock n stmt p = Some r -> parseIfBlock m stmt p = Some r) /\
  (forall m stmt body elifs p r, n <= m ->
     ifChain n stmt body elifs p = Some r -> ifChain m stmt body elifs p = Some r).
Proof.
  induction n as [| n (IHN & IHF & IHI & IHC)].
  { repeat split; intros; discriminate. }
  repeat split.
  - intros [| m] stopOn nodes p r Hle H; [lia|].
    assert (Hnm : n <= m) by lia.
    cbn [parseNodes] in *.
    destruct (atEnd p); [exact H|].
    destruct (Type_ (current p)); [eauto | eauto | | exact H].
    destruct (containsKind stopOn (peekStmtKind (Value (current p)))); [exact H|].
    destruct (parseStmt p (current p)) as [err | [stmt p1]]; [exact H|].
    destruct (Kind stmt); try exact H.
    + destruct (parseForBlock n stmt p1) as [[err | [block p2]] |] eqn:E;
        [| | discriminate]; rewrite (IHF m _ _ _ Hnm E); eauto.
    + destruct (parseIfBlock n stmt p1) as [[err | [block p2]] |] eqn:E;
        [| | discriminate]; rewrite (IHI m _ _ _ Hnm E); eauto.
  - intros [| m] stmt p r Hle H; [lia|].
    assert (Hnm : n <= m) by lia.
    cbn [parseForBlock] in *.
    destruct (parseNodes n [StmtEndFor] [] p) as [[err | [body p1]] |] eqn:E;
      [| | discriminate]; rewrite (IHN m _ _ _ _ Hnm E); exact H.
  - intros [| m] stmt p r Hle H; [lia|].
    assert (Hnm : n <= m) by lia.
    cbn [parseIfBlock] in *.
    destruct (parseNodes n [StmtElif; StmtElse; StmtEndIf] [] p)
      as [[err | [body p1]] |] eqn:E;
      [| | discriminate]; rewrite (IHN m _ _ _ _ Hnm E); eauto.
  - intros [| m] stmt body elifs p r Hle H; [lia|].
    assert (Hnm : n <= m) by lia.
    cbn [ifChain] in *.
    destruct (atEnd p); [exact H|].
    destruct (Type_ (current p)); try exact H.
    destruct (parseStmt p (current p)) as [err | [nextStmt p1]]; [exact H|].
    destruct (Kind nextStmt); try exact H.
    + destruct (parseNodes n [StmtElif; StmtElse; StmtEndIf] [] p1)
        as [[err | [elifBody p2]] |] eqn:E;
        [| | discriminate]; rewrite (IHN m _ _ _ _ Hnm E); eauto.
    + destruct (parseNodes n [StmtEndIf] [] p1)
        as [[err | [elseBody p2]] |] eqn:E;
        [| | discriminate]; rewrite (IHN m _ _ _ _ Hnm E); exact H.
Qed.

Lemma advance_length (p : Parser) :
  atEnd p = false -> S (length (tokens (advance p))) = length (tokens p).
Proof. destruct p as [[| tok ts] f]; cbn; [discriminate | reflexivity]. Qed.

Lemma advance_cons (tok : Token) (ts : list Token) (f : string) :
  advance (mkParser (tok :: ts) f) = mkParser ts f.
Proof. reflexivity. Qed.

Lemma parseStmt_shrinks (p : Parser) (tok : Token) (stmt : StmtNode) (p1 : Parser) :
  parseStmt p tok = inr (stmt, p1) -> p1 = advance p.
Proof.
  rewrite (parseStmt_cursor p p).
  destruct (parseStmt p tok) as [err | [s q]]; [discriminate|].
  intros [= _ <-]. reflexivity.
Qed.

(** The budget [2 * length + 1] (one more for the block functions) is
    never used up. *)
Lemma fuel_enough (n : nat) :
  (forall stopOn nodes p, 2 * length (tokens p) + 1 <= n ->
     exists r, parseNodes n stopOn nodes p = Some r /\ shrinks p r) /\
  (forall stmt p, 2 * length (tokens p) + 2 <= n ->
     exists r, parseForBlock n stmt p = Some r /\ shrinks p r) /\
  (forall stmt p, 2 * length (tokens p) + 2 <= n ->
     exists r, parseIfBlock n stmt p = Some r /\ shrinks p r) /\
  (forall stmt body elifs p, 2 * length (tokens p) + 1 <= n ->
     exists r, ifChain n stmt body elifs p = Some r /\ shrinks p r).
Proof.
  induction n as [| n (IHN & IHF & IHI & IHC)].
  { repeat split; intros; lia. }
  repeat split.
  - intros stopOn nodes p Hn. cbn [parseNodes].
    destruct (atEnd p) eqn:Hend; [eexists; split; [reflexivity | unfold shrinks; lia]|].
    pose proof (advance_length p Hend) as Hadv.
    destruct (Type_ (current p)).
    + destruct (IHN stopOn (nodes ++ [TextNode (Pos (current p)) (Value (current p))])
                  (advance p)) as (r & Hr & Hs); [lia|].
      exists r. split; [exact Hr|]. destruct r as [| [? ?]]; unfold shrinks in *; [exact I | lia].
    + destruct (IHN stopOn (nodes ++ [ExprNode (Pos (current p)) (Value (current p))])
                  (advance p)) as (r & Hr & Hs); [lia|].
      exists r. split; [exact Hr|]. destruct r as [| [? ?]]; unfold shrinks in *; [exact I | lia].
    + destruct (containsKind stopOn (peekStmtKind (Value (current p))));
        [eexists; split; [reflexivity | unfold shrinks; lia]|].
      destruct (parseStmt p (current p)) as [err | [stmt p1]] eqn:Hst;
        [eexists; split; [reflexivity | exact I]|].
      apply parseStmt_shrinks in Hst. subst p1.
      destruct (Kind stmt); try (eexists; split; [reflexivity | exact I]).
      * destruct (IHF stmt (advance p)) as (r & Hr & Hs); [lia|]. rewrite Hr.
        destruct r as [err | [block p2]]; [eexists; split; [reflexivity | exact I]|].
        unfold shrinks in Hs.
        destruct (IHN stopOn (nodes ++ [block]) p2) as (r & Hr2 & Hs2); [lia|].
        exists r. split; [exact Hr2|]. destruct r as [| [? ?]]; unfold shrinks in *; [exact I | lia].
      * destruct (IHI stmt (advance p)) as (r & Hr & Hs); [lia|]. rewrite Hr.
        destruct r as [err | [block p2]]; [eexists; split; [reflexivity | exact I]|].
        unfold shrinks in Hs.
        destruct (IHN stopOn (nodes ++ [block]) p2) as (r & Hr2 & Hs2); [lia|].
        exists r. split; [exact Hr2|]. destruct r as [| [? ?]]; unfold shrinks in *; [exact I | lia].
    + eexists; split; [reflexivity | unfold shrinks; lia].
  - intros stmt p Hn. cbn [parseForBlock].
    destruct (IHN [StmtEndFor] [] p) as (r & Hr & Hs); [lia|]. rewrite Hr.
    destruct r as [err | [body p1]]; [eexists; split; [reflexivity | exact I]|].
    unfold shrinks in Hs.
    destruct (atEnd p1) eqn:Hend; [eexists; split; [reflexivity | exact I]|].
    pose proof (advance_length p1 Hend) as Hadv.
    destruct (Type_ (current p1)); try (eexists; split; [reflexivity | exact I]).
    destruct (parseStmt p1 (current p1)) as [err | [endStmt p2]] eqn:Hst;
      [eexists; split; [reflexivity | exact I]|].
    apply parseStmt_shrinks in Hst. subst p2.
    destruct (Kind endStmt); eexists; (split; [reflexivity | unfold shrinks; try exact I; lia]).
  - intros stmt p Hn. cbn [parseIfBlock].
    destruct (IHN [StmtElif; StmtElse; StmtEndIf] [] p) as (r & Hr & Hs); [lia|].
    rewrite Hr.
    destruct r as [err | [body p1]]; [eexists; split; [reflexivity | exact I]|].
    unfold shrinks in Hs.
    destruct (IHC stmt body [] p1) as (r & Hr2 & Hs2); [lia|].
    exists r. split; [exact Hr2|]. destruct r as [| [? ?]]; unfold shrinks in *; [exact I | lia].
  - intros stmt body elifs p Hn. cbn [ifChain].
    destruct (atEnd p) eqn:Hend; [eexists; split; [reflexivity | exact I]|].
    pose proof (advance_length p Hend) as Hadv.
    destruct (Type_ (current p)); try (eexists; split; [reflexivity | exact I]).
    destruct (parseStmt p (current p)) as [err | [nextStmt p1]] eqn:Hst;
      [eexists; split; [reflexivity | exact I]|].
    apply parseStmt_shrinks in Hst. subst p1.
    destruct (Kind nextStmt); try (eexists; split; [reflexivity | exact I]).
    + destruct (IHN [StmtElif; StmtElse; StmtEndIf] [] (advance p))
        as (r & Hr & Hs); [lia|]. rewrite Hr.
      destruct r as [err | [elifBody p2]]; [eexists; split; [reflexivity | exact I]|].
      unfold shrinks in Hs.
      destruct (IHC stmt body
                  (elifs ++ [mkBranch (Expr nextStmt) elifBody (stmtPos nextStmt)]) p2)
        as (r & Hr2 & Hs2); [lia|].
      exists r. split; [exact Hr2|]. destruct r as [| [? ?]]; unfold shrinks in *; [exact I | lia].
    + destruct (IHN [StmtEndIf] [] (advance p)) as (r & Hr & Hs); [lia|]. rewrite Hr.
      destruct r as [err | [elseBody p2]]; [eexists; split; [reflexivity | exact I]|].
      unfold shrinks in Hs.
      destruct (atEnd p2) eqn:Hend2; [eexists; split; [reflexivity | exact I]|].
      pose proof (advance_length p2 Hend2) as Hadv2.
      destruct (Type_ (current p2)) eqn:Hty;
        try (destruct (parseStmt p2 (current p2)) as [err | [endStmt p3]] eqn:Hst;
             [eexists; split; [reflexivity | exact I]|];
             apply parseStmt_shrinks in Hst; subst p3;
             destruct (Kind endStmt);
             eexists; (split; [reflexivity | unfold shrinks; try exact I; lia])).
    + eexists; split; [reflexivity | unfold shrinks; lia].
Qed.

Section Runs.

Variable f : string.

Local Abbreviation at_ := (Template.at_ f).
Local Abbreviation RunsNodes := (Template.RunsNodes f).
Local Abbreviation RunsFor := (Template.RunsFor f).
Local Abbreviation RunsIf := (Template.RunsIf f).
Local Abbreviation RunsChain := (Template.RunsChain f).
Local Abbreviation NodesFail := (Template.NodesFail f).

Lemma nodes_mono n m stopOn nodes p r :
  n <= m -> parseNodes n stopOn nodes p = Some r -> parseNodes m stopOn nodes p = Some r.
Proof. intros. eapply (proj1 (fuel_mono n)); eassumption. Qed.

Lemma for_mono n m stmt p r :
  n <= m -> parseForBlock n stmt p = Some r -> parseForBlock m stmt p = Some r.
Proof. intros. eapply (proj1 (proj2 (fuel_mono n))); eassumption. Qed.

Lemma if_mono n m stmt p r :
  n <= m -> parseIfBlock n stmt p = Some r -> parseIfBlock m stmt p = Some r.
Proof. intros. eapply (proj1 (proj2 (proj2 (fuel_mono n)))); eassumption. Qed.

Lemma chain_mono n m stmt body elifs p r :
  n <= m -> ifChain n stmt body elifs p = Some r -> ifChain m stmt body elifs p = Some r.
Proof. intros. eapply (proj2 (proj2 (proj2 (fuel_mono n)))); eassumption. Qed.

Lemma atEOF_cases (tail : list Token) :
  atEOF tail ->
  tail = [] \/ exists tok ts, tail = tok :: ts /\ Type_ tok = TokenEOF.
Proof. destruct tail as [| tok ts]; cbn; eauto. Qed.

(** *** [parseNodes], case by case *)

Lemma RN_eof stopOn nodes tail :
  atEOF tail -> RunsNodes stopOn nodes tail (inr (nodes, at_ tail)).
Proof.
  intros [-> | (tok & ts & -> & Ht)]%atEOF_cases; exists 1; cbn; [reflexivity|].
  rewrite Ht. reflexivity.
Qed.

Lemma RN_text stopOn nodes tok ts r :
  Type_ tok = TokenText ->
  RunsNodes stopOn (nodes ++ [TextNode (Pos tok) (Value tok)]) ts r ->
  RunsNodes stopOn nodes (tok :: ts) r.
Proof. intros Ht [n Hn]. exists (S n). cbn. rewrite Ht. exact Hn. Qed.

Lemma RN_expr stopOn nodes tok ts r :
  Type_ tok = TokenExpr ->
  RunsNodes stopOn (nodes ++ [ExprNode (Pos tok) (Value tok)]) ts r ->
  RunsNodes stopOn nodes (tok :: ts) r.
Proof. intros Ht [n Hn]. exists (S n). cbn. rewrite Ht. exact Hn. Qed.

Lemma RN_stop stopOn nodes tok ts k :
  isStmt k tok -> containsKind stopOn k = true ->
  RunsNodes stopOn nodes (tok :: ts) (inr (nodes, at_ (tok :: ts))).
Proof. intros [Ht Hk] Hc. exists 1. cbn. rewrite Ht, Hk, Hc. reflexivity. Qed.

Lemma RN_stray stopOn nodes tok ts k :
  isStmt k tok -> isCloser k = true -> containsKind stopOn k = false ->
  RunsNodes stopOn nodes (tok :: ts) (inl (UnmatchedBlockError (Pos tok) k)).
Proof.
  intros Hs Hcl Hc.
  destruct (isStmt_stmtOf k tok Hs) as (stmt & Hst & Hkind & _);
    [destruct k; discriminate|].
  destruct Hs as [Ht Hk].
  exists 1. cbn. rewrite Ht, Hk, Hc.
  rewrite (parseStmt_stmtOf _ tok stmt Hst), Hkind.
  destruct k; try discriminate; reflexivity.
Qed.

Lemma opens_facts k tok stmt :
  opens k tok stmt ->
  Type_ tok = TokenStmt /\ peekStmtKind (Value tok) = k /\ stmtPos stmt = Pos tok.
Proof.
  intros [Hst Hk]. destruct (stmtOf_facts tok stmt Hst) as (Ht & Hp & Hpos).
  repeat split; congruence.
Qed.

Lemma RN_for stopOn nodes tok stmt ts block ts' r :
  opens StmtFor tok stmt -> containsKind stopOn StmtFor = false ->
  RunsFor stmt ts (inr (block, at_ ts')) ->
  RunsNodes stopOn (nodes ++ [block]) ts' r ->
  RunsNodes stopOn nodes (tok :: ts) r.
Proof.
  intros Ho Hc [n1 H1] [n2 H2].
  destruct (opens_facts _ _ _ Ho) as (Ht & Hk & _). destruct Ho as [Hst Hkind].
  exists (S (Nat.max n1 n2)). unfold at_ in *. cbn. rewrite Ht, Hk, Hc.
  rewrite (parseStmt_stmtOf _ tok stmt Hst), Hkind. rewrite advance_cons.
  rewrite (for_mono n1 (Nat.max n1 n2) _ _ _ ltac:(lia) H1).
  apply (nodes_mono n2); [lia | exact H2].
Qed.

Lemma RN_for_err stopOn nodes tok stmt ts err :
  opens StmtFor tok stmt -> containsKind stopOn StmtFor = false ->
  RunsFor stmt ts (inl err) ->
  RunsNodes stopOn nodes (tok :: ts) (inl err).
Proof.
  intros Ho Hc [n1 H1].
  destruct (opens_facts _ _ _ Ho) as (Ht & Hk & _). destruct Ho as [Hst Hkind].
  exists (S n1). unfold at_ in *. cbn. rewrite Ht, Hk, Hc.
  rewrite (parseStmt_stmtOf _ tok stmt Hst), Hkind. rewrite advance_cons.
  rewrite H1. reflexivity.
Qed.

Lemma RN_if stopOn nodes tok stmt ts block ts' r :
  opens StmtIf tok stmt -> containsKind stopOn StmtIf = false ->
  RunsIf stmt ts (inr (block, at_ ts')) ->
  RunsNodes stopOn (nodes ++ [block]) ts' r ->
  RunsNodes stopOn nodes (tok :: ts) r.
Proof.
  intros Ho Hc [n1 H1] [n2 H2].
  destruct (opens_facts _ _ _ Ho) as (Ht & Hk & _). destruct Ho as [Hst Hkind].
  exists (S (Nat.max n1 n2)). unfold at_ in *. cbn. rewrite Ht, Hk, Hc.
  rewrite (parseStmt_stmtOf _ tok stmt Hst), Hkind. rewrite advance_cons.
  rewrite (if_mono n1 (Nat.max n1 n2) _ _ _ ltac:(lia) H1).
  apply (nodes_mono n2); [lia | exact H2].
Qed.

Lemma RN_if_err stopOn nodes tok stmt ts err :
  opens StmtIf tok stmt -> containsKind stopOn StmtIf = false ->
  RunsIf stmt ts (inl err) ->
  RunsNodes stopOn nodes (tok :: ts) (inl err).
Proof.
  intros Ho Hc [n1 H1].
  destruct (opens_facts _ _ _ Ho) as (Ht & Hk & _). destruct Ho as [Hst Hkind].
  exists (S n1). unfold at_ in *. cbn. rewrite Ht, Hk, Hc.
  rewrite (parseStmt_stmtOf _ tok stmt Hst), Hkind. rewrite advance_cons.
  rewrite H1. reflexivity.
Qed.

(** *** [parseForBlock] *)

Lemma RF_ok stmt ts body etok ts' :
  RunsNodes [StmtEndFor] [] ts (inr (body, at_ (etok :: ts'))) ->
  isStmt StmtEndFor etok ->
  RunsFor stmt ts
    (inr (ForBlock (stmtPos stmt) (VarName stmt) (Expr stmt) body, at_ ts')).
Proof.
  intros [n Hn] Hs.
  destruct (isStmt_stmtOf _ etok Hs) as (st & Hst & Hkind & _); [discriminate|].
  destruct Hs as [Ht _].
  exists (S n). unfold at_ in *. cbn [parseForBlock]. rewrite Hn. cbn. rewrite Ht.
  rewrite (parseStmt_stmtOf _ etok st Hst), Hkind, advance_cons. reflexivity.
Qed.

Lemma RF_err stmt ts err :
  RunsNodes [StmtEndFor] [] ts (inl err) -> RunsFor stmt ts (inl err).
Proof. intros [n Hn]. exists (S n). cbn [parseForBlock]. rewrite Hn. reflexivity. Qed.

Lemma RF_eof stmt ts body tail :
  RunsNodes [StmtEndFor] [] ts (inr (body, at_ tail)) -> atEOF tail ->
  RunsFor stmt ts (inl (UnmatchedBlockError (stmtPos stmt) StmtFor)).
Proof.
  intros [n Hn] [-> | (tok & tl & -> & Ht)]%atEOF_cases;
    exists (S n); unfold at_ in *; cbn [parseForBlock]; rewrite Hn; cbn;
    [reflexivity | rewrite Ht; reflexivity].
Qed.

(** *** [parseIfBlock] and its chain *)

Lemma RI_chain stmt ts body ts' r :
  RunsNodes [StmtElif; StmtElse; StmtEndIf] [] ts (inr (body, at_ ts')) ->
  RunsChain stmt body [] ts' r ->
  RunsIf stmt ts r.
Proof.
  intros [n1 H1] [n2 H2]. exists (S (Nat.max n1 n2)). cbn [parseIfBlock].
  rewrite (nodes_mono n1 (Nat.max n1 n2) _ _ _ _ ltac:(lia) H1).
  apply (chain_mono n2); [lia | exact H2].
Qed.

Lemma RI_err stmt ts err :
  RunsNodes [StmtElif; StmtElse; StmtEndIf] [] ts (inl err) -> RunsIf stmt ts (inl err).
Proof. intros [n Hn]. exists (S n). cbn [parseIfBlock]. rewrite Hn. reflexivity. Qed.

Lemma RC_eof stmt body elifs tail :
  atEOF tail ->
  RunsChain stmt body elifs tail (inl (UnmatchedBlockError (stmtPos stmt) StmtIf)).
Proof.
  intros [-> | (tok & tl & -> & Ht)]%atEOF_cases; exists 1; cbn; [reflexivity|].
  rewrite Ht. reflexivity.
Qed.

Lemma RC_endif stmt body elifs tok ts :
  isStmt StmtEndIf tok ->
  RunsChain stmt body elifs (tok :: ts) (inr (ifBlock stmt body elifs [], at_ ts)).
Proof.
  intros Hs.
  destruct (isStmt_stmtOf _ tok Hs) as (st & Hst & Hkind & _); [discriminate|].
  destruct Hs as [Ht _].
  exists 1. unfold at_. cbn. rewrite Ht.
  rewrite (parseStmt_stmtOf _ tok st Hst), Hkind, advance_cons. reflexivity.
Qed.

Lemma RC_elif stmt body elifs tok st ts eb ts' r :
  opens StmtElif tok st ->
  RunsNodes [StmtElif; StmtElse; StmtEndIf] [] ts (inr (eb, at_ ts')) ->
  RunsChain stmt body (elifs ++ [mkBranch (Expr st) eb (stmtPos st)]) ts' r ->
  RunsChain stmt body elifs (tok :: ts) r.
Proof.
  intros Ho [n1 H1] [n2 H2].
  destruct (opens_facts _ _ _ Ho) as (Ht & _). destruct Ho as [Hst Hkind].
  exists (S (Nat.max n1 n2)). unfold at_ in *. cbn. rewrite Ht.
  rewrite (parseStmt_stmtOf _ tok st Hst), Hkind, advance_cons.
  rewrite (nodes_mono n1 (Nat.max n1 n2) _ _ _ _ ltac:(lia) H1).
  apply (chain_mono n2); [lia | exact H2].
Qed.

Lemma RC_elif_err stmt body elifs tok st ts err :
  opens StmtElif tok st ->
  RunsNodes [StmtElif; StmtElse; StmtEndIf] [] ts (inl err) ->
  RunsChain stmt body elifs (tok :: ts) (inl err).
Proof.
  intros Ho [n1 H1].
  destruct (opens_facts _ _ _ Ho) as (Ht & _). destruct Ho as [Hst Hkind].
  exists (S n1). unfold at_ in *. cbn. rewrite Ht.
  rewrite (parseStmt_stmtOf _ tok st Hst), Hkind, advance_cons, H1. reflexivity.
Qed.

Lemma RC_else stmt body elifs tok ts eb etok ts' :
  isStmt StmtElse tok ->
  RunsNodes [StmtEndIf] [] ts (inr (eb, at_ (etok :: ts'))) ->
  isStmt StmtEndIf etok ->
  RunsChain stmt body elifs (tok :: ts) (inr (ifBlock stmt body elifs eb, at_ ts')).
Proof.
  intros Hs [n1 H1] He.
  destruct (isStmt_stmtOf _ tok Hs) as (st & Hst & Hkind & _); [discriminate|].
  destruct (isStmt_stmtOf _ etok He) as (est & Hest & Hekind & _); [discriminate|].
  destruct Hs as [Ht _]. destruct He as [Het _].
  exists (S n1). unfold at_ in *. cbn. rewrite Ht.
  rewrite (parseStmt_stmtOf _ tok st Hst), Hkind, advance_cons, H1. cbn.
  rewrite Het, (parseStmt_stmtOf _ etok est Hest), Hekind, advance_cons. reflexivity.
Qed.

Lemma RC_else_err stmt body elifs tok ts err :
  isStmt StmtElse tok ->
  RunsNodes [StmtEndIf] [] ts (inl err) ->
  RunsChain stmt body elifs (tok :: ts) (inl err).
Proof.
  intros Hs [n1 H1].
  destruct (isStmt_stmtOf _ tok Hs) as (st & Hst & Hkind & _); [discriminate|].
  destruct Hs as [Ht _].
  exists (S n1). unfold at_ in *. cbn. rewrite Ht.
  rewrite (parseStmt_stmtOf _ tok st Hst), Hkind, advance_cons, H1. reflexivity.
Qed.

Lemma RC_else_eof stmt body elifs tok ts eb tail :
  isStmt StmtElse tok ->
  RunsNodes [StmtEndIf] [] ts (inr (eb, at_ tail)) -> atEOF tail ->
  RunsChain stmt body elifs (tok :: ts)
    (inl (UnmatchedBlockError (stmtPos stmt) StmtIf)).
Proof.
  intros Hs [n1 H1] Heof.
  destruct (isStmt_stmtOf _ tok Hs) as (st & Hst & Hkind & _); [discriminate|].
  destruct Hs as [Ht _].
  exists (S n1). unfold at_ in *. cbn. rewrite Ht.
  rewrite (parseStmt_stmtOf _ tok st Hst), Hkind, advance_cons, H1.
  apply atEOF_cases in Heof as [-> | (etok & tl & -> & Het)]; cbn;
    [reflexivity | rewrite Het; reflexivity].
Qed.

(** *** Balanced sequences are parsed as the nodes they stand for *)

Lemma RN_stops stopOn nodes ts :
  startsWithStop stopOn ts -> RunsNodes stopOn nodes ts (inr (nodes, at_ ts)).
Proof. intros (tok & rest & k & -> & Hs & Hc). exact (RN_stop _ _ _ _ _ Hs Hc). Qed.

Lemma opens_isStmt k tok stmt : opens k tok stmt -> isStmt k tok.
Proof. intros Ho. destruct (opens_facts _ _ _ Ho) as (Ht & Hk & _). split; assumption. Qed.

Lemma Chain_starts chain elifs els X :
  Chain chain elifs els -> startsWithStop chainStop (chain ++ X).
Proof.
  intros [tok Hs | tok stmt body bns rest es el Ho _ _ | tok body bns etok Hs _ _].
  - exists tok, X, StmtEndIf. repeat split; [apply Hs | apply Hs].
  - exists tok, ((body ++ rest) ++ X), StmtElif.
    split; [reflexivity|]. split; [exact (opens_isStmt _ _ _ Ho) | reflexivity].
  - exists tok, ((body ++ [etok]) ++ X), StmtElse.
    repeat split; [apply Hs | apply Hs].
Qed.

Lemma balanced_sound :
  (forall items ns, Balanced items ns ->
     forall stopOn nodes X r,
       containsKind stopOn StmtFor = false -> containsKind stopOn StmtIf = false ->
       RunsNodes stopOn (nodes ++ ns) X r ->
       RunsNodes stopOn nodes (items ++ X) r) /\
  (forall chain elifs' els, Chain chain elifs' els ->
     forall stmt body elifs X,
       RunsChain stmt body elifs (chain ++ X)
         (inr (ifBlock stmt body (elifs ++ elifs') els, at_ X))).
Proof.
  apply Balanced_Chain_ind.
  - intros stopOn nodes X r _ _ H. rewrite app_nil_r in H. exact H.
  - intros tok ts ns Ht _ IH stopOn nodes X r Hf Hi H.
    apply RN_text; [exact Ht|]. apply IH; [exact Hf | exact Hi|].
    rewrite <- app_assoc. exact H.
  - intros tok ts ns Ht _ IH stopOn nodes X r Hf Hi H.
    apply RN_expr; [exact Ht|]. apply IH; [exact Hf | exact Hi|].
    rewrite <- app_assoc. exact H.
  - intros tok stmt body bns etok ts ns Ho _ IHb He _ IHt stopOn nodes X r Hf Hi H.
    cbn [app]. rewrite <- app_assoc. cbn [app].
    eapply RN_for; [exact Ho | exact Hf | |].
    + apply (RF_ok stmt _ bns etok (ts ++ X)); [| exact He].
      apply (IHb [StmtEndFor] [] (etok :: ts ++ X)); [reflexivity | reflexivity|].
      apply (RN_stop _ _ _ _ StmtEndFor); [exact He | reflexivity].
    + apply IHt; [exact Hf | exact Hi|]. rewrite <- app_assoc. exact H.
  - intros tok stmt body bns chain elifs els ts ns Ho _ IHb Hch IHc _ IHt
           stopOn nodes X r Hf Hi H.
    cbn [app]. rewrite <- !app_assoc.
    eapply RN_if; [exact Ho | exact Hi | |].
    + eapply RI_chain.
      * apply (IHb chainStop [] (chain ++ ts ++ X)); [reflexivity | reflexivity|].
        apply RN_stops. exact (Chain_starts _ _ _ _ Hch).
      * exact (IHc stmt bns [] (ts ++ X)).
    + apply IHt; [exact Hf | exact Hi|]. rewrite <- app_assoc. exact H.
  - intros tok Hs stmt body elifs X. rewrite app_nil_r. cbn [app].
    apply RC_endif. exact Hs.
  - intros tok st body bns rest elifs' els Ho _ IHb Hch IHc stmt body0 elifs X.
    cbn [app]. rewrite <- app_assoc.
    eapply RC_elif; [exact Ho | |].
    + apply (IHb chainStop [] (rest ++ X)); [reflexivity | reflexivity|].
      apply RN_stops. exact (Chain_starts _ _ _ _ Hch).
    + replace (elifs ++ mkBranch (Expr st) bns (stmtPos st) :: elifs')
        with ((elifs ++ [mkBranch (Expr st) bns (stmtPos st)]) ++ elifs')
        by (rewrite <- app_assoc; reflexivity).
      apply IHc.
  - intros tok body bns etok Hs _ IHb He stmt body0 elifs X.
    cbn [app]. rewrite <- app_assoc, app_nil_r. cbn [app].
    eapply RC_else; [exact Hs | | exact He].
    apply (IHb [StmtEndIf] [] (etok :: X)); [reflexivity | reflexivity|].
    apply (RN_stop _ _ _ _ StmtEndIf); [exact He | reflexivity].
Qed.

Lemma Balanced_runs items ns stopOn nodes X r :
  Balanced items ns ->
  containsKind stopOn StmtFor = false -> containsKind stopOn StmtIf = false ->
  RunsNodes stopOn (nodes ++ ns) X r ->
  RunsNodes stopOn nodes (items ++ X) r.
Proof. intros Hb. exact (proj1 balanced_sound items ns Hb stopOn nodes X r). Qed.

(** *** Errors travel outwards through open blocks *)

Lemma stopOf_closers (fr : Frame) :
  containsKind (stopOf fr) StmtFor = false /\ containsKind (stopOf fr) StmtIf = false.
Proof. destruct fr; split; reflexivity. Qed.

Lemma NodesFail_skip stopOn items ns X err :
  Balanced items ns ->
  containsKind stopOn StmtFor = false -> containsKind stopOn StmtIf = false ->
  NodesFail stopOn X err -> NodesFail stopOn (items ++ X) err.
Proof.
  intros Hb Hf Hi H nodes. eapply Balanced_runs; [exact Hb | exact Hf | exact Hi|].
  apply H.
Qed.

Lemma Elifs_starts elifs tok st Y :
  Elifs elifs -> opens StmtElif tok st ->
  startsWithStop chainStop (elifs ++ tok :: Y).
Proof.
  intros [| tok' st' body ns rest Ho' _ _] Ho.
  - exists tok, Y, StmtElif.
    split; [reflexivity|]. split; [exact (opens_isStmt _ _ _ Ho) | reflexivity].
  - exists tok', ((body ++ rest) ++ tok :: Y), StmtElif.
    split; [reflexivity|]. split; [exact (opens_isStmt _ _ _ Ho') | reflexivity].
Qed.

Lemma Elifs_starts_else elifs tok Y :
  Elifs elifs -> isStmt StmtElse tok ->
  startsWithStop chainStop (elifs ++ tok :: Y).
Proof.
  intros [| tok' st' body ns rest Ho' _ _] Hs.
  - exists tok, Y, StmtElse. split; [reflexivity|]. split; [exact Hs | reflexivity].
  - exists tok', ((body ++ rest) ++ tok :: Y), StmtElif.
    split; [reflexivity|]. split; [exact (opens_isStmt _ _ _ Ho') | reflexivity].
Qed.

(** Complete [elif] branches are read by the chain, which goes on after
    them. *)
Lemma Elifs_runs stmt body elifs Y err :
  Elifs elifs -> startsWithStop chainStop Y ->
  (forall es, RunsChain stmt body es Y (inl err)) ->
  forall es, RunsChain stmt body es (elifs ++ Y) (inl err).
Proof.
  intros He Hy Hfail. induction He as [| tok st b ns rest Ho Hb Hrest IH];
    intros es; [apply Hfail|].
  cbn [app]. rewrite <- app_assoc.
  eapply RC_elif; [exact Ho | | apply IH].
  eapply (Balanced_runs b ns chainStop [] (rest ++ Y));
    [exact Hb | reflexivity | reflexivity|].
  apply RN_stops.
  destruct Hrest as [| tok' st' body' ns' rest' Ho' _ _]; [exact Hy|].
  exists tok', ((body' ++ rest') ++ Y), StmtElif.
  split; [reflexivity|]. split; [exact (opens_isStmt _ _ _ Ho') | reflexivity].
Qed.

(** An error in the body the parser is in is the error of the [if]. *)
Lemma InIf_fails stmt part fr X err :
  InIf stmt part fr -> NodesFail (stopOf fr) X err ->
  RunsIf stmt (part ++ X) (inl err).
Proof.
  intros [body ns Hb | body ns elifs tok st items ins Hb He Ho Hi
          | body ns elifs tok items ins Hb He Hs Hi] Hfail.
  - apply RI_err.
    eapply (Balanced_runs body ns chainStop []); [exact Hb | reflexivity | reflexivity|].
    apply Hfail.
  - rewrite <- !app_assoc. cbn [app].
    eapply RI_chain.
    + eapply (Balanced_runs body ns chainStop []);
        [exact Hb | reflexivity | reflexivity|].
      apply RN_stops. exact (Elifs_starts _ _ _ _ He Ho).
    + apply Elifs_runs; [exact He | |].
      * exists tok, (items ++ X), StmtElif.
        split; [reflexivity|]. split; [exact (opens_isStmt _ _ _ Ho) | reflexivity].
      * intros es. eapply RC_elif_err; [exact Ho|].
        eapply (Balanced_runs items ins chainStop []);
          [exact Hi | reflexivity | reflexivity|].
        apply Hfail.
  - rewrite <- !app_assoc. cbn [app].
    eapply RI_chain.
    + eapply (Balanced_runs body ns chainStop []);
        [exact Hb | reflexivity | reflexivity|].
      apply RN_stops. exact (Elifs_starts_else _ _ _ He Hs).
    + apply Elifs_runs; [exact He | |].
      * exists tok, (items ++ X), StmtElse.
        split; [reflexivity|]. split; [exact Hs | reflexivity].
      * intros es. eapply RC_else_err; [exact Hs|].
        eapply (Balanced_runs items ins [StmtEndIf] []);
          [exact Hi | reflexivity | reflexivity|].
        apply Hfail.
Qed.

(** The input ends inside an [if]: the error of the [if]. *)
Lemma InIf_eof stmt part fr tail :
  InIf stmt part fr -> atEOF tail ->
  RunsIf stmt (part ++ tail) (inl (UnmatchedBlockError (stmtPos stmt) StmtIf)).
Proof.
  intros [body ns Hb | body ns elifs tok st items ins Hb He Ho Hi
          | body ns elifs tok items ins Hb He Hs Hi] Heof.
  - eapply RI_chain; [| apply RC_eof; exact Heof].
    eapply (Balanced_runs body ns chainStop []); [exact Hb | reflexivity | reflexivity|].
    apply RN_eof. exact Heof.
  - rewrite <- !app_assoc. cbn [app].
    eapply RI_chain.
    + eapply (Balanced_runs body ns chainStop []);
        [exact Hb | reflexivity | reflexivity|].
      apply RN_stops. exact (Elifs_starts _ _ _ _ He Ho).
    + apply Elifs_runs; [exact He | |].
      * exists tok, (items ++ tail), StmtElif.
        split; [reflexivity|]. split; [exact (opens_isStmt _ _ _ Ho) | reflexivity].
      * intros es. eapply RC_elif; [exact Ho | | apply RC_eof; exact Heof].
        eapply (Balanced_runs items ins chainStop []);
          [exact Hi | reflexivity | reflexivity|].
        apply RN_eof. exact Heof.
  - rewrite <- !app_assoc. cbn [app].
    eapply RI_chain.
    + eapply (Balanced_runs body ns chainStop []);
        [exact Hb | reflexivity | reflexivity|].
      apply RN_stops. exact (Elifs_starts_else _ _ _ He Hs).
    + apply Elifs_runs; [exact He | |].
      * exists tok, (items ++ tail), StmtElse.
        split; [reflexivity|]. split; [exact Hs | reflexivity].
      * intros es. eapply RC_else_eof; [exact Hs | | exact Heof].
        eapply (Balanced_runs items ins [StmtEndIf] []);
          [exact Hi | reflexivity | reflexivity|].
        apply RN_eof. exact Heof.
Qed.

(** An error of [parseNodes] in the innermost open block is the result
    of the whole parse. *)
Lemma OpenCtx_fails pre fr :
  OpenCtx pre fr ->
  forall X err, NodesFail (stopOf fr) X err -> NodesFail [] (pre ++ X) err.
Proof.
  induction 1 as [items ns Hb | pre fr tok stmt items ns _ IH Ho Hb
                  | pre fr tok stmt part fr' _ IH Ho Hin]; intros X err Hfail.
  - apply (NodesFail_skip [] items ns); [exact Hb | reflexivity | reflexivity|].
    exact Hfail.
  - rewrite <- app_assoc. cbn [app]. apply IH. intros nodes.
    destruct (stopOf_closers fr) as [Hf _].
    eapply RN_for_err; [exact Ho | exact Hf|].
    apply RF_err.
    eapply (Balanced_runs items ns [StmtEndFor] []);
      [exact Hb | reflexivity | reflexivity|].
    apply Hfail.
  - rewrite <- app_assoc. cbn [app]. apply IH. intros nodes.
    destruct (stopOf_closers fr) as [_ Hi].
    eapply RN_if_err; [exact Ho | exact Hi|].
    exact (InIf_fails _ _ _ _ _ Hin Hfail).
Qed.

(** The input ends inside an open block. *)
Lemma OpenCtx_eof pre fr tail :
  OpenCtx pre fr -> atEOF tail ->
  match fr with
  | FTop => True
  | FFor stmt =>
      NodesFail [] (pre ++ tail) (UnmatchedBlockError (stmtPos stmt) StmtFor)
  | FIf stmt | FElif stmt | FElse stmt =>
      NodesFail [] (pre ++ tail) (UnmatchedBlockError (stmtPos stmt) StmtIf)
  end.
Proof.
  intros [items ns Hb | pre0 fr0 tok stmt items ns Hctx Ho Hb
          | pre0 fr0 tok stmt part fr' Hctx Ho Hin] Heof.
  - exact I.
  - rewrite <- app_assoc. cbn [app]. apply (OpenCtx_fails _ _ Hctx). intros nodes.
    destruct (stopOf_closers fr0) as [Hf _].
    eapply RN_for_err; [exact Ho | exact Hf|].
    eapply RF_eof; [| exact Heof].
    eapply (Balanced_runs items ns [StmtEndFor] []);
      [exact Hb | reflexivity | reflexivity|].
    apply RN_eof. exact Heof.
  - assert (Hif : NodesFail [] ((pre0 ++ tok :: part) ++ tail)
                    (UnmatchedBlockError (stmtPos stmt) StmtIf)).
    { rewrite <- app_assoc. cbn [app]. apply (OpenCtx_fails _ _ Hctx). intros nodes.
      destruct (stopOf_closers fr0) as [_ Hi].
      eapply RN_if_err; [exact Ho | exact Hi|].
      exact (InIf_eof _ _ _ _ Hin Heof). }
    destruct Hin; exact Hif.
Qed.

(** From a run to [Parse]. *)
Lemma Parse_fails ts err :
  NodesFail [] ts err -> Parse (NewParser ts f) = Some (inl err).
Proof.
  intros Hfail. destruct (Hfail []) as [n Hn].
  unfold Parse, NewParser, parseFuel. cbn [tokens].
  destruct (proj1 (fuel_enough (2 * length ts + 1)) [] [] (at_ ts)) as (r & Hr & _);
    [unfold at_; cbn [tokens]; lia|].
  unfold at_ in *. rewrite Hr.
  pose proof (nodes_mono n (Nat.max n (2 * length ts + 1)) _ _ _ _ ltac:(lia) Hn) as H1.
  pose proof (nodes_mono (2 * length ts + 1) (Nat.max n (2 * length ts + 1)) _ _ _ _ ltac:(lia) Hr) as H2.
  rewrite H1 in H2. injection H2 as <-. reflexivity.
Qed.

Lemma Parse_balanced items ns tail :
  Balanced items ns -> atEOF tail ->
  Parse (NewParser (items ++ tail) f) = Some (inr (mkTemplate ns f)).
Proof.
  intros Hb Heof.
  destruct (Balanced_runs items ns [] [] tail (inr (ns, at_ tail)) Hb eq_refl eq_refl)
    as [n Hn]; [apply RN_eof; exact Heof|].
  unfold Parse, NewParser, parseFuel. cbn [tokens].
  destruct (proj1 (fuel_enough (2 * length (items ++ tail) + 1)) [] []
              (at_ (items ++ tail))) as (r & Hr & _); [unfold at_; cbn [tokens]; lia|].
  unfold at_ in *. rewrite Hr.
  pose proof (nodes_mono n (Nat.max n (2 * length (items ++ tail) + 1))
                _ _ _ _ ltac:(lia) Hn) as H1.
  pose proof (nodes_mono (2 * length (items ++ tail) + 1)
                (Nat.max n (2 * length (items ++ tail) + 1))
                _ _ _ _ ltac:(lia) Hr) as H2.
  rewrite H1 in H2. injection H2 as <-. reflexivity.
Qed.

End Runs.

(** [Parse] always returns: its budget is never used up. *)
Lemma Parse_total (p : Parser) : exists r, Parse p = Some r.
Proof.
  unfold Parse, parseFuel.
  destruct (proj1 (fuel_enough (2 * length (tokens p) + 1)) [] [] p) as (r & Hr & _);
    [lia|].
  rewrite Hr. destruct r as [err | [nodes p']]; eauto.
Qed.

(** C4.  Whatever blocks are open around it ([OpenCtx pre fr]):
    a [for] block whose body, a balanced sequence, reaches the end of
    the input fails with [UnmatchedBlock] of kind [for], at the [for]
    statement; an [if] block that the end of the input leaves in its
    first body, in an [elif] body or in its [else] body fails with
    [UnmatchedBlock] of kind [if], at the [if] statement; and an [elif],
    [else], [endfor] or [endif] statement that does not end the body the
    parser is in fails with [UnmatchedBlock] of that statement's own
    kind, at that statement. *)
Theorem unmatched_block_errors :
  forall (f : string) (pre : list Token) (fr : Frame),
    OpenCtx pre fr ->
    (forall tok stmt body ns tail,
       opens StmtFor tok stmt -> Balanced body ns -> atEOF tail ->
       Parse (NewParser (pre ++ tok :: body ++ tail) f)
       = Some (inl (UnmatchedBlockError (Pos tok) StmtFor))) /\
    (forall tok stmt part fr' tail,
       opens StmtIf tok stmt -> InIf stmt part fr' -> atEOF tail ->
       Parse (NewParser (pre ++ tok :: part ++ tail) f)
       = Some (inl (UnmatchedBlockError (Pos tok) StmtIf))) /\
    (forall tok k rest,
       isStmt k tok -> isCloser k = true -> containsKind (stopOf fr) k = false ->
       Parse (NewParser (pre ++ tok :: rest) f)
       = Some (inl (UnmatchedBlockError (Pos tok) k))).
Proof.
  intros f pre fr Hctx. split; [| split].
  - intros tok stmt body ns tail Ho Hb Heof.
    destruct (opens_facts _ _ _ Ho) as (_ & _ & Hpos).
    pose proof (OpenCtx_eof f _ _ tail (Ctx_for _ _ _ _ _ _ Hctx Ho Hb) Heof) as H.
    cbn in H. rewrite <- app_assoc in H. cbn [app] in H. rewrite Hpos in H.
    apply Parse_fails. exact H.
  - intros tok stmt part fr' tail Ho Hin Heof.
    destruct (opens_facts _ _ _ Ho) as (_ & _ & Hpos).
    pose proof (OpenCtx_eof f _ _ tail (Ctx_if _ _ _ _ _ _ Hctx Ho Hin) Heof) as H.
    rewrite <- app_assoc in H. cbn [app] in H.
    apply Parse_fails.
    destruct Hin; cbn in H; rewrite Hpos in H; exact H.
  - intros tok k rest Hs Hcl Hc.
    apply Parse_fails. apply (OpenCtx_fails f _ _ Hctx). intros nodes.
    apply RN_stray; assumption.
Qed.

End ParserFacts.

Section ParserInstances.

Lemma unmatched_block_errors_witness :
  OpenCtx [] FTop /\
  Parse (NewParser Sample.unmatchedForTokens "test.sql")
  = Some (inl (UnmatchedBlockError (mkPos "test.sql" 1 1) StmtFor)).
Proof.
  split; [exact (Ctx_top [] [] Bal_nil)|].
  refine (proj1 (unmatched_block_errors "test.sql" [] FTop (Ctx_top [] [] Bal_nil))
            (mkToken TokenStmt "for x in items:" (mkPos "test.sql" 1 1))
            (mkStmt (mkPos "test.sql" 1 1) StmtFor "x" "items")
            [mkToken TokenText "body" (mkPos "test.sql" 1 22);
             mkToken TokenExpr "x" (mkPos "test.sql" 2 1)]
            _
            [mkToken TokenEOF EmptyString (mkPos "test.sql" 2 8)]
            _ _ _).
  - split; reflexivity.
  - apply Bal_text; [reflexivity|]. apply Bal_expr; [reflexivity|]. apply Bal_nil.
  - reflexivity.
Defined.

End ParserInstances.

(** ** Regular expressions: the optional trailing colon *)

Section RegexFacts.

Import Regex.

Lemma flat_map_nil {A C : Type} (g : A -> list C) (l : list A) :
  (forall x, In x l -> g x = []) -> flat_map g l = [].
Proof.
  induction l as [| a l IH]; intros H; [reflexivity|].
  cbn. rewrite (H a (or_introl eq_refl)). apply IH. intros x Hx. apply H. right. exact Hx.
Qed.

Lemma flat_map_assoc {A C D : Type} (g : A -> list C) (h : C -> list D) (l : list A) :
  flat_map h (flat_map g l) = flat_map (fun x => flat_map h (g x)) l.
Proof.
  induction l as [| a l IH]; [reflexivity|].
  cbn. rewrite flat_map_app, IH. reflexivity.
Qed.

Lemma flat_map_map_l {A C D : Type} (g : A -> C) (h : C -> list D) (l : list A) :
  flat_map h (map g l) = flat_map (fun x => h (g x)) l.
Proof. induction l as [| a l IH]; [reflexivity|]. cbn. rewrite IH. reflexivity. Qed.

Lemma map_flat_map {A C D : Type} (g : A -> list C) (h : C -> D) (l : list A) :
  map h (flat_map g l) = flat_map (fun x => map h (g x)) l.
Proof.
  induction l as [| a l IH]; [reflexivity|]. cbn. rewrite map_app, IH. reflexivity.
Qed.

(** A pattern in two parts runs its first part, then its second. *)
Lemma run_cat_app (ps qs : list regex) (st : mstate) :
  run (cat (ps ++ qs)) st = flat_map (run (cat qs)) (run (cat ps) st).
Proof.
  revert st. induction ps as [| p ps IH]; intros st.
  - cbn. rewrite app_nil_r. reflexivity.
  - cbn [app cat fold_right run]. fold (cat (ps ++ qs)). fold (cat ps).
    rewrite flat_map_assoc. apply flat_map_ext. intros s. apply IH.
Qed.

(** *** What a run consumes *)

Lemma in_allBytes (c : ascii) : In c allBytes.
Proof.
  unfold allBytes. apply in_map_iff. exists (nat_of_ascii c).
  split; [apply ascii_nat_embedding|]. apply in_seq.
  pose proof (nat_ascii_bounded c). lia.
Qed.

Lemma clsWithin_spec P k c : clsWithin P k = true -> inCls k c = true -> P c = true.
Proof.
  unfold clsWithin. rewrite forallb_forall. intros H Hc.
  specialize (H c (in_allBytes c)). rewrite Hc in H. exact H.
Qed.

Lemma spanLen_le k l : spanLen k l <= length l.
Proof. induction l as [| c l IH]; cbn; [lia|]. destruct (inCls k c); cbn; lia. Qed.

Lemma spanLen_take k l j : j <= spanLen k l -> forallb (inCls k) (take j l) = true.
Proof.
  revert j. induction l as [| c l IH]; intros [| j] Hj; cbn in *; try reflexivity; try lia.
  destruct (inCls k c) eqn:Hc; [| lia]. cbn. apply IH. lia.
Qed.

Lemma forallb_impl {A} (P Q : A -> bool) l :
  (forall x, P x = true -> Q x = true) -> forallb P l = true -> forallb Q l = true.
Proof.
  intros H. induction l as [| a l IH]; cbn; [reflexivity|].
  intros [Ha Hl]%andb_true_iff. rewrite (H a Ha), (IH Hl). reflexivity.
Qed.

Lemma hasPrefix_spec p l : hasPrefix p l = true -> take (length p) l = p /\ length p <= length l.
Proof.
  revert l. induction p as [| x p IH]; intros l H; [split; [reflexivity | cbn; lia]|].
  destruct l as [| y l]; [discriminate|]. cbn in H.
  apply andb_true_iff in H as [Hxy H]. apply Ascii.eqb_eq in Hxy. subst y.
  destruct (IH l H) as [Ht Hl]. cbn. rewrite Ht. split; [reflexivity | lia].
Qed.

Lemma advanceBy_consumes st j : j <= length (rest st) -> consumes st j (advanceBy st j).
Proof. intros Hj. unfold consumes, advanceBy; cbn. auto. Qed.

Lemma run_consumes (P : ascii -> bool) (r : regex) :
  alphabet P r = true ->
  forall st st', In st' (run r st) ->
    exists j, consumes st j st' /\ forallb P (take j (rest st)) = true.
Proof.
  induction r as [| | s | k | k | k | k | r IH | | r1 IH1 r2 IH2]; cbn [alphabet run];
    intros Ha st st' Hin.
  - destruct (Nat.eqb (consumed st) 0); [| destruct Hin].
    destruct Hin as [<- | []]. exists 0. split; [| reflexivity].
    unfold consumes. rewrite Nat.add_0_r, drop_0. auto with arith.
  - destruct (rest st) eqn:Hr; [| destruct Hin].
    destruct Hin as [<- | []]. exists 0. split; [| reflexivity].
    unfold consumes. rewrite Nat.add_0_r, drop_0. auto with arith.
  - destruct (hasPrefix (B s) (rest st)) eqn:Hp; [| destruct Hin].
    destruct Hin as [<- | []]. destruct (hasPrefix_spec _ _ Hp) as [Ht Hl].
    exists (length (B s)). split; [apply advanceBy_consumes; exact Hl|].
    rewrite Ht. exact Ha.
  - apply in_map_iff in Hin as (j & <- & Hj). apply in_rev, in_seq in Hj.
    pose proof (spanLen_le k (rest st)).
    exists j. split; [apply advanceBy_consumes; lia|].
    apply (forallb_impl (inCls k)); [intros c; apply clsWithin_spec; exact Ha|].
    apply spanLen_take. lia.
  - apply in_map_iff in Hin as (j & <- & Hj). apply in_rev, in_seq in Hj.
    pose proof (spanLen_le k (rest st)).
    exists j. split; [apply advanceBy_consumes; lia|].
    apply (forallb_impl (inCls k)); [intros c; apply clsWithin_spec; exact Ha|].
    apply spanLen_take. lia.
  - apply in_map_iff in Hin as (j & <- & Hj). apply in_seq in Hj.
    pose proof (spanLen_le k (rest st)).
    exists j. split; [apply advanceBy_consumes; lia|].
    apply (forallb_impl (inCls k)); [intros c; apply clsWithin_spec; exact Ha|].
    apply spanLen_take. lia.
  - assert (H0 : consumes st 0 st).
    { unfold consumes. rewrite Nat.add_0_r, drop_0. auto with arith. }
    destruct (rest st) as [| c l] eqn:Hr.
    + destruct Hin as [<- | []]. exists 0. split; [exact H0 | reflexivity].
    + destruct (inCls k c) eqn:Hc.
      * destruct Hin as [<- | [<- | []]].
        -- exists 1. split; [apply advanceBy_consumes; rewrite Hr; cbn; lia|].
           cbn. rewrite (clsWithin_spec P k c Ha Hc). reflexivity.
        -- exists 0. split; [exact H0 | reflexivity].
      * destruct Hin as [<- | []]. exists 0. split; [exact H0 | reflexivity].
  - apply in_map_iff in Hin as (s' & <- & Hs').
    destruct (IH Ha st s' Hs') as (j & Hj & HP).
    exists j. split; [exact Hj | exact HP].
  - destruct Hin as [<- | []]. exists 0. split; [| reflexivity].
    unfold consumes. rewrite Nat.add_0_r, drop_0. auto with arith.
  - apply andb_true_iff in Ha as [Ha1 Ha2].
    apply in_flat_map in Hin as (s1 & Hs1 & Hs2).
    destruct (IH1 Ha1 st s1 Hs1) as (j1 & (Hc1 & Hl1 & Hr1) & HP1).
    destruct (IH2 Ha2 s1 st' Hs2) as (j2 & (Hc2 & Hl2 & Hr2) & HP2).
    rewrite Hr1 in Hl2, Hr2, HP2. rewrite length_drop in Hl2.
    exists (j1 + j2). split.
    + unfold consumes. rewrite Hc2, Hc1, Hr2, drop_drop. repeat split; lia.
    + rewrite <- take_take_drop, forallb_app, HP1, HP2. reflexivity.
Qed.

(** *** Appending a colon to the text *)

Lemma hasPrefix_colon p l :
  forallb notColon p = true -> hasPrefix p (l ++ [":"%char]) = hasPrefix p l.
Proof.
  revert l. induction p as [| x p IH]; intros l Hp; [reflexivity|].
  cbn in Hp. apply andb_true_iff in Hp as [Hx Hp].
  destruct l as [| y l]; cbn.
  - unfold notColon in Hx. destruct (Ascii.eqb x ":"); [discriminate | reflexivity].
  - rewrite (IH l Hp). reflexivity.
Qed.

Lemma spanLen_colon k l :
  inCls k ":" = false -> spanLen k (l ++ [":"%char]) = spanLen k l.
Proof.
  intros Hk. induction l as [| c l IH]; cbn; [rewrite Hk; reflexivity|].
  rewrite IH. reflexivity.
Qed.

Lemma clsWithin_notColon k : clsWithin notColon k = true -> inCls k ":" = false.
Proof.
  intros H. destruct (inCls k ":") eqn:Hc; [| reflexivity].
  pose proof (clsWithin_spec _ _ _ H Hc) as Hn. discriminate Hn.
Qed.

Lemma advanceBy_withColon st j :
  j <= length (rest st) -> advanceBy (withColon st) j = withColon (advanceBy st j).
Proof.
  intros Hj. unfold advanceBy, withColon; cbn. rewrite drop_app_le by exact Hj. reflexivity.
Qed.

Lemma map_advanceBy_withColon st (js : list nat) :
  (forall j, In j js -> j <= length (rest st)) ->
  map (advanceBy (withColon st)) js = map withColon (map (advanceBy st) js).
Proof.
  intros H. rewrite map_map. apply map_ext_in. intros j Hj.
  apply advanceBy_withColon, H, Hj.
Qed.

Lemma run_withColon (r : regex) :
  colonBlind r = true ->
  forall st, run r (withColon st) = map withColon (run r st).
Proof.
  unfold colonBlind.
  induction r as [| | s | k | k | k | k | r IH | | r1 IH1 r2 IH2];
    intros [Ha Hn]%andb_true_iff st; cbn [alphabet noEnd] in Ha, Hn; try discriminate Hn.
  - cbn. destruct (Nat.eqb (consumed st) 0); reflexivity.
  - cbn [run]. change (rest (withColon st)) with (rest st ++ [":"%char]).
    rewrite (hasPrefix_colon _ _ Ha).
    destruct (hasPrefix (B s) (rest st)) eqn:Hp; [| reflexivity].
    cbn [map]. rewrite advanceBy_withColon; [reflexivity|].
    apply hasPrefix_spec, Hp.
  - cbn [run]. change (rest (withColon st)) with (rest st ++ [":"%char]).
    rewrite (spanLen_colon _ _ (clsWithin_notColon _ Ha)).
    apply map_advanceBy_withColon. intros j Hj%in_rev%in_seq.
    pose proof (spanLen_le k (rest st)). lia.
  - cbn [run]. change (rest (withColon st)) with (rest st ++ [":"%char]).
    rewrite (spanLen_colon _ _ (clsWithin_notColon _ Ha)).
    apply map_advanceBy_withColon. intros j Hj%in_rev%in_seq.
    pose proof (spanLen_le k (rest st)). lia.
  - cbn [run]. change (rest (withColon st)) with (rest st ++ [":"%char]).
    rewrite (spanLen_colon _ _ (clsWithin_notColon _ Ha)).
    apply map_advanceBy_withColon. intros j Hj%in_seq.
    pose proof (spanLen_le k (rest st)). lia.
  - cbn [run]. change (rest (withColon st)) with (rest st ++ [":"%char]).
    destruct (rest st) as [| c l] eqn:Hr.
    + cbn [app]. rewrite (clsWithin_notColon _ Ha). reflexivity.
    + cbn [app]. destruct (inCls k c); [| reflexivity].
      cbn [map]. rewrite advanceBy_withColon; [reflexivity|]. rewrite Hr. cbn. lia.
  - cbn [run]. rewrite IH by (rewrite Ha, Hn; reflexivity).
    rewrite !map_map. apply map_ext_in. intros s' Hs'.
    destruct (run_consumes notColon r Ha st s' Hs') as (j & (Hc & Hl & Hr) & _).
    unfold closeGroup, withColon; cbn.
    rewrite take_app_le by lia. reflexivity.
  - reflexivity.
  - apply andb_true_iff in Ha as [Ha1 Ha2]. apply andb_true_iff in Hn as [Hn1 Hn2].
    cbn [run]. rewrite IH1 by (rewrite Ha1, Hn1; reflexivity).
    rewrite flat_map_map_l, map_flat_map. apply flat_map_ext. intros s'.
    apply IH2. rewrite Ha2, Hn2. reflexivity.
Qed.

(** *** The tail shared by the three patterns: [(.+?)\s*:?\s*$] *)

Lemma alphabet_true (r : regex) : alphabet (fun _ => true) r = true.
Proof.
  assert (Hk : forall k, clsWithin (fun _ => true) k = true).
  { intros k. unfold clsWithin. apply forallb_forall. intros c _. apply implb_true_r. }
  induction r as [| | s | k | k | k | k | r IH | | r1 IH1 r2 IH2];
    cbn [alphabet]; auto.
  - apply forallb_forall. reflexivity.
  - rewrite IH1, IH2. reflexivity.
Qed.

(** What runs to [$] has nothing left. *)
Lemma run_to_end (ps : list regex) (st s' : mstate) :
  In s' (run (cat (ps ++ [REnd])) st) -> In s' (run (cat ps) st) /\ rest s' = [].
Proof.
  rewrite run_cat_app. intros (s1 & Hs1 & Hs')%in_flat_map.
  cbn in Hs'. destruct (rest s1) eqn:Hr; cbn in Hs'; [| destruct Hs'].
  destruct Hs' as [<- | []]. split; [exact Hs1 | exact Hr].
Qed.

(** The closer fails when a byte that is neither white space nor a colon
    is left. *)
Lemma closer_stuck (st : mstate) (c : ascii) :
  In c (rest st) -> spaceOrColon c = false -> run (cat closer) st = [].
Proof.
  intros Hc Hbad. destruct (run (cat closer) st) as [| s' l] eqn:Hrun; [reflexivity|].
  exfalso.
  assert (Hin : In s' (run (cat closer) st)) by (rewrite Hrun; left; reflexivity).
  apply (run_to_end [RStar Space; ROpt (Chr ":"); RStar Space]) in Hin as [Hin Hend].
  apply (run_consumes spaceOrColon) in Hin as (j & (_ & Hl & Hr) & HP); [| reflexivity].
  rewrite Hend in Hr. symmetry in Hr. apply drop_nil_inv in Hr.
  rewrite take_ge in HP by exact Hr.
  rewrite forallb_forall in HP. rewrite (HP c Hc) in Hbad. discriminate.
Qed.

Lemma closer_at_end (st : mstate) :
  rest st = [] -> exists s', run (cat closer) st = [s'] /\ caps s' = caps st.
Proof. destruct st as [n r cs]; cbn. intros ->. cbn. eexists. split; reflexivity. Qed.

Lemma closer_at_colon (st : mstate) :
  rest st = [":"%char] -> exists s', run (cat closer) st = [s'] /\ caps s' = caps st.
Proof. destruct st as [n r cs]; cbn. intros ->. cbn. eexists. split; reflexivity. Qed.

Lemma spanLen_app k l1 l2 :
  spanLen k (l1 ++ l2) =
  if Nat.eqb (spanLen k l1) (length l1) then length l1 + spanLen k l2 else spanLen k l1.
Proof.
  induction l1 as [| c l1 IH]; [reflexivity|]. cbn [app spanLen length].
  destruct (inCls k c); [| reflexivity]. rewrite IH. cbn [Nat.eqb].
  destruct (Nat.eqb (spanLen k l1) (length l1)); reflexivity.
Qed.

Lemma run_tail (st : mstate) :
  run (cat tailItems) st = flat_map (attempt st) (seq 1 (spanLen Dot (rest st))).
Proof.
  cbn [tailItems cat fold_right run]. rewrite !flat_map_map_l. reflexivity.
Qed.

Lemma attempt_stuck (st : mstate) (r0 suf : bytes) (c : ascii) (j : nat) :
  rest st = r0 ++ c :: suf -> spaceOrColon c = false -> j <= length r0 ->
  attempt st j = [].
Proof.
  intros Hr Hbad Hj. apply (closer_stuck _ c); [| exact Hbad].
  cbn. rewrite Hr, drop_app_le by exact Hj. apply in_or_app. right. left. reflexivity.
Qed.

Lemma attempts_stuck (st : mstate) (r0 suf : bytes) (c : ascii) (n : nat) :
  rest st = r0 ++ c :: suf -> spaceOrColon c = false -> n <= length r0 ->
  flat_map (attempt st) (seq 1 n) = [].
Proof.
  intros Hr Hbad Hn. apply flat_map_nil. intros j Hj%in_seq.
  apply (attempt_stuck st r0 suf c); [exact Hr | exact Hbad | lia].
Qed.

Lemma tail_colon (st : mstate) (r0 : bytes) (c : ascii) :
  rest st = r0 ++ [c] -> spaceOrColon c = false ->
  sameOutcome (run (cat tailItems) st) (run (cat tailItems) (withColon st)).
Proof.
  intros Hr Hbad. rewrite !run_tail.
  assert (Hr' : rest (withColon st) = r0 ++ c :: [":"%char]).
  { cbn. rewrite Hr, <- app_assoc. reflexivity. }
  rewrite Hr' at 1. rewrite Hr at 1.
  change (r0 ++ [c; ":"%char]) with (r0 ++ [c] ++ [":"%char]).
  rewrite app_assoc, (spanLen_app Dot (r0 ++ [c]) [":"%char]).
  pose proof (spanLen_le Dot (r0 ++ [c])) as Hle.
  rewrite length_app in *. cbn [length] in *.
  destruct (Nat.eqb (spanLen Dot (r0 ++ [c])) (length r0 + 1)) eqn:He.
  - apply Nat.eqb_eq in He. rewrite He.
    change (spanLen Dot [":"%char]) with 1.
    replace (length r0 + 1) with (length r0 + 1 + 0) at 1 by lia.
    replace (length r0 + 1 + 1) with (length r0 + 2) by lia.
    rewrite (Nat.add_0_r (length r0 + 1)).
    rewrite !seq_app, !flat_map_app.
    rewrite (attempts_stuck st r0 [] c) by (try lia; assumption).
    rewrite (attempts_stuck (withColon st) r0 [":"%char] c) by (try lia; assumption).
    cbn [seq flat_map app].
    destruct (closer_at_end (closeGroup st (advanceBy st (1 + length r0)))) as (a & Ha & Hca).
    { cbn. rewrite Hr. apply drop_ge. rewrite length_app. cbn. lia. }
    destruct (closer_at_colon (closeGroup (withColon st) (advanceBy (withColon st) (1 + length r0))))
      as (b & Hb & Hcb).
    { cbn. rewrite Hr. rewrite drop_app_length'; [reflexivity|]. rewrite length_app. cbn. lia. }
    unfold attempt. rewrite Ha, Hb. cbn [app sameOutcome].
    rewrite Hca, Hcb. cbn. rewrite Hr.
    replace (consumed st + S (length r0) - consumed st) with (length (r0 ++ [c]))
      by (rewrite length_app; cbn; lia).
    rewrite take_app_length, firstn_all. reflexivity.
  - apply Nat.eqb_neq in He.
    rewrite (attempts_stuck st r0 [] c) by (try lia; assumption).
    rewrite (attempts_stuck (withColon st) r0 [":"%char] c) by (try lia; assumption).
    exact I.
Qed.

(** *** A colon-blind prefix that ends in [\s+], then the tail *)

Lemma sameOutcome_flat_map (g : mstate -> list mstate) (sts : list mstate) :
  (forall s, In s sts -> sameOutcome (g s) (g (withColon s))) ->
  sameOutcome (flat_map g sts) (flat_map g (map withColon sts)).
Proof.
  induction sts as [| s sts IH]; intros H; [exact I|].
  cbn [map flat_map].
  pose proof (H s (or_introl eq_refl)) as Hs.
  destruct (g s) as [| x xs], (g (withColon s)) as [| y ys]; cbn in Hs |- *;
    try contradiction; try exact Hs.
  apply IH. intros s' Hs'. apply H. right. exact Hs'.
Qed.

(** After the prefix a text that ends in a byte that is not white space
    still ends in that byte, and is not used up. *)
Lemma prefix_leaves_end (ps : list regex) (st s : mstate) (r0 : bytes) (c : ascii) :
  rest st = r0 ++ [c] -> inCls Space c = false ->
  In s (run (cat (ps ++ [RPlus Space])) st) ->
  exists r1, rest s = r1 ++ [c].
Proof.
  intros Hr Hc. rewrite run_cat_app. intros (s1 & Hs1 & Hs)%in_flat_map.
  apply (run_consumes (fun _ => true)) in Hs1 as (j & (_ & Hj & Hr1) & _);
    [| apply alphabet_true].
  cbn in Hs. rewrite flat_map_map_l in Hs.
  apply in_flat_map in Hs as (k & Hk%in_rev%in_seq & [<- | []]).
  pose proof (spanLen_take Space (rest s1) k ltac:(lia)) as Hsp.
  pose proof (spanLen_le Space (rest s1)) as Hle.
  rewrite Hr1 in Hsp, Hle, Hk. rewrite length_drop in Hle.
  rewrite Hr in Hj, Hle, Hsp, Hk. rewrite length_app in Hj, Hle; cbn [length] in Hj, Hle.
  cbn [advanceBy rest]. rewrite Hr1, Hr, drop_drop.
  destruct (Nat.le_gt_cases (j + k) (length r0)) as [Hjk | Hjk].
  - exists (drop (j + k) r0). apply drop_app_le. exact Hjk.
  - exfalso. rewrite drop_app_le in Hsp by lia.
    rewrite take_ge in Hsp by (rewrite length_app, length_drop; cbn; lia).
    rewrite forallb_app in Hsp. cbn [forallb] in Hsp. rewrite Hc in Hsp.
    rewrite andb_false_r in Hsp. discriminate.
Qed.

Lemma spaceOrColon_false (c : ascii) :
  inCls Space c = false -> c <> ":"%char -> spaceOrColon c = false.
Proof.
  intros Hs Hc. unfold spaceOrColon. rewrite Hs. cbn.
  apply Ascii.eqb_neq. exact Hc.
Qed.

Lemma matchAt_colon (ps : list regex) (l : bytes) (c : ascii) (off : nat) :
  colonBlind (cat (ps ++ [RPlus Space])) = true ->
  inCls Space c = false -> c <> ":"%char ->
  groups (matchAt (cat ((ps ++ [RPlus Space]) ++ tailItems)) off (l ++ [c; ":"%char])) =
  groups (matchAt (cat ((ps ++ [RPlus Space]) ++ tailItems)) off (l ++ [c])).
Proof.
  intros Hblind Hs Hc. unfold matchAt.
  change (l ++ [c; ":"%char]) with (l ++ [c] ++ [":"%char]). rewrite app_assoc.
  change (MState off ((l ++ [c]) ++ [":"%char]) []) with (withColon (MState off (l ++ [c]) [])).
  rewrite !(run_cat_app (ps ++ [RPlus Space]) tailItems), (run_withColon _ Hblind).
  set (st := MState off (l ++ [c]) []).
  pose proof (sameOutcome_flat_map (run (cat tailItems)) (run (cat (ps ++ [RPlus Space])) st)) as H.
  destruct (flat_map (run (cat tailItems)) (run (cat (ps ++ [RPlus Space])) st)) as [| x xs],
           (flat_map (run (cat tailItems)) (map withColon (run (cat (ps ++ [RPlus Space])) st)))
             as [| y ys]; cbn in H |- *.
  1: reflexivity.
  3: { rewrite H; [reflexivity|]. intros s Hin.
       destruct (prefix_leaves_end ps st s l c eq_refl Hs Hin) as (r1 & Hr1).
       apply (tail_colon s r1 c Hr1). apply spaceOrColon_false; assumption. }
  all: exfalso; apply H; intros s Hin;
    destruct (prefix_leaves_end ps st s l c eq_refl Hs Hin) as (r1 & Hr1);
    apply (tail_colon s r1 c Hr1); apply spaceOrColon_false; assumption.
Qed.

(** A pattern that starts with [^] matches at the start of the text or
    nowhere. *)
Lemma findFrom_later (r : regex) (off : nat) (l : bytes) :
  findFrom (RCat RBegin r) (S off) l = None.
Proof.
  revert off. induction l as [| c l IH]; intros off; [reflexivity|].
  cbn [findFrom]. change (matchAt (RCat RBegin r) (S off) (c :: l)) with (@None (list bytes)).
  apply IH.
Qed.

Lemma findFrom_anchored (r : regex) (l : bytes) :
  findFrom (RCat RBegin r) 0 l = matchAt (RCat RBegin r) 0 l.
Proof.
  destruct l as [| c l]; cbn [findFrom];
    destruct (matchAt (RCat RBegin r) 0 _); try reflexivity.
  apply findFrom_later.
Qed.

End RegexFacts.

(** ** Statements with and without the trailing colon *)

Section ColonFacts.

Import Regex.

Lemma B_app (a b : string) : B (a +:+ b) = B a ++ B b.
Proof.
  induction a as [| x a IH]; [reflexivity|].
  change (x :: B (a +:+ b) = x :: (B a ++ B b)). rewrite IH. reflexivity.
Qed.

Lemma B_inj (a b : string) : B a = B b -> a = b.
Proof. intros H. rewrite <- (S_B a), <- (S_B b), H. reflexivity. Qed.

Lemma stripWith_length (w : bytes -> nat) (n : nat) (l : bytes) :
  length (stripWith w n l) <= length l.
Proof.
  revert l. induction n as [| n IH]; intros l; cbn; [lia|].
  destruct (w l); [lia|]. etransitivity; [apply IH|]. rewrite length_drop. lia.
Qed.

Lemma stripWith_fixed (w : bytes -> nat) (n : nat) (l : bytes) :
  length l <= length (stripWith w (S n) l) -> l <> [] -> w l = 0.
Proof.
  intros H Hl. cbn in H. destruct (w l) as [| k]; [reflexivity|]. exfalso.
  pose proof (stripWith_length w n (drop (S k) l)) as Hle.
  rewrite length_drop in Hle. destruct l; [contradiction | cbn in *; lia].
Qed.

Lemma stripWith_id (w : bytes -> nat) (n : nat) (l : bytes) :
  w l = 0 -> stripWith w n l = l.
Proof. intros H. destruct n; cbn; [| rewrite H]; reflexivity. Qed.

(** A non-empty trimmed text starts and ends with no white-space rune. *)
Lemma trimmed_widths (l : bytes) :
  trimSpaceBytes l = l -> l <> [] ->
  leadingSpaceWidth l = 0 /\ trailingSpaceWidth (rev l) = 0.
Proof.
  intros H Hl.
  assert (Hlen : length l <= length (trimLeftSpace l)).
  { rewrite <- H at 1. unfold trimSpaceBytes, trimRightSpace.
    rewrite length_rev. etransitivity; [apply stripWith_length|].
    rewrite length_rev. lia. }
  assert (Hlead : leadingSpaceWidth l = 0).
  { unfold trimLeftSpace in Hlen. destruct l as [| a l]; [contradiction|].
    apply (stripWith_fixed _ (length l)); [exact Hlen | exact Hl]. }
  split; [exact Hlead|].
  unfold trimSpaceBytes, trimLeftSpace in H.
  rewrite (stripWith_id _ _ _ Hlead) in H. unfold trimRightSpace in H.
  destruct l as [| a l]; [contradiction|].
  apply (stripWith_fixed _ (length l)).
  - apply (f_equal (@length ascii)) in H. rewrite length_rev in H.
    rewrite length_rev. cbn [length] in H |- *. lia.
  - intros Hr. apply (f_equal (@length ascii)) in Hr. rewrite length_rev in Hr. discriminate.
Qed.

Lemma leadingSpaceWidth_colon (l : bytes) :
  l <> [] -> leadingSpaceWidth l = 0 -> leadingSpaceWidth (l ++ [":"%char]) = 0.
Proof.
  intros Hl H. destruct l as [| a [| b [| e l]]]; [contradiction| | |].
  - unfold leadingSpaceWidth in *. cbn [app].
    destruct (isAsciiSpace a); [discriminate|].
    change (isByte 133 ":" || isByte 160 ":") with false. rewrite andb_false_r. reflexivity.
  - unfold leadingSpaceWidth in *. cbn [app].
    destruct (isAsciiSpace a); [discriminate|].
    destruct (isByte 194 a && (isByte 133 b || isByte 160 b)); [discriminate|].
    change (isByte 128 ":") with false. change (isByte 159 ":") with false.
    change (inRange 128 138 ":" || isByte 168 ":" || isByte 169 ":" || isByte 175 ":") with false.
    rewrite !andb_false_r. reflexivity.
  - exact H.
Qed.

Lemma trailingSpaceWidth_colon (r : bytes) : trailingSpaceWidth (":"%char :: r) = 0.
Proof.
  unfold trailingSpaceWidth. change (isAsciiSpace ":") with false. cbv iota.
  destruct r as [| d [| e r]]; [reflexivity | |].
  - change (isByte 133 ":" || isByte 160 ":") with false. rewrite andb_false_r. reflexivity.
  - change (isByte 133 ":" || isByte 160 ":") with false.
    change (isByte 128 ":") with false. change (isByte 159 ":") with false.
    change (inRange 128 138 ":" || isByte 168 ":" || isByte 169 ":" || isByte 175 ":") with false.
    rewrite !andb_false_r. reflexivity.
Qed.

(** A trimmed non-empty text stays trimmed when a colon is appended. *)
Lemma trimSpaceBytes_colon (l : bytes) :
  trimSpaceBytes l = l -> l <> [] ->
  trimSpaceBytes (l ++ [":"%char]) = l ++ [":"%char].
Proof.
  intros H Hl. destruct (trimmed_widths l H Hl) as [Hlead _].
  unfold trimSpaceBytes, trimLeftSpace.
  rewrite (stripWith_id _ _ _ (leadingSpaceWidth_colon l Hl Hlead)).
  unfold trimRightSpace. rewrite rev_app_distr. cbn [rev app].
  rewrite (stripWith_id _ _ _ (trailingSpaceWidth_colon _)).
  cbn [rev]. rewrite rev_involutive. reflexivity.
Qed.

Lemma trimmed_last (l : bytes) (c : ascii) :
  trimSpaceBytes (l ++ [c]) = l ++ [c] -> inCls Space c = false.
Proof.
  intros H. destruct (trimmed_widths _ H) as [_ Ht]; [destruct l; discriminate|].
  rewrite rev_app_distr in Ht. cbn [rev app] in Ht.
  unfold trailingSpaceWidth in Ht.
  destruct (isAsciiSpace c) eqn:Hc; [discriminate|].
  unfold isAsciiSpace, inRange in Hc. unfold inCls, isByte in *.
  apply orb_false_iff in Hc as [Hr H32]. rewrite H32.
  destruct (Nat.eqb_spec (code c) 9), (Nat.eqb_spec (code c) 10),
    (Nat.eqb_spec (code c) 12), (Nat.eqb_spec (code c) 13); try reflexivity;
    exfalso; apply andb_false_iff in Hr as [Hr | Hr]; apply Nat.leb_gt in Hr; lia.
Qed.

Lemma TrimSpace_colon (t : string) :
  TrimSpace t = t -> B t <> [] -> TrimSpace (t +:+ ":") = t +:+ ":".
Proof.
  intros H Hne. unfold TrimSpace in *. rewrite B_app.
  change (B ":") with [":"%char]. rewrite trimSpaceBytes_colon; [| | exact Hne].
  - change [":"%char] with (B ":"). rewrite <- B_app. apply S_B.
  - apply (f_equal B) in H. rewrite B_S in H. exact H.
Qed.

(** The captures survive the colon, for every pattern made of [^], a
    colon-blind prefix that ends in [\s+], and the tail. *)
Lemma find_colon (ps : list regex) (t : string) (l : bytes) (c : ascii) :
  colonBlind (cat ((RBegin :: ps) ++ [RPlus Space])) = true ->
  B t = l ++ [c] -> inCls Space c = false -> c <> ":"%char ->
  option_map (@tl string)
    (FindStringSubmatch (cat (((RBegin :: ps) ++ [RPlus Space]) ++ tailItems)) (t +:+ ":")) =
  option_map (@tl string)
    (FindStringSubmatch (cat (((RBegin :: ps) ++ [RPlus Space]) ++ tailItems)) t).
Proof.
  intros Hblind HB Hs Hc. unfold FindStringSubmatch.
  rewrite B_app, HB, <- (app_assoc l [c] (B ":")). change ([c] ++ B ":") with [c; ":"%char].
  pose proof (matchAt_colon (RBegin :: ps) l c 0 Hblind Hs Hc) as H.
  change (cat (((RBegin :: ps) ++ [RPlus Space]) ++ tailItems))
    with (RCat RBegin (cat ((ps ++ [RPlus Space]) ++ tailItems))) in H |- *.
  rewrite !findFrom_anchored. unfold groups in H.
  destruct (matchAt _ 0 (l ++ [c; ":"%char])) as [m' |], (matchAt _ 0 (l ++ [c])) as [m |];
    cbn in H |- *; try discriminate H; [| reflexivity].
  injection H as H. destruct m', m; cbn in H |- *; rewrite ?H; try reflexivity;
    subst; reflexivity.
Qed.

Lemma sub_S (m : list string) (i : nat) : sub m (S i) = nth i (tl m) "".
Proof. destruct m; [destruct i |]; reflexivity. Qed.

Lemma eqb_colon_false (t s : string) :
  last (B s) <> Some ":"%char -> String.eqb (t +:+ ":") s = false.
Proof.
  intros Hs. apply String.eqb_neq. intros Heq. apply Hs.
  rewrite <- Heq, B_app. change (B ":") with [":"%char]. apply last_snoc.
Qed.

Lemma eqb_colon_else (t : string) :
  String.eqb t "else" = false -> String.eqb (t +:+ ":") "else:" = false.
Proof.
  intros Ht. apply String.eqb_neq. intros Heq. apply String.eqb_neq in Ht. apply Ht.
  apply B_inj. apply (f_equal B) in Heq. rewrite B_app in Heq.
  change (B "else:") with (B "else" ++ B ":") in Heq.
  apply app_inv_tail in Heq. exact Heq.
Qed.

Lemma colon_captures (kw : list regex) (pat : regex) (t : string) (l : bytes) (c : ascii) :
  pat = cat (((RBegin :: kw) ++ [RPlus Space]) ++ tailItems) ->
  colonBlind (cat ((RBegin :: kw) ++ [RPlus Space])) = true ->
  B t = l ++ [c] -> inCls Space c = false -> c <> ":"%char ->
  match FindStringSubmatch pat t with
  | Some m => exists m', FindStringSubmatch pat (t +:+ ":") = Some m' /\
                         sub m' 1 = sub m 1 /\ sub m' 2 = sub m 2
  | None => FindStringSubmatch pat (t +:+ ":") = None
  end.
Proof.
  intros -> Hblind HB Hs Hc. pose proof (find_colon kw t l c Hblind HB Hs Hc) as H.
  destruct (FindStringSubmatch _ t) as [m |],
           (FindStringSubmatch _ (t +:+ ":")) as [m' |]; cbn in H; try discriminate H.
  - injection H as H. exists m'. rewrite !sub_S, H. auto.
  - reflexivity.
Qed.

End ColonFacts.

(** C3, amended.  For the statement forms [for], [if], [elif] and
    [else], the trailing colon is optional: when the parser accepts a
    statement body that is trimmed, as the lexer delivers it, and does
    not already end in a colon, it accepts the body with [:] appended as
    well, and produces the same statement: same kind, same captured
    parts, same position, and the cursor moves the same way. *)
Theorem trailing_colon_optional :
  forall (p : Parser) (tok : Token) (stmt : StmtNode) (p' : Parser),
    TrimSpace (Value tok) = Value tok ->
    last (B (Value tok)) <> Some ":"%char ->
    parseStmt p tok = inr (stmt, p') ->
    containsKind [StmtFor; StmtIf; StmtElif; StmtElse] (Kind stmt) = true ->
    parseStmt p (mkToken (Type_ tok) (Value tok +:+ ":") (Pos tok)) = inr (stmt, p').
Proof.
  intros p tok stmt p' Htrim Hlast Hparse Hkind.
  unfold parseStmt in *. cbn [Value Pos]. rewrite Htrim in Hparse.
  assert (HB : B (Value tok) = [] \/ exists l c, B (Value tok) = l ++ [c]).
  { induction (B (Value tok)) using rev_ind; [left | right]; eauto. }
  destruct HB as [HB | (l & c & HB)].
  { apply (B_inj _ "") in HB. rewrite HB in Hparse. vm_compute in Hparse. discriminate. }
  assert (Hc : c <> ":"%char).
  { intros ->. apply Hlast. rewrite HB. apply last_snoc. }
  assert (Hs : Regex.inCls Regex.Space c = false).
  { apply (trimmed_last l). rewrite <- HB. apply (f_equal B) in Htrim.
    unfold TrimSpace in Htrim. rewrite B_S in Htrim. exact Htrim. }
  rewrite TrimSpace_colon; [| exact Htrim | rewrite HB; destruct l; discriminate].
  destruct (String.eqb (Value tok) "endfor") eqn:E1.
  { injection Hparse as <- <-. discriminate Hkind. }
  destruct (String.eqb (Value tok) "endif") eqn:E2.
  { injection Hparse as <- <-. discriminate Hkind. }
  rewrite !eqb_colon_false by (vm_compute; discriminate).
  destruct (String.eqb (Value tok) "else") eqn:E3.
  { apply String.eqb_eq in E3. rewrite E3. exact Hparse. }
  rewrite (eqb_colon_else _ E3).
  destruct (String.eqb (Value tok) "else:") eqn:E4.
  { apply String.eqb_eq in E4. exfalso. apply Hlast. rewrite E4. reflexivity. }
  cbn [orb] in Hparse |- *.
  pose proof (colon_captures forPrefix forPattern _ l c eq_refl eq_refl HB Hs Hc) as Hfor.
  pose proof (colon_captures [Regex.RLit "if"] ifPattern _ l c eq_refl eq_refl HB Hs Hc) as Hif.
  pose proof (colon_captures [Regex.RLit "elif"] elifPattern _ l c eq_refl eq_refl HB Hs Hc) as Helif.
  destruct (Regex.FindStringSubmatch forPattern (Value tok)) as [m |].
  { destruct Hfor as (m' & -> & -> & ->). exact Hparse. }
  rewrite Hfor.
  destruct (Regex.FindStringSubmatch ifPattern (Value tok)) as [m |].
  { destruct Hif as (m' & -> & -> & _). exact Hparse. }
  rewrite Hif.
  destruct (Regex.FindStringSubmatch elifPattern (Value tok)) as [m |].
  { destruct Helif as (m' & -> & -> & _). exact Hparse. }
  discriminate Hparse.
Qed.

Section ColonInstances.

Lemma trailing_colon_optional_witness :
  TrimSpace "for x in items" = "for x in items" /\
  last (B "for x in items") <> Some ":"%char /\
  parseStmt (NewParser Sample.unmatchedForTokens "test.sql")
    (mkToken TokenStmt "for x in items:" (mkPos "test.sql" 1 1))
  = inr (mkStmt (mkPos "test.sql" 1 1) StmtFor "x" "items",
         advance (NewParser Sample.unmatchedForTokens "test.sql")).
Proof.
  split; [reflexivity|]. split; [vm_compute; discriminate|].
  apply (trailing_colon_optional
           (NewParser Sample.unmatchedForTokens "test.sql")
           (mkToken TokenStmt "for x in items" (mkPos "test.sql" 1 1))).
  - reflexivity.
  - vm_compute. discriminate.
  - reflexivity.
  - reflexivity.
Defined.

(** C3, as stated, fails for [endfor] (and [endif]): the bare keyword is
    a statement, the keyword followed by a colon is none, for
    [peekStmtKind] and for [parseStmt] alike. *)
Lemma endfor_colon_rejected :
  peekStmtKind "endfor" = StmtEndFor /\
  peekStmtKind "endfor:" = StmtUnknown /\
  parseStmt (NewParser Sample.unmatchedForTokens "test.sql")
    (mkToken TokenStmt "endfor" (mkPos "test.sql" 2 1))
  = inr (mkStmt (mkPos "test.sql" 2 1) StmtEndFor "" EmptyString,
         advance (NewParser Sample.unmatchedForTokens "test.sql")) /\
  parseStmt (NewParser Sample.unmatchedForTokens "test.sql")
    (mkToken TokenStmt "endfor:" (mkPos "test.sql" 2 1))
  = inl (NewParseErrorf (mkPos "test.sql" 2 1) "invalid statement syntax: endfor:").
Proof. repeat split; vm_compute; reflexivity. Qed.

End ColonInstances.

(** ** The registry, operation by operation (registry.go) *)

Section RegistryOps.

Import Starctx Macro.

Context {R : Runtime}.

Lemma reservedCollision_iff (ns : string) :
  reservedCollision ReservedNamespaces ns = None <-> ~ In ns ReservedNamespaces.
Proof.
  split; [apply reservedCollision_None|].
  intros Hn. destruct (reservedCollision ReservedNamespaces ns) as [x |] eqn:Hc;
    [| reflexivity].
  exfalso. apply Hn. clear Hn. revert Hc. generalize ReservedNamespaces.
  induction l as [| a l IH]; cbn; [discriminate|].
  destruct (String.eqb_spec ns a) as [-> | Hne]; [left; reflexivity|].
  intros H. right. exact (IH H).
Qed.

Lemma Has_false (r : Registry) (ns : string) :
  Has r ns = false <-> modules r !! ns = None.
Proof. unfold Has. destruct (modules r !! ns); split; congruence. Qed.

Lemma Has_true (r : Registry) (ns : string) :
  Has r ns = true <-> exists m, Get r ns = Some m.
Proof.
  unfold Has, Get. destruct (modules r !! ns) as [m |]; split;
    try congruence; eauto. intros [m Hm]. discriminate.
Qed.

Lemma Register_ok (r : Registry) (m : LoadedModule) :
  ~ In (Namespace m) ReservedNamespaces -> Has r (Namespace m) = false ->
  Register r m = (mkRegistry (<[Namespace m := m]> (modules r)), None).
Proof.
  intros Hres Hhas. unfold Register.
  rewrite (proj2 (reservedCollision_iff _) Hres), (proj1 (Has_false _ _) Hhas).
  reflexivity.
Qed.

Lemma Register_unchanged (r : Registry) (m : LoadedModule) :
  snd (Register r m) <> None -> fst (Register r m) = r.
Proof.
  unfold Register.
  destruct (reservedCollision ReservedNamespaces (Namespace m)); [reflexivity|].
  destruct (modules r !! Namespace m); [reflexivity|]. cbn. congruence.
Qed.

Lemma Register_success (r : Registry) (m : LoadedModule) :
  snd (Register r m) = None <->
  ~ In (Namespace m) ReservedNamespaces /\ Has r (Namespace m) = false.
Proof.
  split.
  - unfold Register.
    destruct (reservedCollision ReservedNamespaces (Namespace m)) eqn:Hc; [discriminate|].
    destruct (modules r !! Namespace m) eqn:Hl; [discriminate|]. intros _.
    split; [apply reservedCollision_iff, Hc | apply Has_false, Hl].
  - intros [Hres Hhas]. rewrite (Register_ok r m Hres Hhas). reflexivity.
Qed.

Lemma Register_effect (r : Registry) (m : LoadedModule) :
  (snd (Register r m) = None <->
     ~ In (Namespace m) ReservedNamespaces /\ Has r (Namespace m) = false) /\
  (snd (Register r m) = None ->
     Get (fst (Register r m)) (Namespace m) = Some m /\
     (forall ns, ns <> Namespace m -> Get (fst (Register r m)) ns = Get r ns) /\
     Len (fst (Register r m)) = S (Len r)) /\
  (snd (Register r m) <> None -> fst (Register r m) = r).
Proof.
  split; [apply Register_success|]. split; [| apply Register_unchanged].
  intros [Hres Hhas]%Register_success. rewrite (Register_ok r m Hres Hhas).
  unfold Get, Len. cbn [fst modules]. apply Has_false in Hhas. repeat split.
  - apply lookup_insert_eq.
  - intros ns Hne. apply lookup_insert_ne. congruence.
  - rewrite map_size_insert, Hhas. reflexivity.
Qed.

(** X1.  [Register] succeeds exactly when the namespace is neither reserved
    nor taken.  Then the module is found under its namespace, the other
    namespaces are as before and [Len] has grown by one; when it fails
    the registry is as before. *)
Theorem register_spec (r : Registry) (m : LoadedModule) :
  (snd (Register r m) = None <->
     ~ In (Namespace m) ReservedNamespaces /\ Has r (Namespace m) = false) /\
  (snd (Register r m) = None ->
     Get (fst (Register r m)) (Namespace m) = Some m /\
     (forall ns, ns <> Namespace m -> Get (fst (Register r m)) ns = Get r ns) /\
     Len (fst (Register r m)) = S (Len r)) /\
  (snd (Register r m) <> None -> fst (Register r m) = r).
Proof. exact (Register_effect r m). Qed.

(** X2.  A namespace that is taken is refused, the error names the file of
    the module that holds it, and that module stays. *)
Theorem register_duplicate_rejected (r : Registry) (m existing : LoadedModule) :
  ~ In (Namespace m) ReservedNamespaces ->
  Get r (Namespace m) = Some existing ->
  Register r m =
  (r, Some (mkRegistryError (Namespace m)
              ("namespace already registered by " +:+ Path existing))).
Proof.
  intros Hres Hget. unfold Register, Get in *.
  rewrite (proj2 (reservedCollision_iff _) Hres), Hget. reflexivity.
Qed.

Lemma RegisterAll_app (ms1 ms2 : list LoadedModule) (r : Registry) :
  RegisterAll r (ms1 ++ ms2) =
  match RegisterAll r ms1 with
  | (r', Some err) => (r', Some err)
  | (r', None) => RegisterAll r' ms2
  end.
Proof.
  revert r. induction ms1 as [| m ms1 IH]; intros r; [reflexivity|].
  cbn [app RegisterAll]. destruct (Register r m) as [r' [err |]]; [reflexivity|].
  apply IH.
Qed.

(** X3.  [RegisterAll] stops at the first module [Register] refuses: the
    modules before it are registered, the ones after it are not looked
    at, and the error is the one of [Register]. *)
Theorem register_all_stops_at_first_error
  (ms1 ms2 : list LoadedModule) (m : LoadedModule) (r : Registry) (err : RegistryError) :
  snd (RegisterAll r ms1) = None ->
  snd (Register (fst (RegisterAll r ms1)) m) = Some err ->
  RegisterAll r (ms1 ++ m :: ms2) = (fst (RegisterAll r ms1), Some err).
Proof.
  intros H1 Hm. rewrite RegisterAll_app.
  destruct (RegisterAll r ms1) as [r1 [e |]]; [discriminate|]. cbn [fst] in *.
  cbn [RegisterAll].
  pose proof (Register_unchanged r1 m) as Hu.
  destruct (Register r1 m) as [r2 [e |]]; cbn [fst snd] in *; [| discriminate].
  injection Hm as ->. rewrite Hu by discriminate. reflexivity.
Qed.

(** X4.  [RegisterAll] succeeds exactly when no two modules share a namespace
    and none of the namespaces is reserved or taken.  Then every module
    is found under its namespace, the other namespaces are as before, and
    [Len] has grown by the number of modules. *)
Theorem register_all_spec (ms : list LoadedModule) (r : Registry) :
  (snd (RegisterAll r ms) = None <->
     NoDup (map Namespace ms) /\
     Forall (fun m => ~ In (Namespace m) ReservedNamespaces /\
                      Has r (Namespace m) = false) ms) /\
  (snd (RegisterAll r ms) = None ->
     (forall m, In m ms -> Get (fst (RegisterAll r ms)) (Namespace m) = Some m) /\
     (forall ns, ~ In ns (map Namespace ms) ->
                 Get (fst (RegisterAll r ms)) ns = Get r ns) /\
     Len (fst (RegisterAll r ms)) = Len r + length ms).
Proof.
  revert r. induction ms as [| m ms IH]; intros r.
  { cbn. split; [split; [intros _; split; constructor | reflexivity]|].
    intros _. repeat split; [intros m [] | lia]. }
  cbn [RegisterAll map length].
  destruct (Register_effect r m) as (Hiff & Hok & Hfail).
  destruct (Register r m) as [r' [err |]] eqn:HR; cbn [fst snd] in *.
  { split; [| discriminate]. split; [discriminate|].
    intros [_ Hall]. apply Forall_cons_1 in Hall as [Hm _].
    apply Hiff in Hm. discriminate. }
  destruct (Hok eq_refl) as (Hget & Hother & Hlen). clear Hok Hfail.
  destruct (proj1 Hiff eq_refl) as [Hres Hhas]. clear Hiff.
  destruct (IH r') as [IHiff IHok]. clear IH.
  assert (Hhas' : forall ns, Has r' ns = false <->
                             Has r ns = false /\ ns <> Namespace m).
  { intros ns. unfold Has. fold (Get r' ns). fold (Get r ns).
    destruct (String.eqb_spec ns (Namespace m)) as [-> | Hne].
    - rewrite Hget. split; [discriminate | intros [_ H]; congruence].
    - rewrite (Hother ns Hne). split; [auto | intros [H _]; exact H]. }
  split.
  - rewrite IHiff. split.
    + intros [Hnd Hall]. split.
      * constructor; [| exact Hnd]. intros Hin.
        apply list_elem_of_In, in_map_iff in Hin as (m' & Heq & Hin).
        rewrite Forall_forall in Hall. destruct (Hall m' ltac:(apply list_elem_of_In; exact Hin)) as [_ Hh].
        apply Hhas' in Hh as [_ Hne]. congruence.
      * constructor; [split; assumption|].
        eapply Forall_impl; [exact Hall|]. intros m' [Hr Hh]. cbn in *.
        split; [exact Hr | apply Hhas'; exact Hh].
    + intros [Hnd Hall]. apply NoDup_cons in Hnd as [Hnotin Hnd].
      apply Forall_cons_1 in Hall as [_ Hall]. split; [exact Hnd|].
      rewrite Forall_forall in Hall |- *. intros m' Hin.
      destruct (Hall m' Hin) as [Hr Hh]. split; [exact Hr|]. apply Hhas'.
      split; [exact Hh|]. intros Heq. apply Hnotin. rewrite <- Heq.
      apply list_elem_of_In, in_map, list_elem_of_In. exact Hin.
  - intros Hs. destruct (IHok Hs) as (Hin & Hout & Hl).
    apply IHiff in Hs as [_ Hall]. repeat split.
    + intros m' [<- | Hm'].
      * rewrite Hout; [exact Hget|]. intros Hin'. apply in_map_iff in Hin' as (m' & Heq & Hm').
        rewrite Forall_forall in Hall.
        destruct (Hall m' ltac:(apply list_elem_of_In; exact Hm')) as [_ Hh].
        unfold Has in Hh. fold (Get r' (Namespace m')) in Hh. rewrite Heq, Hget in Hh.
        discriminate.
      * apply Hin, Hm'.
    + intros ns Hns. rewrite Hout by (intros H; apply Hns; right; exact H).
      apply Hother. intros ->. apply Hns. left. reflexivity.
    + rewrite Hl, Hlen. lia.
Qed.

(** The sorted list of the keys of a map: what [Namespaces] and
    [AttrNames] build. *)
Lemma sorted_keys {A : Type} (mp : gmap string A) :
  StronglySorted String.le (merge_sort String.le (map fst (map_to_list mp))) /\
  NoDup (merge_sort String.le (map fst (map_to_list mp))) /\
  (forall k, In k (merge_sort String.le (map fst (map_to_list mp))) <-> is_Some (mp !! k)) /\
  length (merge_sort String.le (map fst (map_to_list mp))) = size mp.
Proof.
  pose proof (merge_sort_Permutation String.le (map fst (map_to_list mp))) as Hp.
  split; [apply (StronglySorted_merge_sort String.le)|].
  split; [| split].
  - rewrite Hp. change (map fst (map_to_list mp)) with ((map_to_list mp).*1).
    apply NoDup_fst_map_to_list.
  - intros k. rewrite <- list_elem_of_In, Hp.
    change (map fst (map_to_list mp)) with ((map_to_list mp).*1).
    rewrite list_elem_of_fmap. split.
    + intros ([k' v] & -> & Hin). apply elem_of_map_to_list in Hin. exists v. exact Hin.
    + intros [v Hv]. exists (k, v). split; [reflexivity|]. apply elem_of_map_to_list, Hv.
  - rewrite Hp, length_map. apply length_map_to_list.
Qed.

(** A sorted list without duplicates is determined by its elements. *)
Lemma sorted_unique (l1 l2 : list string) :
  StronglySorted String.le l1 -> StronglySorted String.le l2 ->
  NoDup l1 -> NoDup l2 -> (forall k, In k l1 <-> In k l2) -> l1 = l2.
Proof.
  intros S1 S2 N1 N2 Hin. apply (StronglySorted_unique String.le); [exact S1 | exact S2|].
  apply NoDup_Permutation; [exact N1 | exact N2|].
  intros k. rewrite !list_elem_of_In. apply Hin.
Qed.

(** X5.  [Namespaces] lists exactly the registered namespaces, each once, in
    ascending byte-wise order, [Len] of them; it is the only such list,
    so the order in which the map yields its keys does not show. *)
Theorem namespaces_sorted_and_complete (r : Registry) :
  StronglySorted String.le (Namespaces r) /\
  NoDup (Namespaces r) /\
  (forall ns, In ns (Namespaces r) <-> Has r ns = true) /\
  length (Namespaces r) = Len r /\
  (forall l, StronglySorted String.le l -> NoDup l ->
             (forall ns, In ns l <-> Has r ns = true) -> l = Namespaces r).
Proof.
  destruct (sorted_keys (modules r)) as (Hs & Hn & Hin & Hlen).
  assert (Hhas : forall ns, In ns (Namespaces r) <-> Has r ns = true).
  { intros ns. unfold Namespaces. rewrite Hin. unfold Has.
    destruct (modules r !! ns); split; try congruence; eauto.
    intros [x Hx]. discriminate. }
  repeat split; try assumption; try apply Hhas.
  intros l Sl Nl Hl. apply sorted_unique; try assumption.
  intros k. rewrite Hl, Hhas. reflexivity.
Qed.

(** X6.  [AttrNames] lists, each once and in ascending byte-wise order, the
    names [Attr] answers; for every other name [Attr] returns the
    no-such-attribute error that names the module and the attribute. *)
Theorem attr_names_agree_with_attr (m : starlarkModule) :
  StronglySorted String.le (AttrNames m) /\
  NoDup (AttrNames m) /\
  (forall a, In a (AttrNames m) <-> exists v, Attr m a = inr v) /\
  (forall a, ~ In a (AttrNames m) ->
     Attr m a = inl ("module '" +:+ name m +:+ "' has no attribute '" +:+ a +:+ "'")).
Proof.
  destruct (sorted_keys (exports m)) as (Hs & Hn & Hin & _).
  repeat split; try assumption.
  - intros Ha. apply Hin in Ha as [v Hv]. exists v. unfold Attr. rewrite Hv. reflexivity.
  - intros [v Hv]. apply Hin. unfold Attr in Hv.
    destruct (exports m !! a) as [w |]; [eauto | discriminate].
  - intros a Ha. unfold Attr. destruct (exports m !! a) as [w |] eqn:Hw; [| reflexivity].
    exfalso. apply Ha, Hin. eauto.
Qed.

End RegistryOps.

Section RegistryInstances.

Import Starctx Macro Sample.

Lemma register_duplicate_rejected_witness :
  ~ In "utils" (ReservedNamespaces) /\
  Register (R := runtime)
    (mkRegistry (<["utils" := mkModule "utils" "/a/utils.star" ∅]> ∅))
    (mkModule "utils" "/b/utils.star" ∅)
  = (mkRegistry (<["utils" := mkModule "utils" "/a/utils.star" ∅]> ∅),
     Some (mkRegistryError "utils" "namespace already registered by /a/utils.star")).
Proof.
  assert (H : ~ In "utils" ReservedNamespaces).
  { cbn. intros [H | [H | [H | [H | []]]]]; discriminate. }
  split; [exact H|].
  apply (register_duplicate_rejected
           (mkRegistry (<["utils" := mkModule "utils" "/a/utils.star" ∅]> ∅))
           (mkModule "utils" "/b/utils.star" ∅)
           (mkModule "utils" "/a/utils.star" ∅)).
  - exact H.
  - reflexivity.
Defined.

Lemma register_all_stops_at_first_error_witness :
  RegisterAll (R := runtime) NewRegistry
    ([mkModule "datetime" "/datetime.star" ∅] ++
     mkModule "config" "/config.star" ∅ :: [mkModule "utils" "/utils.star" ∅])
  = (mkRegistry (<["datetime" := mkModule "datetime" "/datetime.star" ∅]> ∅),
     Some (mkRegistryError "config" "cannot use reserved namespace 'config'")).
Proof.
  apply (register_all_stops_at_first_error
           [mkModule "datetime" "/datetime.star" ∅]
           [mkModule "utils" "/utils.star" ∅]
           (mkModule "config" "/config.star" ∅) NewRegistry
           (mkRegistryError "config" "cannot use reserved namespace 'config'")).
  - reflexivity.
  - reflexivity.
Defined.

End RegistryInstances.

(** ** The renderer, node by node (renderer.go) *)

Section RendererOps.

Import Starctx Render.

Context {R : Runtime}.

(** Induction on the AST, with the nodes of the bodies. *)
Lemma Node_nested_ind (P : Node -> Prop) :
  (forall pos text, P (TextNode pos text)) ->
  (forall pos expr, P (ExprNode pos expr)) ->
  (forall pos v it body, Forall P body -> P (ForBlock pos v it body)) ->
  (forall pos c body elifs els,
     Forall P body -> Forall (fun br => Forall P (Body br)) elifs -> Forall P els ->
     P (IfBlock pos c body elifs els)) ->
  forall n, P n.
Proof.
  intros Ht He Hf Hi. fix IH 1.
  intros [pos t | pos e | pos v it body | pos c body elifs els].
  - apply Ht.
  - apply He.
  - apply Hf. induction body as [| n body IHb]; constructor; [apply IH | exact IHb].
  - apply Hi.
    + induction body as [| n body IHb]; constructor; [apply IH | exact IHb].
    + induction elifs as [| [c' b' p'] elifs IHe]; constructor; [| exact IHe].
      cbn. induction b' as [| n b' IHb]; constructor; [apply IH | exact IHb].
    + induction els as [| n els IHb]; constructor; [apply IH | exact IHb].
Qed.

Lemma onto_onto (a b : string) (res : Error + string) :
  onto a (onto b res) = onto (a +:+ b) res.
Proof. destruct res; cbn; [reflexivity|]. rewrite append_assoc_s. reflexivity. Qed.

Lemma onto_empty (res : Error + string) : onto "" res = res.
Proof. destruct res; reflexivity. Qed.

Lemma renderList_onto (g : Node -> string -> Error + string) (nodes : list Node) :
  Forall (fun n => forall buf, g n buf = onto buf (g n "")) nodes ->
  forall buf, renderList g nodes buf = onto buf (renderList g nodes "").
Proof.
  induction 1 as [| n nodes Hn _ IH]; intros buf.
  - cbn. rewrite append_nil_r_s. reflexivity.
  - cbn [renderList]. rewrite (Hn buf).
    destruct (g n "") as [err | s]; cbn [onto]; [reflexivity|].
    change ("" +:+ s) with s.
    rewrite (IH (buf +:+ s)), (IH s), onto_onto. reflexivity.
Qed.

Lemma renderIter_onto (r : Renderer) (f v : string) (body : list Node) :
  (forall r' buf, renderNodes r' body buf f = onto buf (renderNodes r' body "" f)) ->
  forall elems buf,
    renderIter r f v body elems buf = onto buf (renderIter r f v body elems "").
Proof.
  intros Hb. induction elems as [| e elems IH]; intros buf; cbn [renderIter].
  - cbn. rewrite append_nil_r_s. reflexivity.
  - rewrite (Hb _ buf).
    destruct (renderNodes _ body "" f) as [err | s]; cbn [onto]; [reflexivity|].
    change ("" +:+ s) with s.
    rewrite (IH (buf +:+ s)), (IH s), onto_onto. reflexivity.
Qed.

Lemma renderNode_onto (f : string) (node : Node) :
  forall r buf, renderNode r f node buf = onto buf (renderNode r f node "").
Proof.
  induction node as [pos text | pos expr | pos v it body IHb
                     | pos c body elifs els IHb IHe IHl] using Node_nested_ind;
    intros r buf.
  - reflexivity.
  - cbn [renderNode].
    destruct (EvalExprStringWithLocals _ _ _ _ _); reflexivity.
  - rewrite !renderNode_for.
    destruct (EvalExprWithLocals _ _ _ _ _) as [err | iv]; [reflexivity|].
    destruct (Iterate iv) as [elems |]; [| reflexivity].
    apply renderIter_onto. intros r' b. unfold renderNodes.
    apply renderList_onto. eapply Forall_impl; [exact IHb|].
    intros n Hn. apply Hn.
  - cbn [renderNode].
    destruct (EvalExprWithLocals _ _ _ _ _) as [err | cv]; [reflexivity|].
    destruct (Truth cv).
    { apply renderList_onto. eapply Forall_impl; [exact IHb|]. intros n Hn. apply Hn. }
    induction IHe as [| [c' b' p'] elifs Hbr _ IH].
    + destruct els as [| n els].
      * cbn. rewrite append_nil_r_s. reflexivity.
      * apply renderList_onto. eapply Forall_impl; [exact IHl|]. intros n' Hn. apply Hn.
    + destruct (EvalExprWithLocals _ c' _ _ _) as [err | cv']; [reflexivity|].
      destruct (Truth cv'); [| exact IH].
      apply renderList_onto. eapply Forall_impl; [exact Hbr|]. intros n Hn. apply Hn.
Qed.

Lemma renderNodes_onto (r : Renderer) (nodes : list Node) (buf f : string) :
  renderNodes r nodes buf f = onto buf (renderNodes r nodes "" f).
Proof.
  unfold renderNodes. apply renderList_onto. apply Forall_forall.
  intros n _. apply renderNode_onto.
Qed.

(** X7.  Rendering only appends: what was in the buffer stays in front, and
    neither the text appended nor the error depends on it. *)
Theorem render_only_appends (r : Renderer) (nodes : list Node) (buf f : string) :
  renderNodes r nodes buf f =
  match renderNodes r nodes "" f with
  | inl err => inl err
  | inr s => inr (buf +:+ s)
  end.
Proof. exact (renderNodes_onto r nodes buf f). Qed.

Lemma renderList_app (g : Node -> string -> Error + string) (a b : list Node)
  (buf : string) :
  renderList g (a ++ b) buf =
  match renderList g a buf with
  | inl err => inl err
  | inr buf' => renderList g b buf'
  end.
Proof.
  revert buf. induction a as [| n a IH]; intros buf; [reflexivity|].
  cbn [app renderList]. destruct (g n buf) as [err | buf']; [reflexivity | apply IH].
Qed.

(** X8.  A template in two parts renders to the rendering of the first part
    followed by the rendering of the second; the first error is the
    result, and after an error in the first part nothing of the second
    is evaluated. *)
Theorem render_concatenation (r : Renderer) (ns1 ns2 : list Node) (f : string) :
  Render r (mkTemplate (ns1 ++ ns2) f) =
  match Render r (mkTemplate ns1 f) with
  | inl err => inl err
  | inr s1 =>
      match Render r (mkTemplate ns2 f) with
      | inl err => inl err
      | inr s2 => inr (s1 +:+ s2)
      end
  end.
Proof.
  unfold Render. cbn [Nodes TFile]. unfold renderNodes at 1.
  rewrite renderList_app. fold (renderNodes r ns1 "" f).
  destruct (renderNodes r ns1 "" f) as [err | s1]; [reflexivity|].
  fold (renderNodes r ns2 s1 f). apply renderNodes_onto.
Qed.

Lemma renderIter_ok (r : Renderer) (f v : string) (body : list Node)
  (elems : list Value) (outs : list string) (buf : string) :
  Forall2 (fun elem out =>
             renderNodes (mkRenderer (ctx r) (withLocal r v elem)) body "" f = inr out)
          elems outs ->
  renderIter r f v body elems buf = inr (buf +:+ concatStrings outs).
Proof.
  intros H. revert buf. induction H as [| e out es outs He _ IH]; intros buf.
  - cbn. rewrite append_nil_r_s. reflexivity.
  - cbn [renderIter]. rewrite renderNodes_onto, He. cbn [onto].
    rewrite IH. cbn [concatStrings fold_right]. rewrite append_assoc_s. reflexivity.
Qed.

Lemma renderIter_err (r : Renderer) (f v : string) (body : list Node)
  (es1 es2 : list Value) (e : Value) (outs : list string) (err : Error) (buf : string) :
  Forall2 (fun elem out =>
             renderNodes (mkRenderer (ctx r) (withLocal r v elem)) body "" f = inr out)
          es1 outs ->
  renderNodes (mkRenderer (ctx r) (withLocal r v e)) body "" f = inl err ->
  renderIter r f v body (es1 ++ e :: es2) buf = inl err.
Proof.
  intros H He. revert buf. induction H as [| e1 out es outs He1 _ IH]; intros buf.
  - cbn [app renderIter]. rewrite renderNodes_onto, He. reflexivity.
  - cbn [app renderIter]. rewrite renderNodes_onto, He1. cbn [onto]. apply IH.
Qed.

(** X9.  A [for] block whose iterator evaluates to a sequence renders its body
    once per element, in order, with the locals of the block and, atop
    them, the loop variable bound to the element
    ([<[v := elem]> (locals r)]: an outer variable stays visible unless
    the loop variable has its name), and appends the results; when the body fails
    for an element, the block fails with that error and the later
    elements are not rendered. *)
Theorem for_block_renders_each_element
  (r : Renderer) (f : string) (pos : Position) (v it : string) (body : list Node)
  (iterVal : Value) (elems : list Value) (buf : string) :
  EvalExprWithLocals (ctx r) it f (Line pos) (locals r) = inr iterVal ->
  Iterate iterVal = Some elems ->
  (forall outs,
     Forall2 (fun elem out =>
                renderNodes (mkRenderer (ctx r) (<[v := elem]> (locals r))) body "" f = inr out)
             elems outs ->
     renderNode r f (ForBlock pos v it body) buf = inr (buf +:+ concatStrings outs)) /\
  (forall es1 e es2 outs err,
     elems = es1 ++ e :: es2 ->
     Forall2 (fun elem out =>
                renderNodes (mkRenderer (ctx r) (<[v := elem]> (locals r))) body "" f = inr out)
             es1 outs ->
     renderNodes (mkRenderer (ctx r) (<[v := e]> (locals r))) body "" f = inl err ->
     renderNode r f (ForBlock pos v it body) buf = inl err).
Proof.
  intros Hev Hit. rewrite renderNode_for, Hev, Hit. split.
  - intros outs H. apply renderIter_ok, H.
  - intros es1 e es2 outs err -> H He. eapply renderIter_err; eassumption.
Qed.

Lemma renderNode_if (r : Renderer) (f : string) (pos : Position) (c : string)
  (body : list Node) (elifs : list Branch) (els : list Node) (buf : string) :
  renderNode r f (IfBlock pos c body elifs els) buf =
  match branchTruth r f (mkBranch c body pos) with
  | inl err => inl (WrapRenderError pos "if condition evaluation failed" err)
  | inr true => renderNodes r body buf f
  | inr false =>
      (fix elifs (bs : list Branch) : Error + string :=
         match bs with
         | [] => renderNodes r els buf f
         | br :: bs' =>
             match branchTruth r f br with
             | inl err =>
                 inl (WrapRenderError (branchPos br) "elif condition evaluation failed" err)
             | inr true => renderNodes r (Body br) buf f
             | inr false => elifs bs'
             end
         end) elifs
  end.
Proof.
  cbn [renderNode]. unfold branchTruth. cbn [Condition branchPos Body].
  destruct (EvalExprWithLocals _ c _ _ _) as [err | cv]; [reflexivity|].
  destruct (Truth cv); [reflexivity|].
  induction elifs as [| [c' b' p'] elifs IH].
  - destruct els; reflexivity.
  - cbn [Condition branchPos Body].
    destruct (EvalExprWithLocals _ c' _ _ _) as [err | cv']; [reflexivity|].
    destruct (Truth cv'); [reflexivity | exact IH].
Qed.

(** X10.  An [if] block, its [if] and [elif] branches taken in order: the body
    of the first branch whose condition is true is rendered, and no
    condition after it is evaluated; when all conditions are false the
    [else] body is rendered (nothing without an [else]); when a condition
    fails to evaluate before any was true, the block fails at that
    branch. *)
Theorem if_block_takes_first_true_branch
  (r : Renderer) (f : string) (pos : Position) (c : string)
  (body : list Node) (elifs : list Branch) (els : list Node) (buf : string) :
  (forall bs1 br bs2,
     mkBranch c body pos :: elifs = bs1 ++ br :: bs2 ->
     Forall (fun b => branchTruth r f b = inr false) bs1 ->
     branchTruth r f br = inr true ->
     renderNode r f (IfBlock pos c body elifs els) buf = renderNodes r (Body br) buf f) /\
  (Forall (fun b => branchTruth r f b = inr false) (mkBranch c body pos :: elifs) ->
   renderNode r f (IfBlock pos c body elifs els) buf = renderNodes r els buf f) /\
  (forall bs1 br bs2 err,
     mkBranch c body pos :: elifs = bs1 ++ br :: bs2 ->
     Forall (fun b => branchTruth r f b = inr false) bs1 ->
     branchTruth r f br = inl err ->
     renderNode r f (IfBlock pos c body elifs els) buf =
     inl (RenderError (branchPos br)
            (match bs1 with
             | [] => "if condition evaluation failed"
             | _ :: _ => "elif condition evaluation failed"
             end) (Some err))).
Proof.
  rewrite renderNode_if.
  set (go := fix elifs (bs : list Branch) : Error + string :=
         match bs with
         | [] => renderNodes r els buf f
         | br :: bs' =>
             match branchTruth r f br with
             | inl err =>
                 inl (WrapRenderError (branchPos br) "elif condition evaluation failed" err)
             | inr true => renderNodes r (Body br) buf f
             | inr false => elifs bs'
             end
         end).
  assert (Hskip : forall bs1 bs2,
            Forall (fun b => branchTruth r f b = inr false) bs1 ->
            go (bs1 ++ bs2) = go bs2).
  { intros bs1 bs2 H. induction H as [| b bs1 Hb _ IH]; [reflexivity|].
    cbn [app]. change (go (b :: bs1 ++ bs2)) with
      (match branchTruth r f b with
       | inl err => inl (WrapRenderError (branchPos b) "elif condition evaluation failed" err)
       | inr true => renderNodes r (Body b) buf f
       | inr false => go (bs1 ++ bs2)
       end).
    rewrite Hb. exact IH. }
  repeat split.
  - intros [| b1 bs1] br bs2 Heq Hf Ht.
    + injection Heq as <- <-. rewrite Ht. reflexivity.
    + injection Heq as <- ->. apply Forall_cons_1 in Hf as [Hb1 Hf]. rewrite Hb1.
      rewrite (Hskip bs1 _ Hf).
      change (go (br :: bs2)) with
        (match branchTruth r f br with
         | inl err => inl (WrapRenderError (branchPos br) "elif condition evaluation failed" err)
         | inr true => renderNodes r (Body br) buf f
         | inr false => go bs2
         end).
      rewrite Ht. reflexivity.
  - intros Hf. apply Forall_cons_1 in Hf as [Hb Hf]. rewrite Hb.
    rewrite <- (app_nil_r elifs), (Hskip elifs [] Hf). reflexivity.
  - intros [| b1 bs1] br bs2 err Heq Hf Ht.
    + injection Heq as <- <-. rewrite Ht. reflexivity.
    + injection Heq as <- ->. apply Forall_cons_1 in Hf as [Hb1 Hf]. rewrite Hb1.
      rewrite (Hskip bs1 _ Hf).
      change (go (br :: bs2)) with
        (match branchTruth r f br with
         | inl err => inl (WrapRenderError (branchPos br) "elif condition evaluation failed" err)
         | inr true => renderNodes r (Body br) buf f
         | inr false => go bs2
         end).
      rewrite Ht. reflexivity.
Qed.

End RendererOps.

Section RendererInstances.

Import Starctx Render Sample.

Lemma for_block_renders_each_element_witness :
  renderNode (R := runtime)
    (NewRenderer (mkContext (<["XS" := SList [SInt 1; SInt 2]]>
                               (<["YS" := SList [SInt 3; SInt 4]]> ∅)))) "test.sql"
    (ForBlock (mkPos "test.sql" 1 1) "i" "XS"
       [ForBlock (mkPos "test.sql" 2 1) "j" "YS"
          [ExprNode (mkPos "test.sql" 3 2) "i"; ExprNode (mkPos "test.sql" 3 9) "j";
           TextNode (mkPos "test.sql" 3 16) ","]])
    "-- "
  = inr "-- 13,14,23,24,".
Proof.
  refine (proj1 (for_block_renders_each_element (R := runtime)
                  (NewRenderer (mkContext (<["XS" := SList [SInt 1; SInt 2]]>
                                             (<["YS" := SList [SInt 3; SInt 4]]> ∅))))
                  "test.sql" (mkPos "test.sql" 1 1) "i" "XS"
                  [ForBlock (mkPos "test.sql" 2 1) "j" "YS"
                     [ExprNode (mkPos "test.sql" 3 2) "i";
                      ExprNode (mkPos "test.sql" 3 9) "j";
                      TextNode (mkPos "test.sql" 3 16) ","]]
                  (SList [SInt 1; SInt 2]) [SInt 1; SInt 2] "-- "
                  _ _) ["13,14,"; "23,24,"] _).
  - vm_compute. reflexivity.
  - reflexivity.
  - constructor; [vm_compute; reflexivity|].
    constructor; [vm_compute; reflexivity | constructor].
Defined.

End RendererInstances.

(** ** What the parser accepts (parser.go) *)

Section ParserAccepts.

Lemma parseStmt_opens (p p1 : Parser) (tok : Token) (stmt : StmtNode) :
  Type_ tok = TokenStmt -> parseStmt p tok = inr (stmt, p1) ->
  stmtOf tok = Some stmt /\ p1 = advance p.
Proof.
  intros Ht H. split; [| exact (parseStmt_shrinks _ _ _ _ H)].
  unfold stmtOf. rewrite Ht, (parseStmt_cursor (mkParser [] EmptyString) p), H.
  reflexivity.
Qed.

Lemma parseStmt_isStmt (p p1 : Parser) (tok : Token) (stmt : StmtNode) :
  Type_ tok = TokenStmt -> parseStmt p tok = inr (stmt, p1) ->
  isStmt (Kind stmt) tok.
Proof.
  intros Ht H. destruct (parseStmt_opens _ _ _ _ Ht H) as [Hs _].
  destruct (stmtOf_facts _ _ Hs) as (_ & Hk & _). split; [exact Ht | symmetry; exact Hk].
Qed.

Lemma not_atEnd (p : Parser) :
  atEnd p = false -> tokens p = current p :: tokens (advance p).
Proof. destruct p as [[| tok ts] f]; cbn; [discriminate | reflexivity]. Qed.

Lemma atEnd_atEOF (p : Parser) : atEnd p = true -> atEOF (tokens p).
Proof. destruct p as [[| tok ts] f]; cbn; [auto | discriminate]. Qed.

Lemma current_atEOF (p : Parser) :
  atEnd p = false -> Type_ (current p) = TokenEOF -> atEOF (tokens p).
Proof. destruct p as [[| tok ts] f]; cbn; [discriminate | auto]. Qed.

(** What a successful call has read: a well-formed sequence. *)
Lemma parse_reads (n : nat) :
  (forall stopOn nodes p nodes' p',
     parseNodes n stopOn nodes p = Some (inr (nodes', p')) ->
     exists items ns,
       tokens p = items ++ tokens p' /\ Balanced items ns /\ nodes' = nodes ++ ns /\
       (atEOF (tokens p') \/ startsWithStop stopOn (tokens p'))) /\
  (forall stmt p block p',
     parseForBlock n stmt p = Some (inr (block, p')) ->
     exists body bns etok,
       tokens p = body ++ etok :: tokens p' /\ Balanced body bns /\
       isStmt StmtEndFor etok /\
       block = ForBlock (stmtPos stmt) (VarName stmt) (Expr stmt) bns) /\
  (forall stmt p block p',
     parseIfBlock n stmt p = Some (inr (block, p')) ->
     exists body bns chain elifs els,
       tokens p = body ++ chain ++ tokens p' /\ Balanced body bns /\
       Chain chain elifs els /\
       block = IfBlock (stmtPos stmt) (Expr stmt) bns elifs els) /\
  (forall stmt body elifs0 p block p',
     ifChain n stmt body elifs0 p = Some (inr (block, p')) ->
     exists chain elifs els,
       tokens p = chain ++ tokens p' /\ Chain chain elifs els /\
       block = ifBlock stmt body (elifs0 ++ elifs) els).
Proof.
  induction n as [| n (IHN & IHF & IHI & IHC)].
  { repeat split; intros; discriminate. }
  repeat split.
  - intros stopOn nodes p nodes' p' H. cbn [parseNodes] in H.
    destruct (atEnd p) eqn:Hend.
    { injection H as <- <-. exists [], []. rewrite app_nil_r.
      repeat split; [constructor | left; apply atEnd_atEOF, Hend]. }
    pose proof (not_atEnd p Hend) as Hts.
    destruct (Type_ (current p)) eqn:Ht.
    + apply IHN in H as (items & ns & Hi & Hb & -> & Hstop).
      exists (current p :: items), (TextNode (Pos (current p)) (Value (current p)) :: ns).
      rewrite Hts, Hi, <- app_assoc. repeat split; [| exact Hstop].
      apply Bal_text; assumption.
    + apply IHN in H as (items & ns & Hi & Hb & -> & Hstop).
      exists (current p :: items), (ExprNode (Pos (current p)) (Value (current p)) :: ns).
      rewrite Hts, Hi, <- app_assoc. repeat split; [| exact Hstop].
      apply Bal_expr; assumption.
    + destruct (containsKind stopOn (peekStmtKind (Value (current p)))) eqn:Hc.
      { injection H as <- <-. exists [], []. rewrite app_nil_r.
        repeat split; [constructor|]. right.
        exists (current p), (tokens (advance p)), (peekStmtKind (Value (current p))).
        repeat split; assumption. }
      destruct (parseStmt p (current p)) as [err | [stmt p1]] eqn:Hps; [discriminate|].
      destruct (parseStmt_opens _ _ _ _ Ht Hps) as [Hso ->].
      destruct (Kind stmt) eqn:Hk; try discriminate.
      * destruct (parseForBlock n stmt (advance p)) as [[err | [block p2]] |] eqn:E;
          try discriminate.
        apply IHF in E as (body & bns & etok & Hbt & Hbb & He & ->).
        apply IHN in H as (items & ns & Hi & Hb & -> & Hstop).
        exists (current p :: body ++ etok :: items),
               (ForBlock (stmtPos stmt) (VarName stmt) (Expr stmt) bns :: ns).
        rewrite Hts, Hbt, Hi, <- !app_assoc. cbn [app].
        rewrite <- !app_assoc. cbn [app].
        repeat split; [| exact Hstop].
        apply (Bal_for (current p) stmt); [split; assumption | assumption..].
      * destruct (parseIfBlock n stmt (advance p)) as [[err | [block p2]] |] eqn:E;
          try discriminate.
        apply IHI in E as (body & bns & chain & elifs & els & Hbt & Hbb & Hch & ->).
        apply IHN in H as (items & ns & Hi & Hb & -> & Hstop).
        exists (current p :: body ++ chain ++ items),
               (IfBlock (stmtPos stmt) (Expr stmt) bns elifs els :: ns).
        rewrite Hts, Hbt, Hi, <- !app_assoc. cbn [app].
        rewrite <- !app_assoc.
        repeat split; [| exact Hstop].
        apply (Bal_if (current p) stmt); [split; assumption | assumption..].
    + injection H as <- <-. exists [], []. rewrite app_nil_r.
      repeat split; [constructor | left; apply current_atEOF; assumption].
  - intros stmt p block p' H. cbn [parseForBlock] in H.
    destruct (parseNodes n [StmtEndFor] [] p) as [[err | [body p1]] |] eqn:E;
      try discriminate.
    apply IHN in E as (items & ns & Hi & Hb & -> & Hstop).
    destruct (atEnd p1) eqn:Hend; [discriminate|].
    pose proof (not_atEnd p1 Hend) as Hts.
    destruct (Type_ (current p1)) eqn:Ht; try discriminate.
    destruct (parseStmt p1 (current p1)) as [err | [endStmt p2]] eqn:Hps; [discriminate|].
    destruct (parseStmt_opens _ _ _ _ Ht Hps) as [_ ->].
    pose proof (parseStmt_isStmt _ _ _ _ Ht Hps) as Hes.
    destruct (Kind endStmt) eqn:Hk; try discriminate.
    injection H as <- <-.
    exists items, ns, (current p1). rewrite Hi, Hts at 1.
    repeat split; try assumption; apply Hes.
  - intros stmt p block p' H. cbn [parseIfBlock] in H.
    destruct (parseNodes n [StmtElif; StmtElse; StmtEndIf] [] p)
      as [[err | [body p1]] |] eqn:E; try discriminate.
    apply IHN in E as (items & ns & Hi & Hb & -> & Hstop).
    apply IHC in H as (chain & elifs & els & Hc & Hch & ->).
    exists items, ns, chain, elifs, els. rewrite Hi, Hc.
    repeat split; assumption.
  - intros stmt body elifs0 p block p' H. cbn [ifChain] in H.
    destruct (atEnd p) eqn:Hend; [discriminate|].
    pose proof (not_atEnd p Hend) as Hts.
    destruct (Type_ (current p)) eqn:Ht; try discriminate.
    destruct (parseStmt p (current p)) as [err | [nextStmt p1]] eqn:Hps; [discriminate|].
    destruct (parseStmt_opens _ _ _ _ Ht Hps) as [Hso ->].
    pose proof (parseStmt_isStmt _ _ _ _ Ht Hps) as Hns.
    destruct (Kind nextStmt) eqn:Hk; try discriminate.
    + destruct (parseNodes n [StmtElif; StmtElse; StmtEndIf] [] (advance p))
        as [[err | [elifBody p2]] |] eqn:E; try discriminate.
      apply IHN in E as (items & ns & Hi & Hb & -> & Hstop).
      apply IHC in H as (chain & elifs & els & Hc & Hch & ->).
      exists (current p :: items ++ chain),
             (mkBranch (Expr nextStmt) ns (stmtPos nextStmt) :: elifs), els.
      rewrite Hts, Hi, Hc, <- !app_assoc. cbn [app]. rewrite <- !app_assoc.
      repeat split.
      apply (Ch_elif (current p) nextStmt); [split; assumption | assumption..].
    + destruct (parseNodes n [StmtEndIf] [] (advance p))
        as [[err | [elseBody p2]] |] eqn:E; try discriminate.
      apply IHN in E as (items & ns & Hi & Hb & -> & Hstop).
      destruct (atEnd p2) eqn:Hend2; [discriminate|].
      pose proof (not_atEnd p2 Hend2) as Hts2.
      destruct Hstop as [Heof | (tok & rest & k & Hrest & Hsk & Hck)].
      { rewrite Hts2 in Heof. cbn in Heof. rewrite Heof in H. discriminate. }
      rewrite Hts2 in Hrest. injection Hrest as <- <-.
      assert (Hkk : k = StmtEndIf) by (destruct k; cbn in Hck; congruence).
      subst k. destruct Hsk as [Htt Hpk].
      rewrite Htt in H.
      destruct (parseStmt p2 (current p2)) as [err | [endStmt p3]] eqn:Hps2; [discriminate|].
      destruct (parseStmt_opens _ _ _ _ Htt Hps2) as [_ ->].
      destruct (Kind endStmt) eqn:Hk2; try discriminate.
      injection H as <- <-.
      exists (current p :: items ++ [current p2]), [], ns.
      rewrite Hts, Hi, Hts2 at 1. cbn [app]. rewrite <- ?app_assoc, app_nil_r. cbn [app].
      repeat split.
      apply Ch_else; [exact Hns | exact Hb | split; assumption].
    + injection H as <- <-. exists [current p], [], [].
      rewrite Hts at 1. rewrite app_nil_r. repeat split.
      apply Ch_endif. exact Hns.
Qed.

(** X11.  [Parse] succeeds exactly on the well-formed inputs: it returns a
    template when, and only when, the tokens up to the end of the input
    (the EOF token, or the end of the slice) are a sequence of text,
    expressions and complete, properly nested blocks; the nodes of the
    template are the ones that sequence stands for, and what follows the
    EOF token is not looked at. *)
Theorem parse_accepts_exactly_well_formed
  (ts : list Token) (f : string) (tmpl : Template_) :
  Parse (NewParser ts f) = Some (inr tmpl) <->
  exists items tail,
    ts = items ++ tail /\ Balanced items (Nodes tmpl) /\ atEOF tail /\ TFile tmpl = f.
Proof.
  split.
  - unfold Parse, NewParser. cbn [tokens file].
    destruct (parseNodes _ [] [] _) as [[err | [nodes p']] |] eqn:E; try discriminate.
    intros [= <-]. cbn [Nodes TFile].
    apply (proj1 (parse_reads _)) in E as (items & ns & Hi & Hb & -> & Hstop).
    cbn [tokens app] in *. exists items, (tokens p').
    repeat split; try assumption.
    destruct Hstop as [Heof | (tok & rest & k & _ & _ & Hc)]; [exact Heof | discriminate].
  - intros (items & tail & -> & Hb & Heof & Hf). destruct tmpl as [ns f']. cbn in *.
    subst f'. apply Parse_balanced; assumption.
Qed.

(** X12.  [Parse] terminates on every token slice, with a template or an
    error; a slice without EOF token is read to its end. *)
Theorem parse_terminates (ts : list Token) (f : string) :
  exists r, Parse (NewParser ts f) = Some r.
Proof. apply Parse_total. Qed.

Lemma RN_invalid (f : string) stopOn nodes tok ts :
  isStmt StmtUnknown tok -> containsKind stopOn StmtUnknown = false ->
  RunsNodes f stopOn nodes (tok :: ts)
    (inl (ParseError (Pos tok)
            ("invalid statement syntax: " +:+ TrimSpace (Value tok)))).
Proof.
  intros [Ht Hk] Hc.
  assert (H : forall p, parseStmt p tok =
                        inl (ParseError (Pos tok)
                               ("invalid statement syntax: " +:+ TrimSpace (Value tok)))).
  { intros p. pose proof (parseStmt_by_kind p tok) as H. rewrite Hk in H. exact H. }
  exists 1. cbn. rewrite Ht, Hk, Hc, H. reflexivity.
Qed.

(** X13.  A statement of no recognized form is an error wherever the parser
    meets it, at top level or inside open blocks: [Parse] fails with the
    parse error [invalid statement syntax] at that statement, with its
    trimmed text; the blocks left open around it are not reported. *)
Theorem invalid_statement_rejected
  (f : string) (pre : list Token) (fr : Frame) (tok : Token) (rest : list Token) :
  OpenCtx pre fr ->
  Type_ tok = TokenStmt -> peekStmtKind (Value tok) = StmtUnknown ->
  Parse (NewParser (pre ++ tok :: rest) f)
  = Some (inl (ParseError (Pos tok)
                 ("invalid statement syntax: " +:+ TrimSpace (Value tok)))).
Proof.
  intros Hctx Ht Hk. apply Parse_fails. apply (OpenCtx_fails f _ _ Hctx).
  intros nodes. apply RN_invalid; [split; assumption|]. destruct fr; reflexivity.
Qed.

End ParserAccepts.

Section ParserAcceptsInstances.

Lemma invalid_statement_rejected_witness :
  OpenCtx [mkToken TokenStmt "for x in items:" (mkPos "test.sql" 1 1);
           mkToken TokenText "body" (mkPos "test.sql" 1 22)]
          (FFor (mkStmt (mkPos "test.sql" 1 1) StmtFor "x" "items")) /\
  Parse (NewParser
           ([mkToken TokenStmt "for x in items:" (mkPos "test.sql" 1 1);
             mkToken TokenText "body" (mkPos "test.sql" 1 22)] ++
            mkToken TokenStmt "invalid statement" (mkPos "test.sql" 2 1) ::
            [mkToken TokenEOF EmptyString (mkPos "test.sql" 2 24)]) "test.sql")
  = Some (inl (ParseError (mkPos "test.sql" 2 1)
                 "invalid statement syntax: invalid statement")).
Proof.
  assert (H : OpenCtx [mkToken TokenStmt "for x in items:" (mkPos "test.sql" 1 1);
                       mkToken TokenText "body" (mkPos "test.sql" 1 22)]
                      (FFor (mkStmt (mkPos "test.sql" 1 1) StmtFor "x" "items"))).
  { apply (Ctx_for [] FTop (mkToken TokenStmt "for x in items:" (mkPos "test.sql" 1 1))
             (mkStmt (mkPos "test.sql" 1 1) StmtFor "x" "items")
             [mkToken TokenText "body" (mkPos "test.sql" 1 22)]
             [TextNode (mkPos "test.sql" 1 22) "body"]).
    - exact (Ctx_top [] [] Bal_nil).
    - split; reflexivity.
    - apply (Bal_text (mkToken TokenText "body" (mkPos "test.sql" 1 22)) [] []);
        [reflexivity | apply Bal_nil]. }
  split; [exact H|].
  apply (invalid_statement_rejected "test.sql" _ _
           (mkToken TokenStmt "invalid statement" (mkPos "test.sql" 2 1)) _ H).
  - reflexivity.
  - reflexivity.
Defined.

End ParserAcceptsInstances.

(** ** Where the errors of the parser come from *)

Section ParserErrors.

Lemma located_suffix (pre ts : list Token) (err : Error) :
  located ts err -> located (pre ++ ts) err.
Proof.
  intros (tok & Hin & H). exists tok. split; [| exact H].
  apply in_or_app. right. exact Hin.
Qed.

Lemma located_advance (p : Parser) (err : Error) :
  atEnd p = false -> located (tokens (advance p)) err -> located (tokens p) err.
Proof.
  intros Hend H. rewrite (not_atEnd p Hend).
  apply (located_suffix [current p]). exact H.
Qed.

Lemma located_current_invalid (p : Parser) (err : Error) :
  atEnd p = false -> Type_ (current p) = TokenStmt ->
  parseStmt p (current p) = inl err -> located (tokens p) err.
Proof.
  intros Hend Ht H. exists (current p).
  split; [rewrite (not_atEnd p Hend); left; reflexivity|]. split; [exact Ht|].
  left. pose proof (parseStmt_by_kind p (current p)) as Hk.
  destruct (peekStmtKind (Value (current p)));
    try (destruct Hk as (v & e & Hk); rewrite Hk in H; discriminate).
  rewrite Hk in H. injection H as <-. reflexivity.
Qed.

Lemma located_current_unmatched (p : Parser) (stmt : StmtNode) (p1 : Parser) :
  atEnd p = false -> Type_ (current p) = TokenStmt ->
  parseStmt p (current p) = inr (stmt, p1) ->
  located (tokens p) (UnmatchedBlockError (stmtPos stmt) (Kind stmt)).
Proof.
  intros Hend Ht H. exists (current p).
  split; [rewrite (not_atEnd p Hend); left; reflexivity|]. split; [exact Ht|].
  right. destruct (parseStmt_opens _ _ _ _ Ht H) as [Hs _].
  destruct (stmtOf_facts _ _ Hs) as (_ & Hk & Hpos). rewrite Hk, Hpos.
  split; [reflexivity|].
  pose proof (parseStmt_by_kind p (current p)) as Hb.
  intros Hu. rewrite Hu in Hb. rewrite Hb in H. discriminate.
Qed.

Lemma parseStmt_known (p p1 : Parser) (tok : Token) (stmt : StmtNode) :
  Type_ tok = TokenStmt -> parseStmt p tok = inr (stmt, p1) ->
  Kind stmt <> StmtUnknown /\ stmtPos stmt = Pos tok.
Proof.
  intros Ht H. destruct (parseStmt_opens _ _ _ _ Ht H) as [Hs _].
  destruct (stmtOf_facts _ _ Hs) as (_ & Hk & Hpos). split; [| exact Hpos].
  intros Hu. pose proof (parseStmt_by_kind p tok) as Hb.
  rewrite <- Hk, Hu in Hb. rewrite Hb in H. discriminate.
Qed.

Lemma reads_suffix (p p' : Parser) (items : list Token) (err : Error) :
  tokens p = items ++ tokens p' -> located (tokens p') err -> located (tokens p) err.
Proof. intros -> H. apply located_suffix, H. Qed.

(** Where the errors of the parsing functions come from: a statement
    token that is still to be read or, for a block, its opening
    statement. *)
Lemma parse_errors (n : nat) :
  (forall stopOn nodes p err,
     parseNodes n stopOn nodes p = Some (inl err) -> located (tokens p) err) /\
  (forall stmt p err,
     parseForBlock n stmt p = Some (inl err) ->
     located (tokens p) err \/ err = UnmatchedBlockError (stmtPos stmt) StmtFor) /\
  (forall stmt p err,
     parseIfBlock n stmt p = Some (inl err) ->
     located (tokens p) err \/ err = UnmatchedBlockError (stmtPos stmt) StmtIf) /\
  (forall stmt body elifs p err,
     ifChain n stmt body elifs p = Some (inl err) ->
     located (tokens p) err \/ err = UnmatchedBlockError (stmtPos stmt) StmtIf).
Proof.
  induction n as [| n (IHN & IHF & IHI & IHC)].
  { repeat split; intros; discriminate. }
  repeat split.
  - intros stopOn nodes p err H. cbn [parseNodes] in H.
    destruct (atEnd p) eqn:Hend; [discriminate|].
    destruct (Type_ (current p)) eqn:Ht.
    + apply located_advance; [exact Hend | exact (IHN _ _ _ _ H)].
    + apply located_advance; [exact Hend | exact (IHN _ _ _ _ H)].
    + destruct (containsKind stopOn (peekStmtKind (Value (current p)))); [discriminate|].
      destruct (parseStmt p (current p)) as [e | [stmt p1]] eqn:Hps.
      { injection H as <-. exact (located_current_invalid p e Hend Ht Hps). }
      pose proof (located_current_unmatched p stmt p1 Hend Ht Hps) as Hcur.
      destruct (parseStmt_known _ _ _ _ Ht Hps) as [Hnu Hpos].
      destruct (parseStmt_opens _ _ _ _ Ht Hps) as [_ ->].
      rewrite <- Hpos in H.
      destruct (Kind stmt) eqn:Hk.
      * congruence.
      * destruct (parseForBlock n stmt (advance p)) as [[e | [block p2]] |] eqn:E;
          try discriminate.
        -- injection H as <-. destruct (IHF _ _ _ E) as [Hl | ->].
           ++ apply located_advance; assumption.
           ++ exact Hcur.
        -- apply located_advance; [exact Hend|].
           destruct (proj1 (proj2 (parse_reads n)) _ _ _ _ E)
             as (body & bns & etok & Hbt & _).
           apply (reads_suffix _ p2 (body ++ [etok])); [| exact (IHN _ _ _ _ H)].
           rewrite Hbt, <- app_assoc. reflexivity.
      * injection H as <-. exact Hcur.
      * destruct (parseIfBlock n stmt (advance p)) as [[e | [block p2]] |] eqn:E;
          try discriminate.
        -- injection H as <-. destruct (IHI _ _ _ E) as [Hl | ->].
           ++ apply located_advance; assumption.
           ++ exact Hcur.
        -- apply located_advance; [exact Hend|].
           destruct (proj1 (proj2 (proj2 (parse_reads n))) _ _ _ _ E)
             as (body & bns & chain & elifs & els & Hbt & _).
           apply (reads_suffix _ p2 (body ++ chain)); [| exact (IHN _ _ _ _ H)].
           rewrite Hbt, <- app_assoc. reflexivity.
      * injection H as <-. exact Hcur.
      * injection H as <-. exact Hcur.
      * injection H as <-. exact Hcur.
    + discriminate.
  - intros stmt p err H. cbn [parseForBlock] in H.
    destruct (parseNodes n [StmtEndFor] [] p) as [[e | [body p1]] |] eqn:E;
      try discriminate.
    { injection H as <-. left. exact (IHN _ _ _ _ E). }
    destruct (proj1 (parse_reads n) _ _ _ _ _ E) as (items & ns & Hi & _).
    destruct (atEnd p1) eqn:Hend; [injection H as <-; right; reflexivity|].
    destruct (Type_ (current p1)) eqn:Ht;
      try (injection H as <-; right; reflexivity).
    destruct (parseStmt p1 (current p1)) as [e | [endStmt p2]] eqn:Hps.
    { injection H as <-. left. apply (reads_suffix _ p1 items _ Hi).
      exact (located_current_invalid p1 e Hend Ht Hps). }
    destruct (Kind endStmt); try discriminate; injection H as <-; right; reflexivity.
  - intros stmt p err H. cbn [parseIfBlock] in H.
    destruct (parseNodes n [StmtElif; StmtElse; StmtEndIf] [] p)
      as [[e | [body p1]] |] eqn:E; try discriminate.
    { injection H as <-. left. exact (IHN _ _ _ _ E). }
    destruct (proj1 (parse_reads n) _ _ _ _ _ E) as (items & ns & Hi & _).
    destruct (IHC _ _ _ _ _ H) as [Hl | ->]; [left | right; reflexivity].
    exact (reads_suffix _ p1 items _ Hi Hl).
  - intros stmt body elifs p err H. cbn [ifChain] in H.
    destruct (atEnd p) eqn:Hend; [injection H as <-; right; reflexivity|].
    destruct (Type_ (current p)) eqn:Ht;
      try (injection H as <-; right; reflexivity).
    destruct (parseStmt p (current p)) as [e | [nextStmt p1]] eqn:Hps.
    { injection H as <-. left. exact (located_current_invalid p e Hend Ht Hps). }
    destruct (parseStmt_opens _ _ _ _ Ht Hps) as [_ ->].
    destruct (Kind nextStmt); try (injection H as <-; right; reflexivity).
    + destruct (parseNodes n [StmtElif; StmtElse; StmtEndIf] [] (advance p))
        as [[e | [elifBody p2]] |] eqn:E; try discriminate.
      { injection H as <-. left. apply located_advance; [exact Hend|].
        exact (IHN _ _ _ _ E). }
      destruct (proj1 (parse_reads n) _ _ _ _ _ E) as (items & ns & Hi & _).
      destruct (IHC _ _ _ _ _ H) as [Hl | ->]; [left | right; reflexivity].
      apply located_advance; [exact Hend|]. exact (reads_suffix _ p2 items _ Hi Hl).
    + destruct (parseNodes n [StmtEndIf] [] (advance p))
        as [[e | [elseBody p2]] |] eqn:E; try discriminate.
      { injection H as <-. left. apply located_advance; [exact Hend|].
        exact (IHN _ _ _ _ E). }
      destruct (proj1 (parse_reads n) _ _ _ _ _ E) as (items & ns & Hi & _ & _ & Hstop).
      destruct (atEnd p2) eqn:Hend2; [injection H as <-; right; reflexivity|].
      destruct (Type_ (current p2)) eqn:Ht2;
        try (injection H as <-; right; reflexivity).
      * exfalso. destruct Hstop as [Heof | (tok & rest & k & Hrest & [Hty _] & _)];
          rewrite (not_atEnd p2 Hend2) in *.
        -- cbn in Heof. congruence.
        -- injection Hrest as <- <-. congruence.
      * exfalso. destruct Hstop as [Heof | (tok & rest & k & Hrest & [Hty _] & _)];
          rewrite (not_atEnd p2 Hend2) in *.
        -- cbn in Heof. congruence.
        -- injection Hrest as <- <-. congruence.
      * destruct (parseStmt p2 (current p2)) as [e | [endStmt p3]] eqn:Hps2.
        { injection H as <-. left. apply located_advance; [exact Hend|].
          apply (reads_suffix _ p2 items _ Hi).
          exact (located_current_invalid p2 e Hend2 Ht2 Hps2). }
        destruct (Kind endStmt); try discriminate; injection H as <-; right; reflexivity.
    + discriminate.
Qed.

(** X14.  Every error of [Parse] is about one statement token of the input,
    and carries its position: the token has no valid form
    ([invalid statement syntax], with its trimmed text), or it is a block
    statement without its match ([UnmatchedBlock], with the kind of that
    token).  [Parse] reports nothing else: no lexical or rendering
    error, and neither [unexpected statement] nor [unexpected token]. *)
Theorem parse_errors_are_located (ts : list Token) (f : string) (err : Error) :
  Parse (NewParser ts f) = Some (inl err) -> located ts err.
Proof.
  unfold Parse, NewParser. cbn [tokens file].
  destruct (parseNodes _ [] [] _) as [[e | [nodes p']] |] eqn:E; try discriminate.
  intros [= <-]. exact (proj1 (parse_errors _) _ _ _ _ E).
Qed.

End ParserErrors.

Section ParserErrorsInstances.

Lemma parse_errors_are_located_witness :
  located Sample.unmatchedForTokens
    (UnmatchedBlockError (mkPos "test.sql" 1 1) StmtFor).
Proof.
  apply (parse_errors_are_located Sample.unmatchedForTokens "test.sql").
  vm_compute. reflexivity.
Defined.

End ParserErrorsInstances.

(** ** Statements the patterns recognize, and what they capture *)

Section StatementForms.

Import Regex.

Lemma firstIs_cat (r : regex) (rs : list regex) (st s1 a : mstate) :
  firstIs r st s1 -> firstIs (cat rs) s1 a -> firstIs (cat (r :: rs)) st a.
Proof.
  intros [t1 H1] [t2 H2]. unfold firstIs. cbn [cat fold_right run]. fold (cat rs).
  rewrite H1. cbn [flat_map]. rewrite H2. eexists. reflexivity.
Qed.

Lemma firstIs_nil (st : mstate) : firstIs (cat []) st st.
Proof. exists []. reflexivity. Qed.

Lemma firstIs_begin (l : bytes) (cs : list bytes) :
  firstIs RBegin (MState 0 l cs) (MState 0 l cs).
Proof. exists []. reflexivity. Qed.

Lemma firstIs_lit (s : string) (st : mstate) :
  hasPrefix (B s) (rest st) = true ->
  firstIs (RLit s) st (advanceBy st (length (B s))).
Proof. intros H. exists []. cbn. rewrite H. reflexivity. Qed.

Lemma rev_seq_S (n : nat) : rev (seq 1 (S n)) = S n :: rev (seq 1 n).
Proof. rewrite seq_S, rev_app_distr. reflexivity. Qed.

Lemma firstIs_plus (k : cls) (st : mstate) (n : nat) :
  spanLen k (rest st) = S n -> firstIs (RPlus k) st (advanceBy st (S n)).
Proof.
  intros H. unfold firstIs. cbn [run]. rewrite H, rev_seq_S. cbn [map].
  eexists. reflexivity.
Qed.

Lemma firstIs_group (r : regex) (st a : mstate) :
  firstIs r st a -> firstIs (RGroup r) st (closeGroup st a).
Proof. intros [t H]. unfold firstIs. cbn [run]. rewrite H. eexists. reflexivity. Qed.

Lemma spanLen_all (k : cls) (l : bytes) :
  forallb (inCls k) l = true -> spanLen k l = length l.
Proof.
  induction l as [| c l IH]; [reflexivity|]. cbn.
  intros [Hc Hl]%andb_true_iff. rewrite Hc, (IH Hl). reflexivity.
Qed.

Lemma spanLen_until (k : cls) (l X : bytes) (c : ascii) :
  forallb (inCls k) l = true -> inCls k c = false ->
  spanLen k (l ++ c :: X) = length l.
Proof.
  intros Hl Hc. rewrite spanLen_app, (spanLen_all _ _ Hl), Nat.eqb_refl.
  cbn. rewrite Hc. lia.
Qed.

(** On a text with no line feed that ends in a byte that is neither
    white space nor a colon, the tail succeeds and captures the text. *)
Lemma tail_whole (st : mstate) (r0 : bytes) (c : ascii) :
  rest st = r0 ++ [c] -> spaceOrColon c = false ->
  forallb (inCls Dot) (r0 ++ [c]) = true ->
  exists a, firstIs (cat tailItems) st a /\ caps a = caps st ++ [r0 ++ [c]].
Proof.
  intros Hr Hbad Hdot. unfold firstIs. rewrite run_tail, Hr.
  rewrite (spanLen_all _ _ Hdot), length_app. cbn [length].
  rewrite seq_app, flat_map_app.
  rewrite (attempts_stuck st r0 [] c) by (try lia; assumption).
  cbn [seq flat_map app].
  destruct (closer_at_end (closeGroup st (advanceBy st (1 + length r0)))) as (a & Ha & Hca).
  { cbn. rewrite Hr. apply drop_ge. rewrite length_app. cbn. lia. }
  unfold attempt. rewrite Ha. exists a. split; [eexists; reflexivity|].
  rewrite Hca. cbn. rewrite Hr.
  replace (consumed st + S (length r0) - consumed st) with (length (r0 ++ [c]))
    by (rewrite length_app; cbn; lia).
  rewrite firstn_all. reflexivity.
Qed.

Lemma hasPrefix_app (p X : bytes) : hasPrefix p (p ++ X) = true.
Proof.
  induction p as [| x p IH]; [reflexivity|]. cbn. rewrite Ascii.eqb_refl. exact IH.
Qed.

Lemma word_not_space (c : ascii) : inCls Word c = true -> inCls Space c = false.
Proof.
  intros H.
  assert (Hw : clsWithin (fun c => negb (inCls Space c)) Word = true)
    by (vm_compute; reflexivity).
  apply negb_true_iff. exact (clsWithin_spec _ _ _ Hw H).
Qed.

Lemma spanLen_one (c : ascii) (X : bytes) :
  inCls Space c = false -> spanLen Space (" "%char :: c :: X) = 1.
Proof. intros H. cbn [spanLen]. change (inCls Space " ") with true. rewrite H. reflexivity. Qed.

(** [^kw\s+(.+?)\s*:?\s*$] on [kw e]: the group is [e]. *)
Lemma keyword_pattern_first (kw : string) (c0 : ascii) (e' r0 : bytes) (c : ascii) :
  inCls Space c0 = false -> c0 :: e' = r0 ++ [c] -> spaceOrColon c = false ->
  forallb (inCls Dot) (c0 :: e') = true ->
  exists a,
    firstIs (cat (RBegin :: RLit kw :: RPlus Space :: tailItems))
            (MState 0 (B kw ++ " "%char :: c0 :: e') []) a /\
    caps a = [c0 :: e'].
Proof.
  intros Hc0 He Hbad Hdot.
  destruct (tail_whole (MState (0 + length (B kw) + 1) (c0 :: e') []) r0 c He Hbad)
    as (a & Ha & Hca); [rewrite <- He; exact Hdot|].
  exists a. split; [| rewrite Hca, <- He; reflexivity].
  eapply firstIs_cat; [apply firstIs_begin|].
  eapply firstIs_cat; [apply firstIs_lit; apply hasPrefix_app|].
  unfold advanceBy at 1. cbn [consumed rest caps]. rewrite drop_app_length.
  eapply firstIs_cat; [apply (firstIs_plus Space _ 0); apply spanLen_one, Hc0|].
  unfold advanceBy at 1. cbn [consumed rest caps drop].
  exact Ha.
Qed.

(** [forPattern] on [for v in e]: the groups are [v] and [e]. *)
Lemma for_pattern_first (v0 : ascii) (v' : bytes) (c0 : ascii) (e' r0 : bytes)
  (c : ascii) :
  forallb (inCls Word) (v0 :: v') = true ->
  inCls Space c0 = false -> c0 :: e' = r0 ++ [c] -> spaceOrColon c = false ->
  forallb (inCls Dot) (c0 :: e') = true ->
  exists a,
    firstIs forPattern
            (MState 0 (B "for " ++ (v0 :: v') ++ B " in " ++ c0 :: e') []) a /\
    caps a = [v0 :: v'; c0 :: e'].
Proof.
  intros Hv Hc0 He Hbad Hdot.
  destruct (tail_whole (MState (0 + 3 + 1 + S (length v') + 1 + 2 + 1) (c0 :: e')
                          [v0 :: v']) r0 c He Hbad)
    as (a & Ha & Hca); [rewrite <- He; exact Hdot|].
  exists a. split; [| rewrite Hca, <- He; reflexivity].
  assert (Hv0 : inCls Space v0 = false).
  { apply word_not_space. cbn in Hv. apply andb_true_iff in Hv as [H _]. exact H. }
  unfold forPattern.
  eapply firstIs_cat; [apply firstIs_begin|].
  eapply firstIs_cat; [apply firstIs_lit; reflexivity|].
  unfold advanceBy at 1. cbn [consumed rest caps B list_ascii_of_string length drop app].
  eapply firstIs_cat; [apply (firstIs_plus Space _ 0); apply spanLen_one, Hv0|].
  unfold advanceBy at 1. cbn [consumed rest caps drop].
  eapply firstIs_cat.
  { apply firstIs_group. apply (firstIs_plus Word _ (length v')).
    cbn [rest]. change (v0 :: v' ++ " "%char :: "i"%char :: "n"%char :: " "%char :: c0 :: e')
      with ((v0 :: v') ++ " "%char :: "i"%char :: "n"%char :: " "%char :: c0 :: e').
    rewrite (spanLen_until Word (v0 :: v')); [reflexivity | exact Hv | reflexivity]. }
  unfold closeGroup, advanceBy. cbn [consumed rest caps app].
  replace (0 + 3 + 1 + S (length v') - (0 + 3 + 1)) with (length (v0 :: v'))
    by (cbn [length]; lia).
  change (v0 :: v' ++ " "%char :: "i"%char :: "n"%char :: " "%char :: c0 :: e')
    with ((v0 :: v') ++ " "%char :: "i"%char :: "n"%char :: " "%char :: c0 :: e').
  rewrite take_app_length.
  replace (S (length v')) with (length (v0 :: v')) at 2 by reflexivity.
  rewrite drop_app_length.
  eapply firstIs_cat; [apply (firstIs_plus Space _ 0); apply spanLen_one; reflexivity|].
  unfold advanceBy at 1. cbn [consumed rest caps drop].
  eapply firstIs_cat; [apply firstIs_lit; reflexivity|].
  unfold advanceBy at 1. cbn [consumed rest caps B list_ascii_of_string length drop].
  eapply firstIs_cat; [apply (firstIs_plus Space _ 0); apply spanLen_one, Hc0|].
  unfold advanceBy at 1. cbn [consumed rest caps drop].
  exact Ha.
Qed.

Lemma FindStringSubmatch_first (r : regex) (l : bytes) (a : mstate) :
  firstIs (RCat RBegin r) (MState 0 l []) a ->
  FindStringSubmatch (RCat RBegin r) (S_ l) =
  Some (map S_ (take (consumed a - 0) l :: caps a)).
Proof.
  intros [t H]. unfold FindStringSubmatch. rewrite B_S, findFrom_anchored.
  unfold matchAt. rewrite H. reflexivity.
Qed.

Lemma asciiSpace_cls (c : ascii) : isAsciiSpace c = false -> inCls Space c = false.
Proof.
  intros Hc. unfold isAsciiSpace, inRange in Hc. unfold inCls, isByte in *.
  apply orb_false_iff in Hc as [Hr H32]. rewrite H32.
  destruct (Nat.eqb_spec (code c) 9), (Nat.eqb_spec (code c) 10),
    (Nat.eqb_spec (code c) 12), (Nat.eqb_spec (code c) 13); try reflexivity;
    exfalso; apply andb_false_iff in Hr as [Hr | Hr]; apply Nat.leb_gt in Hr; lia.
Qed.

(** The ends of a trimmed, non-empty expression. *)
Lemma trimmed_ends (e : string) :
  e <> "" -> TrimSpace e = e -> last (B e) <> Some ":"%char ->
  exists c0 e' r0 c,
    B e = c0 :: e' /\ c0 :: e' = r0 ++ [c] /\
    inCls Space c0 = false /\ inCls Space c = false /\ c <> ":"%char.
Proof.
  intros Hne Htrim Hlast.
  assert (Hb : trimSpaceBytes (B e) = B e).
  { apply (f_equal B) in Htrim. unfold TrimSpace in Htrim. rewrite B_S in Htrim. exact Htrim. }
  destruct (B e) as [| c0 e'] eqn:HB.
  { exfalso. apply Hne. apply B_inj. exact HB. }
  assert (Hsnoc : exists r0 c, c0 :: e' = r0 ++ [c]).
  { clear. revert c0. induction e' as [| x e' IH]; intros c0.
    - exists [], c0. reflexivity.
    - destruct (IH x) as (r0 & c & ->). exists (c0 :: r0), c. reflexivity. }
  destruct Hsnoc as (r0 & c & Hs). exists c0, e', r0, c.
  repeat split; try assumption.
  - destruct (trimmed_widths _ Hb) as [Hl _]; [discriminate|].
    apply asciiSpace_cls. unfold leadingSpaceWidth in Hl.
    destruct (isAsciiSpace c0); [discriminate | reflexivity].
  - apply (trimmed_last r0). rewrite <- Hs. exact Hb.
  - intros ->. apply Hlast. rewrite Hs. apply last_snoc.
Qed.

(** A pattern that starts with another keyword finds nothing. *)
Lemma other_keyword (kw : string) (rs : list regex) (t : string) :
  hasPrefix (B kw) (B t) = false ->
  FindStringSubmatch (cat (RBegin :: RLit kw :: rs)) t = None.
Proof.
  intros H. unfold FindStringSubmatch.
  change (cat (RBegin :: RLit kw :: rs)) with (RCat RBegin (cat (RLit kw :: rs))).
  rewrite findFrom_anchored. unfold matchAt.
  cbn [cat fold_right run consumed Nat.eqb rest flat_map]. rewrite H. reflexivity.
Qed.

(** [kw e] and [kw e:] under the pattern of the keyword [kw]. *)
Lemma keyword_statement (kw : string) (pat : regex) (e : string) :
  pat = cat (RBegin :: RLit kw :: RPlus Space :: tailItems) ->
  colonBlind (cat ((RBegin :: [RLit kw]) ++ [RPlus Space])) = true ->
  e <> "" -> TrimSpace e = e -> oneLine e = true -> last (B e) <> Some ":"%char ->
  (exists m, FindStringSubmatch pat (kw +:+ " " +:+ e) = Some m /\ sub m 1 = e) /\
  (exists m, FindStringSubmatch pat ((kw +:+ " " +:+ e) +:+ ":") = Some m /\ sub m 1 = e).
Proof.
  intros -> Hblind Hne Htrim Hline Hlast.
  destruct (trimmed_ends e Hne Htrim Hlast) as (c0 & e' & r0 & c & HB & Hs & Hc0 & Hc & Hcol).
  unfold oneLine in Hline. rewrite HB in Hline.
  destruct (keyword_pattern_first kw c0 e' r0 c Hc0 Hs
              (spaceOrColon_false c Hc Hcol) Hline) as (a & Ha & Hca).
  set (t := kw +:+ " " +:+ e) in *.
  assert (Ht : B t = B kw ++ " "%char :: c0 :: e').
  { unfold t. rewrite !B_app, HB. reflexivity. }
  assert (Hfind : exists m,
            FindStringSubmatch (cat (RBegin :: RLit kw :: RPlus Space :: tailItems)) t
            = Some m /\ sub m 1 = e).
  { rewrite <- (S_B t), Ht.
    change (cat (RBegin :: RLit kw :: RPlus Space :: tailItems))
      with (RCat RBegin (cat (RLit kw :: RPlus Space :: tailItems))) in Ha |- *.
    eexists. split; [apply FindStringSubmatch_first; exact Ha|].
    rewrite Hca. cbn [map sub nth]. rewrite <- HB, S_B. reflexivity. }
  split; [exact Hfind|].
  destruct Hfind as (m & Hm & Hm1).
  assert (HBt : B t = (B kw ++ " "%char :: r0) ++ [c]).
  { rewrite Ht, Hs, <- app_assoc. reflexivity. }
  pose proof (colon_captures [RLit kw] _ t _ c eq_refl Hblind HBt Hc Hcol) as H.
  change (cat (((RBegin :: [RLit kw]) ++ [RPlus Space]) ++ tailItems))
    with (cat (RBegin :: RLit kw :: RPlus Space :: tailItems)) in H.
  rewrite Hm in H. destruct H as (m' & Hm' & H1 & _).
  exists m'. split; [exact Hm' | congruence].
Qed.

End StatementForms.

(** X15.  A statement [for v in e], with or without the trailing colon, where
    [v] is one or more word bytes and [e] a non-empty, trimmed, one-line
    expression that does not end in a colon, parses to a [for] statement
    with the variable [v] and the iterable [e], at the position of the
    token; white space around the statement does not matter. *)
Theorem for_statement_parts (p : Parser) (tok : Token) (v e : string) :
  isWord v = true ->
  e <> "" -> TrimSpace e = e -> oneLine e = true -> last (B e) <> Some ":"%char ->
  TrimSpace (Value tok) = "for " +:+ v +:+ " in " +:+ e \/
  TrimSpace (Value tok) = ("for " +:+ v +:+ " in " +:+ e) +:+ ":" ->
  parseStmt p tok = inr (mkStmt (Pos tok) StmtFor v e, advance p).
Proof.
  intros Hv Hne Htrim Hline Hlast Hval.
  destruct (trimmed_ends e Hne Htrim Hlast) as (c0 & e' & r0 & c & HB & Hs & Hc0 & Hc & Hcol).
  unfold isWord in Hv. destruct (B v) as [| v0 v'] eqn:HBv; [discriminate|].
  unfold oneLine in Hline. rewrite HB in Hline.
  destruct (for_pattern_first v0 v' c0 e' r0 c Hv Hc0 Hs
              (spaceOrColon_false c Hc Hcol) Hline) as (a & Ha & Hca).
  set (t := "for " +:+ v +:+ " in " +:+ e) in *.
  assert (Ht : B t = B "for " ++ (v0 :: v') ++ B " in " ++ c0 :: e').
  { unfold t. rewrite !B_app, HBv, HB. reflexivity. }
  assert (Hfind : exists m, Regex.FindStringSubmatch forPattern t = Some m /\
                            sub m 1 = v /\ sub m 2 = e).
  { rewrite <- (S_B t), Ht.
    change forPattern with (Regex.RCat Regex.RBegin
                              (Regex.cat ((forPrefix ++ [Regex.RPlus Regex.Space])
                                          ++ Regex.tailItems))) in Ha |- *.
    eexists. split; [apply FindStringSubmatch_first; exact Ha|].
    rewrite Hca. cbn [map sub nth]. rewrite <- HBv, <- HB, !S_B. split; reflexivity. }
  destruct Hfind as (m & Hm & Hm1 & Hm2).
  unfold parseStmt. destruct Hval as [-> | ->].
  - change (String.eqb t "endfor") with false.
    change (String.eqb t "endif") with false.
    change (String.eqb t "else" || String.eqb t "else:") with false.
    cbv iota. rewrite Hm, Hm1, Hm2. reflexivity.
  - change (String.eqb (t +:+ ":") "endfor") with false.
    change (String.eqb (t +:+ ":") "endif") with false.
    change (String.eqb (t +:+ ":") "else" || String.eqb (t +:+ ":") "else:") with false.
    cbv iota.
    assert (HBt : B t = (B "for " ++ (v0 :: v') ++ B " in " ++ r0) ++ [c]).
    { rewrite Ht, Hs, <- !app_assoc. reflexivity. }
    pose proof (colon_captures forPrefix forPattern t _ c eq_refl eq_refl HBt Hc Hcol) as H.
    rewrite Hm in H. destruct H as (m' & -> & -> & ->). rewrite Hm1, Hm2. reflexivity.
Qed.

(** X16.  Statements [if e] and [elif e], with or without the trailing colon,
    where [e] is a non-empty, trimmed, one-line expression that does not
    end in a colon, parse to an [if], respectively [elif], statement with
    the condition [e], at the position of the token. *)
Theorem if_elif_statement_parts (p : Parser) (tok : Token) (e : string) :
  e <> "" -> TrimSpace e = e -> oneLine e = true -> last (B e) <> Some ":"%char ->
  (TrimSpace (Value tok) = "if " +:+ e \/
   TrimSpace (Value tok) = ("if " +:+ e) +:+ ":" ->
   parseStmt p tok = inr (mkStmt (Pos tok) StmtIf "" e, advance p)) /\
  (TrimSpace (Value tok) = "elif " +:+ e \/
   TrimSpace (Value tok) = ("elif " +:+ e) +:+ ":" ->
   parseStmt p tok = inr (mkStmt (Pos tok) StmtElif "" e, advance p)).
Proof.
  intros Hne Htrim Hline Hlast.
  destruct (keyword_statement "if" ifPattern e eq_refl eq_refl Hne Htrim Hline Hlast)
    as ((m1 & Hi1 & Hs1) & (m2 & Hi2 & Hs2)).
  destruct (keyword_statement "elif" elifPattern e eq_refl eq_refl Hne Htrim Hline Hlast)
    as ((m3 & He1 & Hs3) & (m4 & He2 & Hs4)).
  change ("if" +:+ " " +:+ e) with ("if " +:+ e) in Hi1, Hi2.
  change ("elif" +:+ " " +:+ e) with ("elif " +:+ e) in He1, He2.
  split; intros [Hv | Hv]; unfold parseStmt; rewrite Hv.
  - change (String.eqb ("if " +:+ e) "endfor") with false.
    change (String.eqb ("if " +:+ e) "endif") with false.
    change (String.eqb ("if " +:+ e) "else" || String.eqb ("if " +:+ e) "else:") with false.
    cbv iota. rewrite (other_keyword "for" _ ("if " +:+ e) eq_refl
               : Regex.FindStringSubmatch forPattern _ = None).
    rewrite Hi1, Hs1. reflexivity.
  - change (String.eqb (("if " +:+ e) +:+ ":") "endfor") with false.
    change (String.eqb (("if " +:+ e) +:+ ":") "endif") with false.
    change (String.eqb (("if " +:+ e) +:+ ":") "else" ||
            String.eqb (("if " +:+ e) +:+ ":") "else:") with false.
    cbv iota. rewrite (other_keyword "for" _ (("if " +:+ e) +:+ ":") eq_refl
               : Regex.FindStringSubmatch forPattern _ = None).
    rewrite Hi2, Hs2. reflexivity.
  - change (String.eqb ("elif " +:+ e) "endfor") with false.
    change (String.eqb ("elif " +:+ e) "endif") with false.
    change (String.eqb ("elif " +:+ e) "else" || String.eqb ("elif " +:+ e) "else:")
      with false.
    cbv iota. rewrite (other_keyword "for" _ ("elif " +:+ e) eq_refl
               : Regex.FindStringSubmatch forPattern _ = None).
    rewrite (other_keyword "if" _ ("elif " +:+ e) eq_refl
               : Regex.FindStringSubmatch ifPattern _ = None).
    rewrite He1, Hs3. reflexivity.
  - change (String.eqb (("elif " +:+ e) +:+ ":") "endfor") with false.
    change (String.eqb (("elif " +:+ e) +:+ ":") "endif") with false.
    change (String.eqb (("elif " +:+ e) +:+ ":") "else" ||
            String.eqb (("elif " +:+ e) +:+ ":") "else:") with false.
    cbv iota. rewrite (other_keyword "for" _ (("elif " +:+ e) +:+ ":") eq_refl
               : Regex.FindStringSubmatch forPattern _ = None).
    rewrite (other_keyword "if" _ (("elif " +:+ e) +:+ ":") eq_refl
               : Regex.FindStringSubmatch ifPattern _ = None).
    rewrite He2, Hs4. reflexivity.
Qed.

Section StatementInstances.

Lemma for_statement_parts_witness :
  isWord "col" = true /\
  parseStmt (NewParser Sample.unmatchedForTokens "test.sql")
    (mkToken TokenStmt "  for col in columns[1:3]:  " (mkPos "test.sql" 3 1))
  = inr (mkStmt (mkPos "test.sql" 3 1) StmtFor "col" "columns[1:3]",
         advance (NewParser Sample.unmatchedForTokens "test.sql")).
Proof.
  split; [reflexivity|].
  apply (for_statement_parts (NewParser Sample.unmatchedForTokens "test.sql")
           (mkToken TokenStmt "  for col in columns[1:3]:  " (mkPos "test.sql" 3 1))
           "col" "columns[1:3]").
  - reflexivity.
  - discriminate.
  - reflexivity.
  - reflexivity.
  - vm_compute. discriminate.
  - right. reflexivity.
Defined.

Lemma if_elif_statement_parts_witness :
  TrimSpace "x > 1" = "x > 1" /\
  parseStmt (NewParser Sample.unmatchedForTokens "test.sql")
    (mkToken TokenStmt "elif x > 1" (mkPos "test.sql" 3 1))
  = inr (mkStmt (mkPos "test.sql" 3 1) StmtElif "" "x > 1",
         advance (NewParser Sample.unmatchedForTokens "test.sql")).
Proof.
  split; [reflexivity|].
  apply (proj2 (if_elif_statement_parts (NewParser Sample.unmatchedForTokens "test.sql")
           (mkToken TokenStmt "elif x > 1" (mkPos "test.sql" 3 1)) "x > 1"
           ltac:(discriminate) eq_refl eq_refl ltac:(vm_compute; discriminate))).
  left. reflexivity.
Defined.

End StatementInstances.

Section RendererBranchInstances.

Import Starctx Render Sample.

Lemma if_block_takes_first_true_branch_witness :
  renderNode (R := runtime)
    (NewRenderer (mkContext (<["is_prod" := SBool false]> (<["is_dev" := SBool true]> ∅))))
    "test.sql"
    (IfBlock (mkPos "test.sql" 1 1) "is_prod"
       [TextNode (mkPos "test.sql" 1 18) "PROD"]
       [mkBranch "is_dev" [TextNode (mkPos "test.sql" 1 40) "DEV"] (mkPos "test.sql" 1 22)]
       [TextNode (mkPos "test.sql" 1 55) "OTHER"])
    "-- "
  = inr "-- DEV".
Proof.
  refine (proj1 (if_block_takes_first_true_branch (R := runtime)
                   (NewRenderer (mkContext (<["is_prod" := SBool false]>
                                              (<["is_dev" := SBool true]> ∅))))
                   "test.sql" (mkPos "test.sql" 1 1) "is_prod"
                   [TextNode (mkPos "test.sql" 1 18) "PROD"]
                   [mkBranch "is_dev" [TextNode (mkPos "test.sql" 1 40) "DEV"]
                      (mkPos "test.sql" 1 22)]
                   [TextNode (mkPos "test.sql" 1 55) "OTHER"] "-- ")
            [mkBranch "is_prod" [TextNode (mkPos "test.sql" 1 18) "PROD"]
               (mkPos "test.sql" 1 1)]
            (mkBranch "is_dev" [TextNode (mkPos "test.sql" 1 40) "DEV"]
               (mkPos "test.sql" 1 22))
            [] _ _ _).
  - reflexivity.
  - constructor; [vm_compute; reflexivity | constructor].
  - vm_compute. reflexivity.
Defined.

End RendererBranchInstances.

(** ** Empty expressions, reached or not *)

Section EmptyExpression.

Import Starctx Render.

Context {R : Runtime} {L : RuntimeLaws R}.

(** The branch an [if] block takes. *)
Lemma if_takes_branch (r : Renderer) (f : string) (pos : Position) (c : string)
  (body : list Node) (elifs : list Branch) (els : list Node) (buf : string)
  (bs1 bs2 : list Branch) (br : Branch) :
  mkBranch c body pos :: elifs = bs1 ++ br :: bs2 ->
  Forall (fun b => branchTruth r f b = inr false) bs1 ->
  branchTruth r f br = inr true ->
  renderNode r f (IfBlock pos c body elifs els) buf = renderNodes r (Body br) buf f.
Proof.
  rewrite renderNode_if. intros Heq Hf Ht.
  destruct bs1 as [| b1 bs1].
  - injection Heq as <- <-. rewrite Ht. reflexivity.
  - injection Heq as <- ->. apply Forall_cons_1 in Hf as [Hb1 Hf]. rewrite Hb1.
    clear Hb1. induction Hf as [| b bs1 Hb _ IH].
    + cbn [app]. rewrite Ht. reflexivity.
    + cbn [app]. rewrite Hb. exact IH.
Qed.

Lemma if_takes_else (r : Renderer) (f : string) (pos : Position) (c : string)
  (body : list Node) (elifs : list Branch) (els : list Node) (buf : string) :
  Forall (fun b => branchTruth r f b = inr false) (mkBranch c body pos :: elifs) ->
  renderNode r f (IfBlock pos c body elifs els) buf = renderNodes r els buf f.
Proof.
  rewrite renderNode_if. intros Hf. apply Forall_cons_1 in Hf as [Hb Hf]. rewrite Hb.
  clear Hb. induction Hf as [| b bs Hb _ IH]; [reflexivity|].
  rewrite Hb. exact IH.
Qed.

Lemma renderNodes_cons (r : Renderer) (f : string) (node : Node) (rest : list Node)
  (buf : string) :
  renderNodes r (node :: rest) buf f =
  match renderNode r f node buf with
  | inl err => inl err
  | inr buf' => renderNodes r rest buf' f
  end.
Proof. reflexivity. Qed.

(** Rendering fails at the empty expression it reaches. *)
Lemma reached_empty_fails (f : string) (r : Renderer) (nodes : list Node)
  (pos : Position) :
  Reaches f r nodes pos ->
  forall buf, exists msg,
    renderNodes r nodes buf f =
    inl (RenderError pos "expression evaluation failed"
           (Some (mkEvalError f (Line pos) EmptyString msg))).
Proof.
  induction 1 as [r pos rest
                 | r node rest pos out Hnode _ IH
                 | r bpos v it body rest iterVal es1 e es2 outs pos Hev Hit Hpre _ IH
                 | r bpos c body elifs els rest bs1 br bs2 pos Heq Hf Ht _ IH
                 | r bpos c body elifs els rest pos Hf _ IH]; intros buf.
  - destruct (eval_empty_expr (ctx r) f (Line pos) (locals r)) as [msg Hmsg].
    exists msg. rewrite renderNodes_cons. cbn [renderNode]. rewrite Hmsg. reflexivity.
  - rewrite renderNodes_cons, renderNode_onto, Hnode. cbn [onto]. apply IH.
  - destruct (IH EmptyString) as [msg Hmsg]. exists msg.
    rewrite renderNodes_cons, renderNode_for, Hev, Hit.
    rewrite (renderIter_err r f v body es1 es2 e outs _ buf Hpre Hmsg). reflexivity.
  - destruct (IH buf) as [msg Hmsg]. exists msg.
    rewrite renderNodes_cons, (if_takes_branch r f bpos c body elifs els buf bs1 bs2 br Heq Hf Ht).
    rewrite Hmsg. reflexivity.
  - destruct (IH buf) as [msg Hmsg]. exists msg.
    rewrite renderNodes_cons, (if_takes_else r f bpos c body elifs els buf Hf).
    rewrite Hmsg. reflexivity.
Qed.

Lemma ParseString_file (input f : string) (tmpl : Template_) :
  ParseString input f = Some (inr tmpl) -> TFile tmpl = f.
Proof.
  unfold ParseString, Parse, NewParser.
  destruct (Tokenize input f) as [err | toks]; [discriminate|]. cbn [tokens file].
  destruct (parseNodes _ [] [] _) as [[err | [nodes p']] |]; try discriminate.
  intros [= <-]. reflexivity.
Qed.

(** C5, amended.  Lexing [{{ }}] succeeds and yields an EXPR token whose
    value is the empty string, followed by EOF.  Rendering fails with an
    evaluation error, in every execution context and every renderer
    state, whenever the renderer reaches an empty expression ([Reaches]):
    the error is [expression evaluation failed] at the position of that
    expression and wraps the error of the evaluator.  So it is for the
    template [{{ }}] itself, and for every template that parses and in
    which the renderer reaches an empty expression.  When text and
    expressions only come before the empty expression, rendering fails in
    any case (with the error of the first expression that fails).  An
    empty expression that is not reached raises no error: the body of a
    [for] block over an empty sequence is not rendered, whatever it
    holds; nor are the [elif] and [else] bodies of an [if] block whose
    condition is true, nor the body of an [if] whose condition is
    false. *)
Theorem empty_expression_rejected :
  forall (c : ExecutionContext R) (f : string),
    Tokenize "{{ }}" f =
      inr [mkToken TokenExpr EmptyString (mkPos f 1 1);
           mkToken TokenEOF EmptyString (mkPos f 1 6)] /\
    (exists msg,
       RenderString "{{ }}" f c =
       Some (inl (RenderError (mkPos f 1 1) "expression evaluation failed"
                    (Some (mkEvalError f 1 EmptyString msg))))) /\
    (forall (r : Renderer) (nodes : list Node) (pos : Position) (buf : string),
       Reaches f r nodes pos ->
       exists msg,
         renderNodes r nodes buf f =
         inl (RenderError pos "expression evaluation failed"
                (Some (mkEvalError f (Line pos) EmptyString msg)))) /\
    (forall (input : string) (tmpl : Template_) (pos : Position),
       ParseString input f = Some (inr tmpl) ->
       Reaches f (NewRenderer c) (Nodes tmpl) pos ->
       exists msg,
         RenderString input f c =
         Some (inl (RenderError pos "expression evaluation failed"
                      (Some (mkEvalError f (Line pos) EmptyString msg))))) /\
    (forall (r : Renderer) (pre post : list Node) (pos : Position) (buf : string),
       forallb isLeaf pre = true ->
       exists pos' msg err,
         renderNodes r (pre ++ ExprNode pos EmptyString :: post) buf f
         = inl (RenderError pos' msg (Some err))) /\
    (forall (r : Renderer) (pos : Position) (v it : string) (body : list Node)
            (buf : string) (iterVal : Value),
       EvalExprWithLocals (ctx r) it f (Line pos) (locals r) = inr iterVal ->
       Iterate iterVal = Some [] ->
       renderNode r f (ForBlock pos v it body) buf = inr buf) /\
    (forall (r : Renderer) (pos : Position) (cnd : string) (body : list Node)
            (elifs : list Branch) (els : list Node) (buf : string),
       branchTruth r f (mkBranch cnd body pos) = inr true ->
       renderNode r f (IfBlock pos cnd body elifs els) buf = renderNodes r body buf f) /\
    (forall (r : Renderer) (pos : Position) (cnd : string) (body : list Node)
            (buf : string),
       branchTruth r f (mkBranch cnd body pos) = inr false ->
       renderNode r f (IfBlock pos cnd body [] []) buf = inr buf).
Proof.
  intros c f. split; [vm_compute; reflexivity|].
  assert (Hreach : forall (g : string) (r : Renderer) (nodes : list Node)
                          (pos : Position) (buf : string),
             Reaches g r nodes pos ->
             exists msg,
               renderNodes r nodes buf g =
               inl (RenderError pos "expression evaluation failed"
                      (Some (mkEvalError g (Line pos) EmptyString msg)))).
  { intros g r nodes pos buf H. exact (reached_empty_fails g r nodes pos H buf). }
  split; [| split; [| split; [| split; [| split; [| split]]]]].
  - destruct (Hreach f (NewRenderer c) [ExprNode (mkPos f 1 1) EmptyString]
                (mkPos f 1 1) EmptyString (Reaches_here f _ _ _)) as [msg Hmsg].
    exists msg. unfold RenderString.
    replace (ParseString "{{ }}" f)
      with (Some (inr (mkTemplate [ExprNode (mkPos f 1 1) EmptyString] f)) :
              option (Error + Template_))
      by (vm_compute; reflexivity).
    unfold Render. cbn [Nodes TFile]. rewrite Hmsg. reflexivity.
  - intros r nodes pos buf H. exact (Hreach f r nodes pos buf H).
  - intros input tmpl pos Hparse H.
    destruct (Hreach f (NewRenderer c) (Nodes tmpl) pos EmptyString H) as [msg Hmsg].
    exists msg. unfold RenderString. rewrite Hparse. unfold Render.
    rewrite (ParseString_file input f tmpl Hparse), Hmsg. reflexivity.
  - intros r pre post pos buf Hleaf. apply renderNodes_reaches_empty. exact Hleaf.
  - intros r pos v it body buf iterVal Hev Hit.
    rewrite renderNode_for, Hev, Hit. reflexivity.
  - intros r pos cnd body elifs els buf Ht.
    exact (if_takes_branch r f pos cnd body elifs els buf [] elifs
             (mkBranch cnd body pos) eq_refl (Forall_nil_2 _) Ht).
  - intros r pos cnd body buf Hf.
    apply (if_takes_else r f pos cnd body [] [] buf).
    constructor; [exact Hf | constructor].
Qed.

End EmptyExpression.

Section EmptyExpressionInstances.

Import Starctx Render Sample.

Lemma empty_expression_rejected_witness :
  exists msg,
    RenderString (R := runtime) "{* for x in XS: *}{{ }}{* endfor *}" "test.sql"
      (mkContext (<["XS" := SList [SInt 1]]> ∅)) =
    Some (inl (RenderError (mkPos "test.sql" 1 19) "expression evaluation failed"
                 (Some (mkEvalError "test.sql" 1 EmptyString msg)))).
Proof.
  refine (proj1 (proj2 (proj2 (proj2
            (empty_expression_rejected (R := runtime) (L := sample_laws)
               (mkContext (<["XS" := SList [SInt 1]]> ∅)) "test.sql"))))
            "{* for x in XS: *}{{ }}{* endfor *}"
            (mkTemplate
               [ForBlock (mkPos "test.sql" 1 1) "x" "XS"
                  [ExprNode (mkPos "test.sql" 1 19) EmptyString]] "test.sql")
            (mkPos "test.sql" 1 19) _ _).
  - vm_compute. reflexivity.
  - refine (Reaches_for "test.sql" _ (mkPos "test.sql" 1 1) "x" "XS"
              [ExprNode (mkPos "test.sql" 1 19) EmptyString] []
              (SList [SInt 1]) [] (SInt 1) [] [] (mkPos "test.sql" 1 19) _ _ _ _).
    + vm_compute. reflexivity.
    + reflexivity.
    + constructor.
    + apply Reaches_here.
Defined.

End EmptyExpressionInstances.
